(** * Spike: bytecode compiler and stack virtual machine

    A shallow embedding of the Go sources of the Spike interpreter:

    - [code]: opcodes and the instruction encoder (package [code]);
    - [object]: runtime values (package [object]);
    - [ast]: the syntax tree (package [ast]);
    - [symbols]: the symbol table of package [compiler];
    - [compiler]: the compiler with compilation scopes;
    - [flat_compiler]: the compiler of [spike/compiler/compiler.go], which
      writes into a single instruction buffer;
    - [vm]: the stack machine.

    Go's [int] and [int64] are [Z]; a byte is a [Z] in [0, 256).  A Go method
    that mutates its receiver and may return an [error] is a function from
    the receiver's state to a [Result]: the new state with a value, the
    state with an error message, or a run-time panic. *)

From Stdlib Require Import ZArith Lia Bool.
From Stdlib Require Import Sorting.Sorted Sorting.Permutation.
From stdpp Require Import base tactics option list strings gmap sorting.

Set Warnings "-register-all".
Local Open Scope Z_scope.

(** ** Results of stateful, fallible code *)

Inductive Result (S A : Type) : Type :=
| Ok (a : A) (s : S)
| Err (msg : string) (s : S)
| Panic.
Arguments Ok {S A} a s.
Arguments Err {S A} msg s.
Arguments Panic {S A}.

Definition M (S A : Type) : Type := S -> Result S A.

Definition ret {S A} (a : A) : M S A := fun s => Ok a s.
Definition fail {S A} (msg : string) : M S A := fun s => Err msg s.
Definition panic {S A} : M S A := fun _ => Panic.
Definition get {S} : M S S := fun s => Ok s s.
Definition put {S} (s : S) : M S unit := fun _ => Ok tt s.

Definition bind {S A B} (m : M S A) (k : A -> M S B) : M S B :=
  fun s =>
    match m s with
    | Ok a s' => k a s'
    | Err msg s' => Err msg s'
    | Panic => Panic
    end.

Notation "'let*' x ':=' m 'in' k" := (bind m (fun x => k))
  (at level 10, x name, m at level 100, k at level 200).
Notation "m1 ';;;' m2" := (bind m1 (fun _ => m2))
  (at level 100, m2 at level 200, right associativity).

(** [for _, x := range l { f x }]. *)
Definition forEach {S A} (f : A -> M S unit) : list A -> M S unit :=
  fix each (l : list A) : M S unit :=
    match l with
    | [] => ret tt
    | x :: l' => f x ;;; each l'
    end.

Definition is_ok {S A} (r : Result S A) : bool :=
  match r with Ok _ _ => true | _ => false end.

(** Go slice indexing with an [int] index: out of range is [None], which the
    callers turn into a panic. *)
Definition index {A} (l : list A) (i : Z) : option A :=
  if i <? 0 then None else l !! Z.to_nat i.

Definition len {A} (l : list A) : Z := Z.of_nat (length l).

(** [l[i] = x], panicking out of range. *)
Definition assign {A} (l : list A) (i : Z) (x : A) : option (list A) :=
  if (0 <=? i) && (i <? len l) then Some (<[Z.to_nat i := x]> l) else None.

(** [l[:n]], panicking out of range. *)
Definition slice_to {A} (l : list A) (n : Z) : option (list A) :=
  if (0 <=? n) && (n <=? len l) then Some (take (Z.to_nat n) l) else None.

(** Decimal rendering of an integer, as [%d] prints it. *)
Definition digit (d : Z) : string :=
  String (Ascii.ascii_of_N (Z.to_N (48 + d))) EmptyString.

Fixpoint decimal_pos (fuel : nat) (n : Z) : string :=
  match fuel with
  | O => ""
  | S fuel' =>
      if n <? 10 then digit n
      else (decimal_pos fuel' (n / 10) +:+ digit (n mod 10))%string
  end.

Definition decimal (n : Z) : string :=
  if n <? 0 then ("-" +:+ decimal_pos (S (Z.to_nat (Z.log2 (- n)))) (- n))%string
  else decimal_pos (S (Z.to_nat (Z.log2 n))) n.

(** Two's-complement wrap-around of Go's [int64] arithmetic. *)
Definition wrap64 (z : Z) : Z := (z + 2 ^ 63) mod 2 ^ 64 - 2 ^ 63.

(** ** Package [code] *)

Module code.

(** Modelled from the spec: the opcode constants of package [code], which
    is not under the sources at hand; the set is that of the opcode table,
    the names are those the compiler and the machine use. *)
Inductive Opcode : Set :=
| OpConstant | OpPop | OpAdd | OpSub | OpMul | OpDiv | OpTrue | OpFalse
| OpEqual | OpNotEqual | OpGreaterThan | OpBang | OpMinus
| OpJump | OpJumpNotTrue | OpNull
| OpSetGlobal | OpGetGlobal | OpSetLocal | OpGetLocal
| OpGetBuiltin | OpGetFreeVar
| OpArray | OpHash | OpIndex | OpCall | OpReturnValue | OpReturn
| OpClosure | OpCurrentClosure.

#[global] Instance Opcode_eq_dec : EqDecision Opcode.
Proof. solve_decision. Defined.

Definition all_opcodes : list Opcode :=
  [OpConstant; OpPop; OpAdd; OpSub; OpMul; OpDiv; OpTrue; OpFalse;
   OpEqual; OpNotEqual; OpGreaterThan; OpBang; OpMinus;
   OpJump; OpJumpNotTrue; OpNull;
   OpSetGlobal; OpGetGlobal; OpSetLocal; OpGetLocal;
   OpGetBuiltin; OpGetFreeVar;
   OpArray; OpHash; OpIndex; OpCall; OpReturnValue; OpReturn;
   OpClosure; OpCurrentClosure].

(** The byte each opcode constant stands for.  The declaration of the
    constants is not among the sources, so the numbering is a parameter:
    all that is used is that opcodes are distinct bytes. *)
Class Numbering : Type := {
  byte_of : Opcode -> Z;
  byte_of_inj : forall a b, byte_of a = byte_of b -> a = b;
  byte_of_range : forall a, 0 <= byte_of a < 256
}.

(** Modelled from the spec: the operand widths of every opcode, in bytes,
    from the opcode table of the bytecode section (package [code] is not
    among the sources). *)
Definition OperandWidths (op : Opcode) : list nat :=
  match op with
  | OpConstant | OpJump | OpJumpNotTrue | OpSetGlobal | OpGetGlobal
  | OpArray | OpHash => [2%nat]
  | OpSetLocal | OpGetLocal | OpGetBuiltin | OpGetFreeVar | OpCall => [1%nat]
  | OpClosure => [2%nat; 1%nat]
  | _ => []
  end.

(** The [width] low bytes of [v], most significant first. *)
Fixpoint big_endian (width : nat) (v : Z) : list Z :=
  match width with
  | O => []
  | S w => big_endian w (v / 256) ++ [v mod 256]
  end.

Fixpoint put_operands (widths : list nat) (operands : list Z) : list Z :=
  match widths with
  | [] => []
  | w :: ws =>
      match operands with
      | [] => big_endian w 0 ++ put_operands ws []
      | o :: os => big_endian w o ++ put_operands ws os
      end
  end.

(** Modelled from the spec: [Make(op, operands...)], the encoder of package
    [code]: the opcode byte followed by each operand, big-endian, in the
    fixed width of the opcode's signature. *)
Definition Make `{Numbering} (op : Opcode) (operands : list Z) : list Z :=
  byte_of op :: put_operands (OperandWidths op) operands.

(** Modelled from the spec: the opcode a byte stands for, as the decoder
    of package [code] looks up the definition of an opcode. *)
Definition Lookup `{Numbering} (b : Z) : option Opcode :=
  find (fun op => Z.eqb (byte_of op) b) all_opcodes.

(** A numbering that follows the order of the opcode table. *)
Definition table_position (op : Opcode) : Z :=
  match op with
  | OpConstant => 0 | OpPop => 1 | OpAdd => 2 | OpSub => 3 | OpMul => 4
  | OpDiv => 5 | OpTrue => 6 | OpFalse => 7 | OpEqual => 8
  | OpNotEqual => 9 | OpGreaterThan => 10 | OpBang => 11 | OpMinus => 12
  | OpJump => 13 | OpJumpNotTrue => 14 | OpNull => 15 | OpSetGlobal => 16
  | OpGetGlobal => 17 | OpSetLocal => 18 | OpGetLocal => 19
  | OpGetBuiltin => 20 | OpGetFreeVar => 21 | OpArray => 22 | OpHash => 23
  | OpIndex => 24 | OpCall => 25 | OpReturnValue => 26 | OpReturn => 27
  | OpClosure => 28 | OpCurrentClosure => 29
  end.

End code.

(** ** Package [object] *)

Module object.

(** Modelled from the spec: one [ObjectType] per variant of the runtime
    values; [Type()] tells them apart. *)
Inductive ObjectType : Set :=
| IntegerType | BooleanType | StringType | NullType | ArrayType | HashType
| CompiledFunctionType | ClosureType | BuiltinType.

#[global] Instance ObjectType_eq_dec : EqDecision ObjectType.
Proof. solve_decision. Defined.

(** Modelled from the spec: the runtime values.  Only [Array] is among the
    sources ([spike/object/array.go]); the other variants are those of the
    data model, with the fields the compiler and the machine use. *)
Inductive Object : Type :=
| Integer (Value : Z)
| Boolean (Value : bool)
| String (Value : string)
| Null
| Array (Elements : list Object)
| Hash (Pairs : list (Object * Object))
| CompiledFunction (Instructions : list Z) (LocalsCount ParametersCount : Z)
| Closure (Fn : Object) (Free : list Object)
| Builtin (Index : Z).

Definition Type_ (o : Object) : ObjectType :=
  match o with
  | Integer _ => IntegerType
  | Boolean _ => BooleanType
  | String _ => StringType
  | Null => NullType
  | Array _ => ArrayType
  | Hash _ => HashType
  | CompiledFunction _ _ _ => CompiledFunctionType
  | Closure _ _ => ClosureType
  | Builtin _ => BuiltinType
  end.

(** The text of each [ObjectType] constant, as [%s] prints it, and the
    names of the built-in functions, in the order of [object.Builtins]:
    both are declared outside the sources at hand and taken as
    parameters. *)
Class Names : Type := {
  type_name : ObjectType -> string;
  Builtins : list string
}.

Definition spike_names : Names :=
  {| type_name := fun t =>
       match t with
       | IntegerType => "INTEGER" | BooleanType => "BOOLEAN"
       | StringType => "STRING" | NullType => "NULL" | ArrayType => "ARRAY"
       | HashType => "HASH" | CompiledFunctionType => "COMPILED_FUNCTION"
       | ClosureType => "CLOSURE" | BuiltinType => "BUILTIN"
       end%string;
     Builtins := ["len"; "first"; "last"; "rest"; "push"; "puts"]%string |}.

End object.

(** ** Package [ast] *)

Module ast.

(** Modelled from the spec: the syntax tree.  Of package [ast] only
    [ExpressionStatement] is among the sources; the other nodes are those of
    the data model, with the fields that [Compile] reads.
    A [*BlockStatement] is the list of its statements, a nil [Else] is
    [None], an [*Identifier] in a parameter list or a [let] is its
    [Value].  The [Pairs] of a hash literal are a Go map keyed by the key
    node itself, so two entries may have keys that print alike: the list
    holds the entries in the order in which [range] enumerates them. *)
Inductive Expression : Type :=
| Identifier (Value : string)
| Integer (Value : Z)
| String (Value : string)
| Boolean (Value : bool)
| PrefixExpression (Operator : string) (Right : Expression)
| InfixExpression (Left : Expression) (Operator : string) (Right : Expression)
| IfExpression (Condition : Expression) (Then : list Statement)
    (Else : option (list Statement))
| FunctionExpression (Parameters : list string) (Body : list Statement)
| CallExpression (Function : Expression) (Arguments : list Expression)
| Array (Elements : list Expression)
| Hash (Pairs : list (Expression * Expression))
| IndexExpression (Array : Expression) (Index : Expression)
with Statement : Type :=
| LetStatement (Name : string) (Value : Expression)
| ReturnStatement (Result : Expression)
| ExpressionStatement (Expression : Expression)
| BlockStatement (Statements : list Statement).

(** The dynamic types [Compile] switches on. *)
Inductive Node : Type :=
| Program (Statements : list Statement)
| Stmt (statement : Statement)
| Expr (expression : Expression).

(** [String()], the textual form of an expression: the printer is outside
    the sources at hand and taken as a parameter. *)
Class Printer : Type := { String_ : Expression -> string }.

End ast.

(** ** The symbol table of package [compiler] *)

Module symbols.

(** Modelled from the spec: the scopes of a symbol and the symbol itself,
    with the field names [Compile] reads.  No code under the sources at hand
    defines a symbol of scope [Function]. *)
Inductive Scope : Set :=
| GlobalScope | LocalScope | FreeScope | BuiltinScope | FunctionScope.

#[global] Instance Scope_eq_dec : EqDecision Scope.
Proof. solve_decision. Defined.

Record Symbol : Type := {
  Name : string;
  SymbolScope : Scope;
  Index : Z
}.

#[global] Instance Symbol_eq_dec : EqDecision Symbol.
Proof. solve_decision. Defined.

(** Modelled from the spec: the symbol table (its file is not among the
    sources): a node with an optional outer table, a mapping from name to
    symbol, a definition counter and the ordered list of captured free
    symbols.  A [*SymbolTable] reachable only through the compiler is the
    value itself; [Outer] is the enclosing table. *)
Inductive SymbolTable : Type := Build_SymbolTable {
  Outer : option SymbolTable;
  store : gmap string Symbol;
  numDefinitions : Z;
  FreeSymbols : list Symbol
}.

(** Modelled from the spec: [NewSymbolTable] and
    [NewEnclosedSymbolTable]. *)
Definition NewSymbolTable : SymbolTable :=
  {| Outer := None; store := ∅; numDefinitions := 0; FreeSymbols := [] |}.

Definition NewEnclosedSymbolTable (outer : option SymbolTable) : SymbolTable :=
  {| Outer := outer; store := ∅; numDefinitions := 0; FreeSymbols := [] |}.

(** Modelled from the spec: [Define] assigns the next local index; the
    scope is [Global] in the outermost table and [Local] elsewhere; the
    definition is recorded and the counter incremented. *)
Definition Define (name : string) (t : SymbolTable) : Symbol * SymbolTable :=
  let symbol :=
    {| Name := name;
       SymbolScope := match Outer t with
                      | None => GlobalScope
                      | Some _ => LocalScope
                      end;
       Index := numDefinitions t |} in
  (symbol,
   {| Outer := Outer t;
      store := <[name := symbol]> (store t);
      numDefinitions := numDefinitions t + 1;
      FreeSymbols := FreeSymbols t |}).

(** Modelled from the spec: [DefineBuiltin], scope [Builtin], index [i];
    the counter is left alone. *)
Definition DefineBuiltin (i : Z) (name : string) (t : SymbolTable)
  : Symbol * SymbolTable :=
  let symbol := {| Name := name; SymbolScope := BuiltinScope; Index := i |} in
  (symbol,
   {| Outer := Outer t;
      store := <[name := symbol]> (store t);
      numDefinitions := numDefinitions t;
      FreeSymbols := FreeSymbols t |}).

(** Modelled from the spec: the promotion of a symbol of an enclosing table
    to a free symbol of the current table: the original is appended to the
    captured list, the promoted symbol has scope [Free] and that position
    as its index, and is the table's entry for the name from then on. *)
Definition defineFree (original : Symbol) (outer : option SymbolTable)
    (st : gmap string Symbol) (n : Z) (free : list Symbol)
  : Symbol * SymbolTable :=
  let symbol :=
    {| Name := Name original; SymbolScope := FreeScope; Index := len free |} in
  (symbol,
   {| Outer := outer;
      store := <[Name original := symbol]> st;
      numDefinitions := n;
      FreeSymbols := free ++ [original] |}).

(** Modelled from the spec: [Resolve] searches the current table; if the
    name is absent and there is an outer table it resolves there; a
    [Global] or [Builtin] result is returned unchanged, any other is
    promoted to a free symbol of the current table.  The outer tables are
    shared and mutated through the chain, so the table comes back with the
    result. *)
Fixpoint Resolve (name : string) (t : SymbolTable)
  : option Symbol * SymbolTable :=
  match t with
  | Build_SymbolTable outer st n free =>
      match st !! name with
      | Some symbol => (Some symbol, t)
      | None =>
          match outer with
          | None => (None, t)
          | Some o =>
              match Resolve name o with
              | (None, o') => (None, Build_SymbolTable (Some o') st n free)
              | (Some symbol, o') =>
                  match SymbolScope symbol with
                  | GlobalScope | BuiltinScope =>
                      (Some symbol, Build_SymbolTable (Some o') st n free)
                  | _ =>
                      let '(free_symbol, t') :=
                        defineFree symbol (Some o') st n free in
                      (Some free_symbol, t')
                  end
              end
          end
      end
  end.

End symbols.

(** ** [sort.Slice] *)

Module sort.

Section Slice.
Context {A : Type} (less : A -> A -> bool).

(** One round of the inner loop of Go's insertion sort,
    [for j := i; j > a && less(j, j-1); j-- { swap(j, j-1) }]: the new
    element sinks into the sorted prefix, which is held here with its
    last element first. *)
Fixpoint sink (x : A) (prefix_rev : list A) : list A :=
  match prefix_rev with
  | [] => [x]
  | y :: r => if less x y then y :: sink x r else x :: y :: r
  end.

(** [sort.Slice(l, less)] as insertion sort, which is what the library
    runs on slices of at most twelve elements.  Longer slices go through
    a quicksort variant; like insertion sort it returns a permutation
    that is ordered by [less], in an order among ties that depends on
    the order of the input. *)
Definition Slice (l : list A) : list A :=
  rev (fold_left (fun prefix_rev x => sink x prefix_rev) l []).
End Slice.

End sort.

(** ** Package [compiler]: the compiler with compilation scopes *)

Module compiler.
Import code symbols.

Record EmittedInstruction : Type := {
  Opcode : Z;
  Position : Z
}.

Record CompilationScope : Type := {
  instructions : list Z;
  lastInstruction : EmittedInstruction;
  previousInstruction : EmittedInstruction
}.

(** [symbolTable] is a pointer: [None] is nil. *)
Record Compiler : Type := {
  constants : list object.Object;
  symbolTable : option SymbolTable;
  scopes : list CompilationScope;
  scopeIndex : Z
}.

Record Bytecode : Type := {
  Instructions : list Z;
  Constants : list object.Object
}.

(** The zero value [EmittedInstruction{}]. *)
Definition noInstruction : EmittedInstruction :=
  {| Opcode := 0; Position := 0 |}.

Definition emptyScope : CompilationScope :=
  {| instructions := [];
     lastInstruction := noInstruction;
     previousInstruction := noInstruction |}.

Section Compiler.
Context `{Numbering} `{object.Names} `{ast.Printer}.

(** [compiler.scopes[compiler.scopeIndex]], read and written. *)
Definition currentScope : M Compiler CompilationScope :=
  fun c =>
    match index (scopes c) (scopeIndex c) with
    | Some scope => Ok scope c
    | None => Panic
    end.

Definition setCurrentScope (scope : CompilationScope) : M Compiler unit :=
  fun c =>
    match assign (scopes c) (scopeIndex c) scope with
    | Some scopes' =>
        Ok tt {| constants := constants c;
                 symbolTable := symbolTable c;
                 scopes := scopes';
                 scopeIndex := scopeIndex c |}
    | None => Panic
    end.

(** [len(compiler.scopes[compiler.scopeIndex].instructions)]. *)
Definition currentLength : M Compiler Z :=
  let* scope := currentScope in ret (len (instructions scope)).

Definition addConstant (obj : object.Object) : M Compiler Z :=
  fun c =>
    let constants' := constants c ++ [obj] in
    Ok (len constants' - 1)
       {| constants := constants';
          symbolTable := symbolTable c;
          scopes := scopes c;
          scopeIndex := scopeIndex c |}.

Definition emit (opcode : code.Opcode) (operands : list Z) : M Compiler Z :=
  let instruction := Make opcode operands in
  let* scope := currentScope in
  let newInstructionIndex := len (instructions scope) in
  setCurrentScope
    {| instructions := instructions scope ++ instruction;
       previousInstruction := lastInstruction scope;
       lastInstruction :=
         {| Opcode := byte_of opcode; Position := newInstructionIndex |} |} ;;;
  ret newInstructionIndex.

(** [emit] where the caller drops the returned position. *)
Definition emit_ (opcode : code.Opcode) (operands : list Z) : M Compiler unit :=
  emit opcode operands ;;; ret tt.

(** [instructions[:position]] panics here when the position is beyond the
    length of the slice; Go would re-slice up to the capacity. *)
Definition removeLastInstruction : M Compiler unit :=
  let* scope := currentScope in
  match slice_to (instructions scope) (Position (lastInstruction scope)) with
  | Some instructions' =>
      setCurrentScope
        {| instructions := instructions';
           lastInstruction := previousInstruction scope;
           previousInstruction := previousInstruction scope |}
  | None => panic
  end.

(** The loop of [replaceInstruction] over a slice. *)
Fixpoint overwrite (l : list Z) (pos : Z) (instruction : list Z)
  : option (list Z) :=
  match instruction with
  | [] => Some l
  | b :: rest =>
      match assign l pos b with
      | Some l' => overwrite l' (pos + 1) rest
      | None => None
      end
  end.

Definition replaceInstruction (instructionIndex : Z) (instruction : list Z)
  : M Compiler unit :=
  let* scope := currentScope in
  match overwrite (instructions scope) instructionIndex instruction with
  | Some instructions' =>
      setCurrentScope
        {| instructions := instructions';
           lastInstruction := lastInstruction scope;
           previousInstruction := previousInstruction scope |}
  | None => panic
  end.

(** [code.Make] applied to an opcode read back from the instructions; for
    a byte that is no opcode [Make] fails, and [changeOperand] drops the
    error and goes on with no bytes. *)
Definition changeOperand (instructionIndex operand : Z) : M Compiler unit :=
  let* scope := currentScope in
  match index (instructions scope) instructionIndex with
  | Some opcode =>
      let newInstruction :=
        match Lookup opcode with
        | Some op => Make op [operand]
        | None => []
        end in
      replaceInstruction instructionIndex newInstruction
  | None => panic
  end.

Definition lastInstructionIs (op : code.Opcode) : M Compiler bool :=
  let* scope := currentScope in
  ret (Z.eqb (Opcode (lastInstruction scope)) (byte_of op)).

Definition replaceLastPopWithReturn : M Compiler unit :=
  let* scope := currentScope in
  let lastPosition := Position (lastInstruction scope) in
  let returnInstruction := Make OpReturnValue [] in
  replaceInstruction lastPosition returnInstruction ;;;
  let* scope := currentScope in
  setCurrentScope
    {| instructions := instructions scope;
       lastInstruction :=
         {| Opcode := byte_of OpReturnValue;
            Position := Position (lastInstruction scope) |};
       previousInstruction := previousInstruction scope |}.

Definition enterScope : M Compiler unit :=
  fun c =>
    Ok tt {| constants := constants c;
             symbolTable := Some (NewEnclosedSymbolTable (symbolTable c));
             scopes := scopes c ++ [emptyScope];
             scopeIndex := scopeIndex c + 1 |}.

Definition leaveScope : M Compiler (list Z) :=
  fun c =>
    match symbolTable c with
    | None => Panic
    | Some table =>
        match index (scopes c) (scopeIndex c) with
        | None => Panic
        | Some scope =>
            match slice_to (scopes c) (len (scopes c) - 1) with
            | None => Panic
            | Some scopes' =>
                Ok (instructions scope)
                   {| constants := constants c;
                      symbolTable := Outer table;
                      scopes := scopes';
                      scopeIndex := scopeIndex c - 1 |}
            end
        end
    end.

(** The methods of [compiler.symbolTable]; a nil table panics. *)
Definition withTable {A} (f : SymbolTable -> A * SymbolTable) : M Compiler A :=
  fun c =>
    match symbolTable c with
    | None => Panic
    | Some table =>
        let '(a, table') := f table in
        Ok a {| constants := constants c;
                symbolTable := Some table';
                scopes := scopes c;
                scopeIndex := scopeIndex c |}
    end.

Definition loadSymbol (symbol : Symbol) : M Compiler unit :=
  match SymbolScope symbol with
  | GlobalScope => emit_ OpGetGlobal [Index symbol]
  | BuiltinScope => emit_ OpGetBuiltin [Index symbol]
  | FreeScope => emit_ OpGetFreeVar [Index symbol]
  | _ => emit_ OpGetLocal [Index symbol]
  end.

(** The opcode of the [switch node.Operator] of an infix expression. *)
Definition infixOpcode (operator : string) : option code.Opcode :=
  if String.eqb operator "+" then Some OpAdd
  else if String.eqb operator "-" then Some OpSub
  else if String.eqb operator "*" then Some OpMul
  else if String.eqb operator "/" then Some OpDiv
  else if String.eqb operator "==" then Some OpEqual
  else if String.eqb operator "!=" then Some OpNotEqual
  else if String.eqb operator ">" then Some OpGreaterThan
  else None.

Definition prefixOpcode (operator : string) : option code.Opcode :=
  if String.eqb operator "!" then Some OpBang
  else if String.eqb operator "-" then Some OpMinus
  else None.

(** [if compiler.lastInstructionIs(code.OpPop) {
      compiler.removeLastInstruction() }]. *)
Definition removeLastPop : M Compiler unit :=
  let* isPop := lastInstructionIs OpPop in
  if isPop : bool then removeLastInstruction else ret tt.

(** The keys of a hash literal with what [Compile] does for each,
    ordered as [sort.Slice] orders the keys by their text. *)
Definition sortKeys (entries : list (string * M Compiler unit))
  : list (string * M Compiler unit) :=
  sort.Slice (fun x y => String.ltb (fst x) (fst y)) entries.

(** [Compile], one function per family of nodes; the cases follow the
    type switch of the source. *)
Fixpoint Compile_expression (e : ast.Expression) : M Compiler unit :=
  match e with
  | ast.InfixExpression lhs operator rhs =>
      if String.eqb operator "<" then
        Compile_expression rhs ;;;
        Compile_expression lhs ;;;
        emit_ OpGreaterThan []
      else
        Compile_expression lhs ;;;
        Compile_expression rhs ;;;
        match infixOpcode operator with
        | Some op => emit_ op []
        | None => fail ("unknown operator: " +:+ operator)
        end
  | ast.PrefixExpression operator rhs =>
      Compile_expression rhs ;;;
      match prefixOpcode operator with
      | Some op => emit_ op []
      | None => fail ("invalid prefix operator: " +:+ operator)
      end
  | ast.Integer value =>
      let* i := addConstant (object.Integer value) in
      emit_ OpConstant [i]
  | ast.String value =>
      let* i := addConstant (object.String value) in
      emit_ OpConstant [i]
  | ast.Boolean value =>
      if value then emit_ OpTrue [] else emit_ OpFalse []
  | ast.IfExpression condition thenBlock elseBlock =>
      Compile_expression condition ;;;
      let* jumpNotTrueIndex := emit OpJumpNotTrue [-1] in
      forEach Compile_statement thenBlock ;;;
      removeLastPop ;;;
      match elseBlock with
      | None =>
          let* jumpIndex := emit OpJump [-1] in
          let* afterJumpIndex := currentLength in
          emit_ OpNull [] ;;;
          let* afterNullIndex := currentLength in
          changeOperand jumpIndex afterNullIndex ;;;
          changeOperand jumpNotTrueIndex afterJumpIndex
      | Some elseStatements =>
          let* jumpIndex := emit OpJump [-1] in
          let* afterThenIndex := currentLength in
          changeOperand jumpNotTrueIndex afterThenIndex ;;;
          forEach Compile_statement elseStatements ;;;
          removeLastPop ;;;
          let* afterElseIndex := currentLength in
          changeOperand jumpIndex afterElseIndex
      end
  | ast.Identifier value =>
      let* resolved := withTable (Resolve value) in
      match resolved with
      | None => fail ("unable to resolve identifier: " +:+ value)
      | Some symbol => loadSymbol symbol
      end
  | ast.Array elements =>
      forEach Compile_expression elements ;;;
      emit_ OpArray [len elements]
  | ast.Hash pairs =>
      let entries :=
        (fix entries (l : list (ast.Expression * ast.Expression))
           : list (string * M Compiler unit) :=
           match l with
           | [] => []
           | (key, value) :: l' =>
               (ast.String_ key,
                Compile_expression key ;;; Compile_expression value)
               :: entries l'
           end) pairs in
      forEach snd (sortKeys entries) ;;;
      emit_ OpHash [len pairs * 2]
  | ast.IndexExpression array idx =>
      Compile_expression array ;;;
      Compile_expression idx ;;;
      emit_ OpIndex []
  | ast.FunctionExpression parameters body =>
      enterScope ;;;
      forEach (fun parameter => withTable (Define parameter) ;;; ret tt)
        parameters ;;;
      forEach Compile_statement body ;;;
      let* isPop := lastInstructionIs OpPop in
      (if isPop : bool then replaceLastPopWithReturn else ret tt) ;;;
      let* isReturnValue := lastInstructionIs OpReturnValue in
      (if isReturnValue : bool then ret tt else emit_ OpReturn []) ;;;
      let* freeSymbols := withTable (fun t => (FreeSymbols t, t)) in
      let* localCount := withTable (fun t => (numDefinitions t, t)) in
      let* instructions := leaveScope in
      forEach loadSymbol freeSymbols ;;;
      let compiledFunction :=
        object.CompiledFunction instructions localCount (len parameters) in
      let* i := addConstant compiledFunction in
      emit_ OpClosure [i; len freeSymbols]
  | ast.CallExpression function arguments =>
      Compile_expression function ;;;
      forEach Compile_expression arguments ;;;
      emit_ OpCall [len arguments]
  end
with Compile_statement (s : ast.Statement) : M Compiler unit :=
  match s with
  | ast.ExpressionStatement expression =>
      Compile_expression expression ;;;
      emit_ OpPop []
  | ast.BlockStatement statements =>
      forEach Compile_statement statements
  | ast.LetStatement name value =>
      let* symbol := withTable (Define name) in
      Compile_expression value ;;;
      if decide (SymbolScope symbol = GlobalScope)
      then emit_ OpSetGlobal [Index symbol]
      else emit_ OpSetLocal [Index symbol]
  | ast.ReturnStatement result =>
      Compile_expression result ;;;
      emit_ OpReturnValue []
  end.

Definition Compile (node : ast.Node) : M Compiler unit :=
  match node with
  | ast.Program statements => forEach Compile_statement statements
  | ast.Stmt statement => Compile_statement statement
  | ast.Expr expression => Compile_expression expression
  end.

(** [for i, builtin := range object.Builtins {
      symbolTable.DefineBuiltin(i, builtin.Name) }]. *)
Fixpoint defineBuiltins (i : Z) (names : list string) (t : SymbolTable)
  : SymbolTable :=
  match names with
  | [] => t
  | name :: rest => defineBuiltins (i + 1) rest (snd (DefineBuiltin i name t))
  end.

Definition New : Compiler :=
  {| constants := [];
     symbolTable := Some (defineBuiltins 0 object.Builtins NewSymbolTable);
     scopes := [emptyScope];
     scopeIndex := 0 |}.

Definition NewWithState (table : option SymbolTable)
    (constants : list object.Object) : Compiler :=
  {| constants := constants;
     symbolTable := table;
     scopes := scopes New;
     scopeIndex := scopeIndex New |}.

Definition GetBytecode : M Compiler Bytecode :=
  let* scope := currentScope in
  let* c := get in
  ret {| Instructions := instructions scope; Constants := constants c |}.

End Compiler.

End compiler.

(** ** The compiler of [spike/compiler/compiler.go] *)

Module flat_compiler.
Import code.

Record Compiler : Type := {
  instructions : list Z;
  constants : list object.Object
}.

Record Bytecode : Type := {
  Instructions : list Z;
  Constants : list object.Object
}.

Definition New : Compiler := {| instructions := []; constants := [] |}.

Section Compiler.
Context `{Numbering}.

Definition addConstant (obj : object.Object) : M Compiler Z :=
  fun c =>
    let constants' := constants c ++ [obj] in
    Ok (len constants' - 1)
       {| instructions := instructions c; constants := constants' |}.

Definition emit (opcode : code.Opcode) (operands : list Z) : M Compiler Z :=
  fun c =>
    let instruction := Make opcode operands in
    let newInstructionIndex := len (instructions c) in
    Ok newInstructionIndex
       {| instructions := instructions c ++ instruction;
          constants := constants c |}.

(** The type switch has four cases; every other node falls through to
    [return nil]. *)
Fixpoint Compile_expression (e : ast.Expression) : M Compiler unit :=
  match e with
  | ast.InfixExpression lhs _ rhs =>
      Compile_expression lhs ;;; Compile_expression rhs
  | ast.Integer value =>
      let* i := addConstant (object.Integer value) in
      emit OpConstant [i] ;;; ret tt
  | _ => ret tt
  end.

Definition Compile_statement (s : ast.Statement) : M Compiler unit :=
  match s with
  | ast.ExpressionStatement expression => Compile_expression expression
  | _ => ret tt
  end.

Definition Compile (node : ast.Node) : M Compiler unit :=
  match node with
  | ast.Program statements => forEach Compile_statement statements
  | ast.Stmt statement => Compile_statement statement
  | ast.Expr expression => Compile_expression expression
  end.

Definition GetBytecode (c : Compiler) : Bytecode :=
  {| Instructions := instructions c; Constants := constants c |}.
End Compiler.

End flat_compiler.

(** ** Package [vm] *)

Module vm.
Import code object.

Definition StackSize : Z := 2048.

(** The singletons [True] and [False]. *)
Definition True_ : Object := Boolean true.
Definition False_ : Object := Boolean false.

(** A slot of [stack] holds an [object.Object] interface value: [None] is
    nil. *)
Record VM : Type := {
  constants : list Object;
  instructions : list Z;
  stack : list (option Object);
  sp : Z
}.

(** [New(bytecode)], given the two fields of the bytecode. *)
Definition New (instructions : list Z) (constants : list Object) : VM :=
  {| constants := constants;
     instructions := instructions;
     stack := replicate (Z.to_nat StackSize) None;
     sp := 0 |}.

Definition set_stack (vm : VM) (stack' : list (option Object)) (sp' : Z) : VM :=
  {| constants := constants vm;
     instructions := instructions vm;
     stack := stack';
     sp := sp' |}.

Definition nativeBoolToBoolean (nativeBool : bool) : Object :=
  if nativeBool then True_ else False_.

(** [binary.BigEndian.Uint16(b)]: the first two bytes of [b], or a panic
    when [b] is shorter. *)
Definition Uint16 (b : list Z) : option Z :=
  match b with
  | b0 :: b1 :: _ => Some (b0 * 256 + b1)
  | _ => None
  end.

Section VM.
Context `{Numbering} `{Names}.

Definition push (o : Object) : M VM unit :=
  fun vm =>
    if sp vm >=? StackSize then Err "stack overflow" vm
    else
      match assign (stack vm) (sp vm) (Some o) with
      | Some stack' => Ok tt (set_stack vm stack' (sp vm + 1))
      | None => Panic
      end.

Definition pop : M VM (option Object) :=
  fun vm =>
    match index (stack vm) (sp vm - 1) with
    | Some result => Ok result (set_stack vm (stack vm) (sp vm - 1))
    | None => Panic
    end.

(** The type assertion of [x] to an [*object.Integer] and the read of its
    [Value], panicking on any other value. *)
Definition asInteger (x : option Object) : M VM Z :=
  match x with
  | Some (Integer value) => ret value
  | _ => panic
  end.

Definition asBoolean (x : option Object) : M VM bool :=
  match x with
  | Some (Boolean value) => ret value
  | _ => panic
  end.

(** [x.Type()], panicking on a nil interface. *)
Definition typeOf (x : option Object) : M VM ObjectType :=
  match x with
  | Some o => ret (Type_ o)
  | None => panic
  end.

Definition executeBinaryIntegerOperation (opcode : Z) : M VM unit :=
  let* right := pop in
  let* left := pop in
  let* leftValue := asInteger left in
  let* rightValue := asInteger right in
  if opcode =? byte_of OpAdd then
    push (Integer (wrap64 (leftValue + rightValue)))
  else if opcode =? byte_of OpSub then
    push (Integer (wrap64 (leftValue - rightValue)))
  else if opcode =? byte_of OpMul then
    push (Integer (wrap64 (leftValue * rightValue)))
  else if opcode =? byte_of OpDiv then
    if rightValue =? 0 then panic
    else push (Integer (wrap64 (Z.quot leftValue rightValue)))
  else push (Integer 0).

Definition executeIntegerComparison (left right : option Object) (op : Z)
  : M VM unit :=
  let* leftInt := asInteger left in
  let* rightInt := asInteger right in
  if op =? byte_of OpEqual then
    push (nativeBoolToBoolean (leftInt =? rightInt))
  else if op =? byte_of OpNotEqual then
    push (nativeBoolToBoolean (negb (leftInt =? rightInt)))
  else if op =? byte_of OpGreaterThan then
    push (nativeBoolToBoolean (leftInt >? rightInt))
  else fail ("unexpected operation: " +:+ decimal op).

Definition executeBooleanComparison (left right : option Object) (op : Z)
  : M VM unit :=
  let* leftBool := asBoolean left in
  let* rightBool := asBoolean right in
  if op =? byte_of OpEqual then
    push (nativeBoolToBoolean (Bool.eqb leftBool rightBool))
  else if op =? byte_of OpNotEqual then
    push (nativeBoolToBoolean (negb (Bool.eqb leftBool rightBool)))
  else fail ("unexpected operation: " +:+ decimal op).

Definition executeComparison (op : Z) : M VM unit :=
  let* right := pop in
  let* left := pop in
  let* rightType := typeOf right in
  let* leftType := typeOf left in
  if negb (bool_decide (rightType = leftType)) then
    fail ("both operands must have same type, had: "
          +:+ type_name leftType +:+ " and " +:+ type_name rightType)
  else if bool_decide (rightType = IntegerType) then
    executeIntegerComparison left right op
  else if bool_decide (rightType = BooleanType) then
    executeBooleanComparison left right op
  else
    fail ("unable to compare variables of type "
          +:+ type_name leftType +:+ " and " +:+ type_name rightType).

(** One turn of the loop of [Run], from the read of the opcode at [ip] to
    the end of the [switch]; the result is [ip] as the [switch] leaves
    it, before the [ip++] of the loop. *)
Definition dispatch (ip : Z) : M VM Z :=
  fun vm =>
    match index (instructions vm) ip with
    | None => Panic
    | Some op =>
        if op =? byte_of OpConstant then
          match Uint16 (drop (Z.to_nat (ip + 1)) (instructions vm)) with
          | None => Panic
          | Some i =>
              match index (constants vm) i with
              | None => Panic
              | Some constant => (push constant ;;; ret (ip + 2)) vm
              end
          end
        else if (op =? byte_of OpAdd) || (op =? byte_of OpSub)
                || (op =? byte_of OpMul) || (op =? byte_of OpDiv) then
          (executeBinaryIntegerOperation op ;;; ret ip) vm
        else if (op =? byte_of OpEqual) || (op =? byte_of OpNotEqual)
                || (op =? byte_of OpGreaterThan) then
          (executeComparison op ;;; ret ip) vm
        else if op =? byte_of OpTrue then (push True_ ;;; ret ip) vm
        else if op =? byte_of OpFalse then (push False_ ;;; ret ip) vm
        else if op =? byte_of OpPop then (pop ;;; ret ip) vm
        else Ok ip vm
    end.

(** [for ip := 0; ip < len(vm.instructions); ip++ { ... }], started at
    any [ip].  Every turn moves [ip] forward, so a fuel of
    [len(vm.instructions)] turns is enough (see [Run_total]); [None] is a
    loop cut short by the fuel. *)
Fixpoint loop (fuel : nat) (ip : Z) (vm : VM) : option (Result VM unit) :=
  if ip <? len (instructions vm) then
    match fuel with
    | O => None
    | S fuel' =>
        match dispatch ip vm with
        | Ok ip' vm' => loop fuel' (ip' + 1) vm'
        | Err msg vm' => Some (Err msg vm')
        | Panic => Some Panic
        end
    end
  else Some (Ok tt vm).

Definition Run (vm : VM) : option (Result VM unit) :=
  loop (length (instructions vm)) 0 vm.

(** [vm.stack[vm.sp]]: [None] is the panic of an index out of range,
    [Some None] a nil slot. *)
Definition LastPoppedStackElement (vm : VM) : option (option Object) :=
  index (stack vm) (sp vm).

End VM.

End vm.

(** ** [spike/object/array.go]: the methods of [Array] *)

Module array.
Import object.

Section Array.
(** [Inspect] and [Equal] are methods of the [Object] interface; those of
    the variants other than [Array] are outside the sources at hand and
    taken as parameters. *)
Context (Inspect_other : Object -> string)
        (Equal_other : Object -> Object -> bool).

(** [Inspect()]; a call on an element dispatches on the element. *)
Fixpoint Inspect (o : Object) : string :=
  match o with
  | Array elements =>
      "[" +:+
      (fix each (i : Z) (l : list Object) : string :=
         match l with
         | [] => ""
         | element :: l' =>
             Inspect element +:+
             (if i <? len elements - 1 then ", " else "") +:+
             each (i + 1) l'
         end) 0 elements +:+
      "]"
  | _ => Inspect_other o
  end.

(** [Equal(other)]; [None] is the panic of [otherArray.Elements[i]] out of
    range. *)
Fixpoint Equal (o other : Object) {struct o} : option bool :=
  match o with
  | Array elements =>
      match other with
      | Array otherElements =>
          if negb (len elements =? len otherElements) then Some false
          else
            (fix each (i : Z) (l : list Object) : option bool :=
               match l with
               | [] => Some true
               | element :: l' =>
                   match index otherElements i with
                   | None => None
                   | Some otherElement =>
                       match Equal element otherElement with
                       | None => None
                       | Some false => Some false
                       | Some true => each (i + 1) l'
                       end
                   end
               end) 0 elements
      | _ => Some false
      end
  | _ => Some (Equal_other o other)
  end.

End Array.

End array.

(** ** A concrete numbering and concrete names

    Used to run the model on examples; every theorem below that does not
    mention them holds for any numbering, any type names and any printer. *)

Lemma table_position_inj a b :
  code.table_position a = code.table_position b -> a = b.
Proof. destruct a, b; simpl; intros E; try reflexivity; discriminate E. Qed.

Lemma table_position_range a : 0 <= code.table_position a < 256.
Proof. destruct a; simpl; lia. Qed.

Definition table_order : code.Numbering :=
  {| code.byte_of := code.table_position;
     code.byte_of_inj := table_position_inj;
     code.byte_of_range := table_position_range |}.

(** A printer for literals and identifiers, enough for the examples. *)
Definition literal_printer : ast.Printer :=
  {| ast.String_ := fun e =>
       match e with
       | ast.Integer v => decimal v
       | ast.Identifier name => name
       | ast.String v => v
       | ast.Boolean true => "true"
       | ast.Boolean false => "false"
       | _ => "?"
       end%string |}.

(** * Properties *)

(** ** The result monad *)

Section Monad.
Context {S : Type}.

Lemma bind_Ok {A B} (m : M S A) (k : A -> M S B) s b s' :
  bind m k s = Ok b s' ->
  exists a s1, m s = Ok a s1 /\ k a s1 = Ok b s'.
Proof.
  unfold bind. destruct (m s) as [a s1| |]; intros E; try discriminate E.
  eauto.
Qed.

Lemma bind_Ok_intro {A B} (m : M S A) (k : A -> M S B) s a s1 :
  m s = Ok a s1 -> bind m k s = k a s1.
Proof. unfold bind. intros ->. reflexivity. Qed.

End Monad.

(** Splits a hypothesis [(let* x := m in k) s = Ok b s'] into its steps. *)
Tactic Notation "bind_inv" hyp(H) "as" ident(a) ident(s) ident(H1) :=
  apply bind_Ok in H; destruct H as (a & s & H1 & H).

Ltac ret_inv H :=
  first [ injection H as <- <- | injection H as -> <- | injection H as <- -> | injection H as -> -> | injection H as <- ].

(** ** Slices *)

Section Slices.
Context {A : Type}.
Implicit Types l : list A.

Lemma index_Some l i x :
  index l i = Some x <-> 0 <= i /\ l !! Z.to_nat i = Some x.
Proof.
  unfold index. destruct (Z.ltb_spec i 0); split.
  - discriminate.
  - intros [? _]. lia.
  - auto.
  - intros [_ ?]. assumption.
Qed.

Lemma index_lt l i x : index l i = Some x -> 0 <= i < len l.
Proof.
  intros [Hi Hl]%index_Some. apply lookup_lt_Some in Hl. unfold len. lia.
Qed.

Lemma index_is_Some l i : 0 <= i < len l -> is_Some (index l i).
Proof.
  unfold len, index. intros Hi. destruct (Z.ltb_spec i 0); [lia|].
  apply lookup_lt_is_Some. lia.
Qed.

Lemma index_app_l l1 l2 i : i < len l1 -> index (l1 ++ l2) i = index l1 i.
Proof.
  unfold index, len. intros Hi. destruct (Z.ltb_spec i 0); [reflexivity|].
  apply lookup_app_l. lia.
Qed.

Lemma index_app_r l1 l2 i :
  len l1 <= i -> index (l1 ++ l2) i = index l2 (i - len l1).
Proof.
  unfold index, len. intros Hi.
  destruct (Z.ltb_spec i 0), (Z.ltb_spec (i - Z.of_nat (length l1)) 0);
    try lia.
  rewrite lookup_app_r by lia. f_equal. lia.
Qed.

Lemma len_app l1 l2 : len (l1 ++ l2) = len l1 + len l2.
Proof. unfold len. rewrite length_app. lia. Qed.

Lemma len_nonneg l : 0 <= len l.
Proof. unfold len. lia. Qed.

Lemma assign_Some l i x l' :
  assign l i x = Some l' <->
  0 <= i < len l /\ l' = <[Z.to_nat i := x]> l.
Proof.
  unfold assign.
  destruct (Z.leb_spec 0 i), (Z.ltb_spec i (len l)); simpl; split;
    try discriminate; try (intros [? _]; lia).
  - intros [= <-]. auto.
  - intros [_ ->]. reflexivity.
Qed.

Lemma assign_index l i x l' :
  assign l i x = Some l' -> index l' i = Some x.
Proof.
  intros [Hi ->]%assign_Some. apply index_Some. split; [lia|].
  apply list_lookup_insert_eq. unfold len in Hi. lia.
Qed.

Lemma assign_len l i x l' : assign l i x = Some l' -> len l' = len l.
Proof.
  intros [_ ->]%assign_Some. unfold len. rewrite length_insert. reflexivity.
Qed.

Lemma assign_index_ne l i j x l' :
  assign l i x = Some l' -> i <> j -> index l' j = index l j.
Proof.
  intros [Hi ->]%assign_Some Hne. unfold index.
  destruct (Z.ltb_spec j 0); [reflexivity|].
  apply list_lookup_insert_ne. lia.
Qed.

Lemma slice_to_Some l n l' :
  slice_to l n = Some l' <-> 0 <= n <= len l /\ l' = take (Z.to_nat n) l.
Proof.
  unfold slice_to.
  destruct (Z.leb_spec 0 n), (Z.leb_spec n (len l)); simpl; split;
    try discriminate; try (intros [? _]; lia).
  - intros [= <-]. auto.
  - intros [_ ->]. reflexivity.
Qed.
End Slices.

(** ** Induction over the syntax tree *)

Section AstInduction.
Import ast.
Variables (P : Expression -> Prop) (Q : Statement -> Prop).
Hypotheses
  (HIdentifier : forall v, P (Identifier v))
  (HInteger : forall v, P (Integer v))
  (HString : forall v, P (String v))
  (HBoolean : forall v, P (Boolean v))
  (HPrefix : forall op r, P r -> P (PrefixExpression op r))
  (HInfix : forall l op r, P l -> P r -> P (InfixExpression l op r))
  (HIf : forall c t e, P c -> Forall Q t ->
                       match e with
                       | Some l => Forall Q l
                       | None => Logic.True
                       end ->
                       P (IfExpression c t e))
  (HFunction : forall ps b, Forall Q b -> P (FunctionExpression ps b))
  (HCall : forall f args, P f -> Forall P args -> P (CallExpression f args))
  (HArray : forall els, Forall P els -> P (Array els))
  (HHash : forall pairs,
      Forall (fun kv => P (fst kv) /\ P (snd kv)) pairs -> P (Hash pairs))
  (HIndex : forall a i, P a -> P i -> P (IndexExpression a i))
  (HLet : forall n v, P v -> Q (LetStatement n v))
  (HReturn : forall r, P r -> Q (ReturnStatement r))
  (HExpression : forall e, P e -> Q (ExpressionStatement e))
  (HBlock : forall l, Forall Q l -> Q (BlockStatement l)).

Fixpoint Expression_all (e : Expression) : P e :=
  let all_expressions :=
    fix go (l : list Expression) : Forall P l :=
      match l with
      | [] => @List.Forall_nil _ _
      | x :: l' => @List.Forall_cons _ _ x l' (Expression_all x) (go l')
      end in
  let all_statements :=
    fix go (l : list Statement) : Forall Q l :=
      match l with
      | [] => @List.Forall_nil _ _
      | x :: l' => @List.Forall_cons _ _ x l' (Statement_all x) (go l')
      end in
  match e with
  | Identifier v => HIdentifier v
  | Integer v => HInteger v
  | String v => HString v
  | Boolean v => HBoolean v
  | PrefixExpression op r => HPrefix op r (Expression_all r)
  | InfixExpression l op r =>
      HInfix l op r (Expression_all l) (Expression_all r)
  | IfExpression c t e =>
      HIf c t e (Expression_all c) (all_statements t)
        (match e as e0
               return match e0 with
                      | Some l => Forall Q l
                      | None => Logic.True
                      end
         with
         | Some l0 => all_statements l0
         | None => I
         end)
  | FunctionExpression ps b => HFunction ps b (all_statements b)
  | CallExpression f args =>
      HCall f args (Expression_all f) (all_expressions args)
  | Array els => HArray els (all_expressions els)
  | Hash pairs =>
      HHash pairs
        ((fix go (l : list (Expression * Expression))
            : Forall (fun kv => P (fst kv) /\ P (snd kv)) l :=
            match l with
            | [] => @List.Forall_nil _ _
            | (k, v) :: l' =>
                @List.Forall_cons _ _ (k, v) l'
                  (conj (Expression_all k) (Expression_all v)) (go l')
            end) pairs)
  | IndexExpression a i => HIndex a i (Expression_all a) (Expression_all i)
  end
with Statement_all (s : Statement) : Q s :=
  match s with
  | LetStatement n v => HLet n v (Expression_all v)
  | ReturnStatement r => HReturn r (Expression_all r)
  | ExpressionStatement e => HExpression e (Expression_all e)
  | BlockStatement l =>
      HBlock l
        ((fix go (l : list Statement) : Forall Q l :=
            match l with
            | [] => @List.Forall_nil _ _
            | x :: l' => @List.Forall_cons _ _ x l' (Statement_all x) (go l')
            end) l)
  end.

Lemma Ast_all : (forall e, P e) /\ (forall s, Q s).
Proof. split; [exact Expression_all | exact Statement_all]. Qed.
End AstInduction.

(** ** The symbol table: captured symbols are bindings of the outer table *)

Section SymbolTable.
Import symbols.

Lemma SymbolTable_chain_ind (P : SymbolTable -> Prop) :
  (forall outer st n free,
      (forall o, outer = Some o -> P o) ->
      P (Build_SymbolTable outer st n free)) ->
  forall t, P t.
Proof.
  intros step. fix IH 1. intros [[o|] st n free]; apply step.
  - intros o' E. injection E as <-. apply IH.
  - intros o' E. discriminate E.
Qed.

(** Every symbol is stored under its own name. *)
Definition keyed (st : gmap string Symbol) : Prop :=
  forall name symbol, st !! name = Some symbol -> Name symbol = name.

(** A symbol as a table hands it out for capture: stored under its name,
    and neither global nor built-in. *)
Definition bound_in (o : SymbolTable) (symbol : Symbol) : Prop :=
  store o !! Name symbol = Some symbol /\
  SymbolScope symbol <> GlobalScope /\ SymbolScope symbol <> BuiltinScope.

(** The invariant of a chain of tables: the captured list of every table
    holds symbols as its outer table binds them, and the outermost table
    captures nothing. *)
Fixpoint table_ok (t : SymbolTable) : Prop :=
  match t with
  | Build_SymbolTable outer st n free =>
      keyed st /\
      match outer with
      | None => free = []
      | Some o => Forall (bound_in o) free /\ table_ok o
      end
  end.

Lemma table_ok_unfold t :
  table_ok t <->
  keyed (store t) /\
  match Outer t with
  | None => FreeSymbols t = []
  | Some o => Forall (bound_in o) (FreeSymbols t) /\ table_ok o
  end.
Proof. destruct t; reflexivity. Qed.

Lemma keyed_insert st name symbol :
  keyed st -> Name symbol = name -> keyed (<[name := symbol]> st).
Proof.
  intros Hk Hn name' symbol'. rewrite lookup_insert.
  case_decide; [intros [= <-]; congruence | apply Hk].
Qed.

Lemma table_ok_NewEnclosed outer :
  match outer with Some o => table_ok o | None => Logic.True end ->
  table_ok (NewEnclosedSymbolTable outer).
Proof.
  intros Ho. simpl. split.
  - intros name symbol. rewrite lookup_empty. discriminate.
  - destruct outer; [split; [constructor | assumption] | reflexivity].
Qed.

Lemma table_ok_Define name t :
  table_ok t -> table_ok (snd (Define name t)).
Proof.
  destruct t as [outer st n free]. simpl. intros [Hk Ho]. split.
  - apply keyed_insert; [assumption | reflexivity].
  - assumption.
Qed.

Lemma table_ok_DefineBuiltin i name t :
  table_ok t -> table_ok (snd (DefineBuiltin i name t)).
Proof.
  destruct t as [outer st n free]. simpl. intros [Hk Ho]. split.
  - apply keyed_insert; [assumption | reflexivity].
  - assumption.
Qed.

Lemma table_ok_Outer t o : table_ok t -> Outer t = Some o -> table_ok o.
Proof. destruct t; simpl. intros [_ Ho] ->. apply Ho. Qed.

Lemma table_ok_FreeSymbols t o :
  table_ok t -> Outer t = Some o -> Forall (bound_in o) (FreeSymbols t).
Proof. destruct t; simpl. intros [_ Ho] ->. apply Ho. Qed.

(** What [Resolve] returns and what it does to the chain. *)

Lemma bound_in_weaken o o' symbol :
  store o ⊆ store o' -> bound_in o symbol -> bound_in o' symbol.
Proof.
  intros Hsub (Hs & Hg & Hb). repeat split; auto.
  eapply lookup_weaken; eassumption.
Qed.

Lemma Resolve_spec name t :
  table_ok t ->
  let '(r, t') := Resolve name t in
  table_ok t' /\
  store t ⊆ store t' /\
  (Outer t = None <-> Outer t' = None) /\
  forall symbol, r = Some symbol ->
    Name symbol = name /\
    (store t' !! name = Some symbol \/
     SymbolScope symbol = GlobalScope \/ SymbolScope symbol = BuiltinScope).
Proof.
  induction t as [outer st n free IH] using SymbolTable_chain_ind.
  intros [Hk Ho]. simpl.
  destruct (st !! name) as [symbol|] eqn:Hst.
  { simpl. split; [split; assumption|]. split; [reflexivity|].
    split; [tauto|]. intros s [= <-].
    split; [eapply Hk; eassumption | left; assumption]. }
  destruct outer as [o|].
  2:{ simpl. split; [split; assumption|]. split; [reflexivity|].
      split; [tauto|]. intros s E; discriminate E. }
  destruct Ho as [Hfree Hok].
  specialize (IH o eq_refl Hok).
  destruct (Resolve name o) as [[symbol|] o'];
    destruct IH as (Hok' & Hsub & Hnone & Hr).
  2:{ simpl. split.
      { split; [assumption|]. split; [|assumption].
        eapply Forall_impl; [exact Hfree|].
        intros s. apply bound_in_weaken. assumption. }
      split; [reflexivity|]. split; [split; intros [=]|]. intros s E; discriminate E. }
  destruct (Hr symbol eq_refl) as [Hname Hwhere].
  assert (Hkeep : Forall (bound_in o') free).
  { eapply Forall_impl; [exact Hfree|].
    intros s. apply bound_in_weaken. assumption. }
  assert (Hpromoted :
    SymbolScope symbol <> GlobalScope -> SymbolScope symbol <> BuiltinScope ->
    let '(free_symbol, t') := defineFree symbol (Some o') st n free in
    table_ok t' /\
    st ⊆ store t' /\
    (Some o = None <-> Outer t' = None) /\
    forall s, Some free_symbol = Some s ->
      Name s = name /\
      (store t' !! name = Some s \/
       SymbolScope s = GlobalScope \/ SymbolScope s = BuiltinScope)).
  { intros Hg Hb. simpl. split.
    { split; [apply keyed_insert; [assumption | reflexivity]|].
      split; [|assumption].
      apply Forall_app. split; [assumption|].
      constructor; [|constructor]. split; [|split; assumption].
      destruct Hwhere as [Hw | [Hw | Hw]]; [|contradiction..].
      rewrite Hname. assumption. }
    split; [apply insert_subseteq; rewrite Hname; assumption|].
    split; [split; intros [=]|].
    intros s [= <-]. simpl. split; [assumption|]. left.
    rewrite Hname. apply lookup_insert_eq. }
  assert (Hunchanged :
    SymbolScope symbol = GlobalScope \/ SymbolScope symbol = BuiltinScope ->
    table_ok (Build_SymbolTable (Some o') st n free) /\
    st ⊆ st /\
    (Some o = None <-> Some o' = None) /\
    forall s, Some symbol = Some s ->
      Name s = name /\
      (st !! name = Some s \/
       SymbolScope s = GlobalScope \/ SymbolScope s = BuiltinScope)).
  { intros Hs. split; [simpl; auto|]. split; [reflexivity|].
    split; [split; intros [=]|]. intros s [= <-]. auto. }
  destruct (SymbolScope symbol) eqn:Hscope.
  - apply Hunchanged. auto.
  - apply Hpromoted; discriminate.
  - apply Hpromoted; discriminate.
  - apply Hunchanged. auto.
  - apply Hpromoted; discriminate.
Qed.
End SymbolTable.

(** ** The compiler: what every [Compile] preserves *)

Section CompilerFacts.
Import code symbols compiler.
Context `{Numbering} `{object.Names} `{ast.Printer}.

(** The current scope is the last one. *)
Definition scopes_ok (c : Compiler) : Prop :=
  scopeIndex c = len (scopes c) - 1.

Definition tables_ok (c : Compiler) : Prop :=
  match symbolTable c with
  | Some t => table_ok t
  | None => Logic.True
  end.

Definition consistent (c : Compiler) : Prop := scopes_ok c /\ tables_ok c.

(** The scopes below the current one are left alone. *)
Definition same_frame (c c' : Compiler) : Prop :=
  scopeIndex c' = scopeIndex c /\
  len (scopes c') = len (scopes c) /\
  take (Z.to_nat (scopeIndex c)) (scopes c')
  = take (Z.to_nat (scopeIndex c)) (scopes c).

Definition stable {A} (m : M Compiler A) : Prop :=
  forall c a c',
    consistent c -> m c = Ok a c' -> consistent c' /\ same_frame c c'.

Lemma same_frame_refl c : same_frame c c.
Proof. repeat split. Qed.

Lemma same_frame_trans c1 c2 c3 :
  same_frame c1 c2 -> same_frame c2 c3 -> same_frame c1 c3.
Proof.
  intros (Hi & Hl & Ht) (Hi' & Hl' & Ht'). rewrite Hi in Ht'.
  repeat split; congruence.
Qed.

Lemma stable_ret {A} (a : A) : stable (ret a).
Proof. intros c a' c' Hc E. injection E as <- <-. auto using same_frame_refl. Qed.

Lemma stable_fail {A} msg : stable (@fail Compiler A msg).
Proof. intros c a c' _ E. discriminate E. Qed.

Lemma stable_panic {A} : stable (@panic Compiler A).
Proof. intros c a c' _ E. discriminate E. Qed.

Lemma stable_bind {A B} (m : M Compiler A) (k : A -> M Compiler B) :
  stable m -> (forall a, stable (k a)) -> stable (bind m k).
Proof.
  intros Hm Hk c b c' Hc E. bind_inv E as a c1 E1.
  destruct (Hm _ _ _ Hc E1) as [Hc1 Hf1].
  destruct (Hk _ _ _ _ Hc1 E) as [Hc' Hf'].
  eauto using same_frame_trans.
Qed.

Lemma stable_forEach {A} (f : A -> M Compiler unit) l :
  Forall (fun x => stable (f x)) l -> stable (forEach f l).
Proof.
  induction 1 as [|x l Hx Hl IH]; simpl.
  - apply stable_ret.
  - apply stable_bind; auto.
Qed.

Lemma stable_currentScope : stable currentScope.
Proof.
  intros c a c' Hc. unfold currentScope.
  destruct (index _ _); intros E; [|discriminate E].
  injection E as <- <-. auto using same_frame_refl.
Qed.

Lemma stable_setCurrentScope scope : stable (setCurrentScope scope).
Proof.
  intros c a c' [Hs Ht]. unfold setCurrentScope.
  destruct (assign _ _ _) as [scopes'|] eqn:Ha; intros E; [|discriminate E].
  injection E as <- <-.
  pose proof (assign_len _ _ _ _ Ha) as Hlen.
  apply assign_Some in Ha as [Hi ->].
  split; [split|repeat split]; simpl.
  - unfold scopes_ok in *. simpl. rewrite Hlen. assumption.
  - assumption.
  - assumption.
  - apply take_insert_ge. lia.
Qed.

Lemma stable_addConstant obj : stable (addConstant obj).
Proof.
  intros c a c' Hc E. injection E as <- <-.
  split; [exact Hc | repeat split].
Qed.

Lemma stable_withTable {A} (f : SymbolTable -> A * SymbolTable) :
  (forall t, table_ok t -> table_ok (snd (f t))) -> stable (withTable f).
Proof.
  intros Hf c a c' [Hs Ht]. unfold withTable, tables_ok in *.
  destruct (symbolTable c) as [t|]; intros E; [|discriminate E].
  specialize (Hf t Ht). destruct (f t) as [a' t'].
  injection E as <- <-. repeat split; assumption.
Qed.

Lemma stable_Resolve name : stable (withTable (Resolve name)).
Proof.
  apply stable_withTable. intros t Ht.
  pose proof (Resolve_spec name t Ht) as Hr.
  destruct (Resolve name t). apply Hr.
Qed.

Lemma stable_Define name : stable (withTable (Define name)).
Proof. apply stable_withTable. intros t. apply table_ok_Define. Qed.

(** Discharges [stable] for code put together from the pieces above. *)
Ltac stable_step :=
  first
    [ apply stable_ret | apply stable_fail | apply stable_panic
    | apply stable_currentScope | apply stable_setCurrentScope
    | apply stable_addConstant | apply stable_Resolve | apply stable_Define
    | apply stable_withTable; intros ? ?; assumption
    | assumption
    | apply stable_bind; [|intros ?]
    | match goal with
      | |- stable (match ?x with _ => _ end) => destruct x
      | |- stable (if ?b then _ else _) => destruct b
      end ].

Ltac stable_auto := repeat stable_step.

Lemma stable_emit op operands : stable (emit op operands).
Proof. unfold emit. stable_auto. Qed.

Lemma stable_emit_ op operands : stable (emit_ op operands).
Proof. unfold emit_. apply stable_bind; [apply stable_emit | intros; apply stable_ret]. Qed.

Lemma stable_currentLength : stable currentLength.
Proof. unfold currentLength. stable_auto. Qed.

Lemma stable_removeLastInstruction : stable removeLastInstruction.
Proof. unfold removeLastInstruction. stable_auto. Qed.

Lemma stable_replaceInstruction i instruction :
  stable (replaceInstruction i instruction).
Proof. unfold replaceInstruction. stable_auto. Qed.

Lemma stable_changeOperand i operand : stable (changeOperand i operand).
Proof.
  unfold changeOperand. apply stable_bind; [apply stable_currentScope|].
  intros scope. destruct (index _ _); [|apply stable_panic].
  apply stable_replaceInstruction.
Qed.

Lemma stable_lastInstructionIs op : stable (lastInstructionIs op).
Proof. unfold lastInstructionIs. stable_auto. Qed.

Lemma stable_removeLastPop : stable removeLastPop.
Proof.
  unfold removeLastPop. apply stable_bind; [apply stable_lastInstructionIs|].
  intros []; [apply stable_removeLastInstruction | apply stable_ret].
Qed.

Lemma stable_replaceLastPopWithReturn : stable replaceLastPopWithReturn.
Proof.
  unfold replaceLastPopWithReturn.
  apply stable_bind; [apply stable_currentScope|]. intros scope.
  apply stable_bind; [apply stable_replaceInstruction|]. intros _.
  stable_auto.
Qed.

Lemma stable_loadSymbol symbol : stable (loadSymbol symbol).
Proof. unfold loadSymbol. destruct (SymbolScope symbol); apply stable_emit_. Qed.

Lemma consistent_enterScope c :
  consistent c ->
  exists cE, enterScope c = Ok tt cE /\ consistent cE /\
             scopes cE = scopes c ++ [emptyScope] /\
             scopeIndex cE = scopeIndex c + 1 /\
             constants cE = constants c /\
             symbolTable cE = Some (NewEnclosedSymbolTable (symbolTable c)).
Proof.
  intros [Hs Ht]. eexists. split; [reflexivity|]. simpl.
  split; [split|repeat split].
  - unfold scopes_ok in *. simpl. rewrite len_app. unfold len at 2. simpl. lia.
  - unfold tables_ok in *. simpl. apply table_ok_NewEnclosed. assumption.
Qed.

(** Leaving the scope that [enterScope] opened gives back the scopes as
    they were. *)
Lemma leaveScope_spec c cE cb instructions' c' :
  consistent c ->
  scopes cE = scopes c ++ [emptyScope] ->
  scopeIndex cE = scopeIndex c + 1 ->
  consistent cb -> same_frame cE cb ->
  leaveScope cb = Ok instructions' c' ->
  consistent c' /\ same_frame c c' /\ scopes c' = scopes c /\
  constants c' = constants cb /\
  exists table scope,
    symbolTable cb = Some table /\ symbolTable c' = Outer table /\
    index (scopes cb) (scopeIndex cb) = Some scope /\
    instructions' = instructions scope.
Proof.
  intros [Hs Ht] HsE HiE [Hsb Htb] (Hib & Hlb & Htake). unfold leaveScope.
  destruct (symbolTable cb) as [table|] eqn:Htable; [|discriminate].
  destruct (index (scopes cb) (scopeIndex cb)) as [scope|] eqn:Hscope;
    [|discriminate].
  destruct (slice_to _ _) as [scopes'|] eqn:Hslice; [|discriminate].
  intros E. injection E as <- <-.
  apply slice_to_Some in Hslice as [_ ->].
  unfold scopes_ok in *. rewrite HsE, HiE, len_app in *.
  unfold len in *. simpl in *.
  assert (Hscopes : take (Z.to_nat (Z.of_nat (length (scopes cb)) - 1))
                      (scopes cb) = scopes c).
  { replace (Z.to_nat (Z.of_nat (length (scopes cb)) - 1))
      with (Z.to_nat (scopeIndex c + 1)) by lia.
    rewrite Htake. replace (Z.to_nat (scopeIndex c + 1))
      with (length (scopes c)) by lia.
    apply take_app_length. }
  split; [split|]; simpl.
  - unfold scopes_ok, len. simpl. rewrite Hscopes. lia.
  - unfold tables_ok in *. simpl. rewrite Htable in Htb.
    destruct (Outer table) as [o|] eqn:Ho; [|exact I].
    eapply table_ok_Outer; eassumption.
  - rewrite Hscopes. split; [|split; [reflexivity|split; [reflexivity|]]].
    + unfold same_frame, len. simpl. repeat split; lia.
    + eauto 10.
Qed.

Lemma sink_Permutation {A} (less : A -> A -> bool) x l :
  sort.sink less x l ≡ₚ x :: l.
Proof.
  induction l as [|y l IH]; simpl; [reflexivity|].
  destruct (less x y); [|reflexivity].
  rewrite IH. apply Permutation_swap.
Qed.

Lemma Slice_Permutation {A} (less : A -> A -> bool) l :
  sort.Slice less l ≡ₚ l.
Proof.
  unfold sort.Slice. rewrite <- Permutation_rev.
  assert (G : forall acc,
             fold_left (fun p x => sort.sink less x p) l acc ≡ₚ acc ++ l).
  { induction l as [|x l IH]; intros acc; simpl.
    - rewrite app_nil_r. reflexivity.
    - rewrite IH, sink_Permutation. simpl. apply Permutation_middle. }
  apply (G []).
Qed.

(** Follows one step of a run of stable code. *)
Tactic Notation "follow" hyp(Hc) hyp(Hf) hyp(E) "by" constr(lemma) :=
  let Hc' := fresh "Hc" in
  let Hf' := fresh "Hf" in
  let Hf'' := fresh "Hf" in
  destruct (lemma _ _ _ Hc E) as [Hc' Hf'];
  pose proof (same_frame_trans _ _ _ Hf Hf') as Hf'';
  clear Hf Hf' Hc; rename Hc' into Hc; rename Hf'' into Hf.

Theorem stable_Compile :
  (forall e, stable (Compile_expression e)) /\
  (forall s, stable (Compile_statement s)).
Proof.
  apply Ast_all.
  - (* Identifier *)
    intros v. simpl. apply stable_bind; [apply stable_Resolve|].
    intros [symbol|]; [apply stable_loadSymbol | apply stable_fail].
  - intros v. simpl. apply stable_bind; [apply stable_addConstant|].
    intros i. apply stable_emit_.
  - intros v. simpl. apply stable_bind; [apply stable_addConstant|].
    intros i. apply stable_emit_.
  - intros []; simpl; apply stable_emit_.
  - (* Prefix *)
    intros op r IH. simpl. apply stable_bind; [exact IH|]. intros _.
    destruct (prefixOpcode op); [apply stable_emit_ | apply stable_fail].
  - (* Infix *)
    intros l op r IHl IHr. simpl. destruct (String.eqb op "<").
    + apply stable_bind; [exact IHr|]. intros _.
      apply stable_bind; [exact IHl|]. intros _. apply stable_emit_.
    + apply stable_bind; [exact IHl|]. intros _.
      apply stable_bind; [exact IHr|]. intros _.
      destruct (infixOpcode op); [apply stable_emit_ | apply stable_fail].
  - (* If *)
    intros cond t e IHc IHt IHe. simpl.
    apply stable_bind; [exact IHc|]. intros _.
    apply stable_bind; [apply stable_emit|]. intros jumpNotTrueIndex.
    apply stable_bind; [apply stable_forEach; exact IHt|]. intros _.
    apply stable_bind; [apply stable_removeLastPop|]. intros _.
    destruct e as [elseStatements|].
    + apply stable_bind; [apply stable_emit|]. intros jumpIndex.
      apply stable_bind; [apply stable_currentLength|]. intros afterThen.
      apply stable_bind; [apply stable_changeOperand|]. intros _.
      apply stable_bind; [apply stable_forEach; exact IHe|]. intros _.
      apply stable_bind; [apply stable_removeLastPop|]. intros _.
      apply stable_bind; [apply stable_currentLength|]. intros afterElse.
      apply stable_changeOperand.
    + apply stable_bind; [apply stable_emit|]. intros jumpIndex.
      apply stable_bind; [apply stable_currentLength|]. intros afterJump.
      apply stable_bind; [apply stable_emit_|]. intros _.
      apply stable_bind; [apply stable_currentLength|]. intros afterNull.
      apply stable_bind; [apply stable_changeOperand|]. intros _.
      apply stable_changeOperand.
  - (* Function *)
    intros ps b IHb c a c' Hc E. simpl in E.
    destruct (consistent_enterScope c Hc)
      as (cE & HE & HcE & HsE & HiE & HkE & HtE).
    rewrite (bind_Ok_intro _ _ _ _ _ HE) in E.
    pose proof (same_frame_refl cE) as Hf.
    assert (Hparams : stable (forEach
              (fun parameter => withTable (Define parameter) ;;; ret tt) ps)).
    { apply stable_forEach. apply Forall_forall. intros p _.
      apply stable_bind; [apply stable_Define | intros; apply stable_ret]. }
    bind_inv E as u1 c1 E1. follow HcE Hf E1 by Hparams.
    bind_inv E as u2 c2 E2. follow HcE Hf E2 by (stable_forEach _ _ IHb).
    bind_inv E as isPop c3 E3.
    follow HcE Hf E3 by (stable_lastInstructionIs OpPop).
    bind_inv E as u4 c4 E4.
    assert (Hfix : stable (if isPop : bool
                           then replaceLastPopWithReturn else ret tt)).
    { destruct isPop;
        [apply stable_replaceLastPopWithReturn | apply stable_ret]. }
    follow HcE Hf E4 by Hfix.
    bind_inv E as isReturnValue c5 E5.
    follow HcE Hf E5 by (stable_lastInstructionIs OpReturnValue).
    bind_inv E as u6 c6 E6.
    assert (Hret : stable (if isReturnValue : bool
                           then ret tt else emit_ OpReturn [])).
    { destruct isReturnValue; [apply stable_ret | apply stable_emit_]. }
    follow HcE Hf E6 by Hret.
    bind_inv E as freeSymbols c7 E7.
    assert (Hread : forall A (f : SymbolTable -> A),
               stable (withTable (fun t => (f t, t)))).
    { intros A f. apply stable_withTable. intros t Ht. exact Ht. }
    follow HcE Hf E7 by (Hread _ FreeSymbols).
    bind_inv E as localCount c8 E8.
    follow HcE Hf E8 by (Hread _ numDefinitions).
    bind_inv E as instructions' cL EL.
    destruct (leaveScope_spec _ _ _ _ _ Hc HsE HiE HcE Hf EL)
      as (HcL & HfL & _).
    assert (Htail : stable (forEach loadSymbol freeSymbols ;;;
               (let* i := addConstant
                  (object.CompiledFunction instructions' localCount
                     (len ps)) in
                emit_ OpClosure [i; len freeSymbols]))).
    { apply stable_bind.
      - apply stable_forEach. apply Forall_forall. intros s _.
        apply stable_loadSymbol.
      - intros _. apply stable_bind; [apply stable_addConstant|].
        intros i. apply stable_emit_. }
    follow HcL HfL E by Htail. auto.
  - (* Call *)
    intros f args IHf IHargs. simpl.
    apply stable_bind; [exact IHf|]. intros _.
    apply stable_bind; [apply stable_forEach; exact IHargs|]. intros _.
    apply stable_emit_.
  - (* Array *)
    intros els IH. simpl.
    apply stable_bind; [apply stable_forEach; exact IH|]. intros _.
    apply stable_emit_.
  - (* Hash *)
    intros pairs IH. simpl.
    apply stable_bind; [|intros _; apply stable_emit_].
    apply stable_forEach. unfold sortKeys.
    rewrite Slice_Permutation.
    induction IH as [|[k v] l [Hk Hv] Hl IHl]; constructor; [|exact IHl].
    simpl. apply stable_bind; [exact Hk | intros _; exact Hv].
  - (* Index *)
    intros a i IHa IHi. simpl.
    apply stable_bind; [exact IHa|]. intros _.
    apply stable_bind; [exact IHi|]. intros _. apply stable_emit_.
  - (* Let *)
    intros n v IH. simpl.
    apply stable_bind; [apply stable_Define|]. intros symbol.
    apply stable_bind; [exact IH|]. intros _.
    destruct (decide _); apply stable_emit_.
  - intros r IH. simpl. apply stable_bind; [exact IH|]. intros _.
    apply stable_emit_.
  - intros e IH. simpl. apply stable_bind; [exact IH|]. intros _.
    apply stable_emit_.
  - intros l IH. simpl. apply stable_forEach. exact IH.
Qed.
End CompilerFacts.

(** ** The machine: stack operations *)

Section MachineFacts.
Import code object vm.
Context `{Numbering} `{Names}.

Lemma byte_of_eqb a b : (byte_of a =? byte_of b) = bool_decide (a = b).
Proof.
  case_bool_decide as E.
  - subst. apply Z.eqb_refl.
  - apply Z.eqb_neq. intros E'. apply E. apply byte_of_inj. exact E'.
Qed.

Lemma push_overflow o vm :
  StackSize <= sp vm -> push o vm = Err "stack overflow" vm.
Proof.
  intros Hsp. unfold push.
  destruct (Z.geb_spec (sp vm) StackSize); [reflexivity | lia].
Qed.

Lemma push_Ok o vm u vm' :
  push o vm = Ok u vm' ->
  0 <= sp vm < StackSize /\ sp vm < len (stack vm) /\
  vm' = set_stack vm (<[Z.to_nat (sp vm) := Some o]> (stack vm)) (sp vm + 1) /\
  index (stack vm') (sp vm) = Some (Some o).
Proof.
  unfold push. destruct (Z.geb_spec (sp vm) StackSize); [discriminate|].
  destruct (assign _ _ _) as [stack'|] eqn:Ha; [|discriminate].
  intros E. injection E as _ <-.
  pose proof (assign_index _ _ _ _ Ha) as Hi.
  apply assign_Some in Ha as [Hr ->]. simpl. repeat split; auto; lia.
Qed.

Lemma push_room o vm :
  0 <= sp vm < StackSize -> sp vm < len (stack vm) ->
  push o vm
  = Ok tt (set_stack vm (<[Z.to_nat (sp vm) := Some o]> (stack vm))
             (sp vm + 1)).
Proof.
  intros Hsp Hlen. unfold push, assign.
  destruct (Z.geb_spec (sp vm) StackSize); [lia|].
  destruct (Z.leb_spec 0 (sp vm)); [|lia].
  destruct (Z.ltb_spec (sp vm) (len (stack vm))); [|lia].
  reflexivity.
Qed.

Lemma push_Err o vm msg vm' :
  push o vm = Err msg vm' ->
  msg = "stack overflow"%string /\ vm' = vm /\ StackSize <= sp vm.
Proof.
  unfold push. destruct (Z.geb_spec (sp vm) StackSize).
  - intros [= <- <-]. auto.
  - destruct (assign _ _ _); discriminate.
Qed.

Lemma pop_Ok vm x vm' :
  pop vm = Ok x vm' <->
  index (stack vm) (sp vm - 1) = Some x /\
  vm' = set_stack vm (stack vm) (sp vm - 1).
Proof.
  unfold pop. destruct (index _ _) as [y|]; split.
  - intros [= <- <-]. auto.
  - intros [[= <-] ->]. reflexivity.
  - discriminate.
  - intros [[=] _].
Qed.

Lemma pop_not_Err vm msg vm' : pop vm = Err msg vm' -> Logic.False.
Proof. unfold pop. destruct (index _ _); discriminate. Qed.

Lemma asInteger_Ok x vm a vm' :
  asInteger x vm = Ok a vm' -> x = Some (Integer a) /\ vm' = vm.
Proof.
  destruct x as [[]|]; try discriminate. intros E. injection E as <- <-. auto.
Qed.

Lemma asBoolean_Ok x vm a vm' :
  asBoolean x vm = Ok a vm' -> x = Some (Boolean a) /\ vm' = vm.
Proof.
  destruct x as [[]|]; try discriminate. intros E. injection E as <- <-. auto.
Qed.

Lemma typeOf_Ok x vm a vm' :
  typeOf x vm = Ok a vm' -> exists o, x = Some o /\ a = Type_ o /\ vm' = vm.
Proof.
  destruct x as [o|]; try discriminate. intros E. injection E as <- <-. eauto.
Qed.

(** An operation that pops two operands and succeeds by pushing one
    result. *)
Lemma pop_pop_push_Ok (body : option Object -> option Object -> M VM unit)
    vm u vm' :
  (forall r l v u v', body r l v = Ok u v' -> exists o, push o v = Ok u v') ->
  (let* right := pop in let* left := pop in body right left) vm = Ok u vm' ->
  exists l r o,
    index (stack vm) (sp vm - 2) = Some l /\
    index (stack vm) (sp vm - 1) = Some r /\
    body r l (set_stack vm (stack vm) (sp vm - 2)) = Ok u vm' /\
    0 <= sp vm - 2 < StackSize /\
    vm' = set_stack vm (<[Z.to_nat (sp vm - 2) := Some o]> (stack vm))
            (sp vm - 1) /\
    index (stack vm') (sp vm - 2) = Some (Some o).
Proof.
  intros Hbody E. bind_inv E as r v1 P1. bind_inv E as l v2 P2.
  apply pop_Ok in P1 as [Hr ->]. apply pop_Ok in P2 as [Hl ->].
  simpl in Hl, E. replace (sp vm - 1 - 1) with (sp vm - 2) in * by lia.
  assert (Hv : set_stack (set_stack vm (stack vm) (sp vm - 1))
                 (stack vm) (sp vm - 2)
               = set_stack vm (stack vm) (sp vm - 2)) by reflexivity.
  rewrite Hv in E.
  destruct (Hbody _ _ _ _ _ E) as [o Ho].
  apply push_Ok in Ho as (Hsp & _ & -> & Hi). simpl in *.
  exists l, r, o. repeat split; auto; try lia.
  unfold set_stack. simpl. f_equal. lia.
Qed.

(** Popping two operands. *)
Lemma pop_pop vm l r :
  index (stack vm) (sp vm - 2) = Some l ->
  index (stack vm) (sp vm - 1) = Some r ->
  forall A (k : option Object -> option Object -> M VM A),
    (let* right := pop in let* left := pop in k right left) vm
    = k r l (set_stack vm (stack vm) (sp vm - 2)).
Proof.
  intros Hl Hr A k. unfold bind at 1. unfold pop at 1. rewrite Hr.
  unfold bind at 1. unfold pop at 1. simpl.
  replace (sp vm - 1 - 1) with (sp vm - 2) by lia. rewrite Hl.
  reflexivity.
Qed.
End MachineFacts.

(** ** The machine: the loop of [Run] *)

Section RunFacts.
Import code object vm.
Context `{Numbering} `{Names}.

(** The opcodes that the [switch] of [Run] has a case for. *)
Definition implemented_opcodes : list Opcode :=
  [OpConstant; OpAdd; OpSub; OpMul; OpDiv; OpEqual; OpNotEqual;
   OpGreaterThan; OpTrue; OpFalse; OpPop].

Definition implemented (op : Z) : Prop :=
  op ∈ map byte_of implemented_opcodes.

(** The instruction at [ip] pushes: [True], [False], or [Constant] with
    its two operand bytes and a constant at that index. *)
Definition pushes_at (vm : VM) (ip : Z) : Prop :=
  exists op,
    index (instructions vm) ip = Some op /\
    (op = byte_of OpTrue \/ op = byte_of OpFalse \/
     (op = byte_of OpConstant /\
      exists i constant,
        Uint16 (drop (Z.to_nat (ip + 1)) (instructions vm)) = Some i /\
        index (constants vm) i = Some constant)).

Lemma loop_unfold fuel ip vm :
  ip < len (instructions vm) ->
  loop (Datatypes.S fuel) ip vm =
  match dispatch ip vm with
  | Ok ip' vm' => loop fuel (ip' + 1) vm'
  | Err msg vm' => Some (Err msg vm')
  | Panic => Some Panic
  end.
Proof.
  intros Hip. simpl. destruct (Z.ltb_spec ip (len (instructions vm))); [|lia].
  reflexivity.
Qed.

Lemma loop_end fuel ip vm :
  len (instructions vm) <= ip -> loop fuel ip vm = Some (Ok tt vm).
Proof.
  intros Hip.
  destruct fuel; simpl;
    destruct (Z.ltb_spec ip (len (instructions vm))); (lia || reflexivity).
Qed.

Lemma not_implemented_neq op opcode :
  ~ implemented op -> opcode ∈ implemented_opcodes ->
  (op =? byte_of opcode) = false.
Proof.
  intros Hn Hin. apply Z.eqb_neq. intros ->. apply Hn.
  apply list_elem_of_fmap. exists opcode. auto.
Qed.

Lemma dispatch_not_implemented ip vm op :
  index (instructions vm) ip = Some op -> ~ implemented op ->
  dispatch ip vm = Ok ip vm.
Proof.
  intros Hop Hn. unfold dispatch. rewrite Hop.
  rewrite !(not_implemented_neq op) by
    (assumption || (unfold implemented_opcodes; set_solver)).
  reflexivity.
Qed.

Lemma dispatch_push_overflow ip vm :
  StackSize <= sp vm -> pushes_at vm ip ->
  dispatch ip vm = Err "stack overflow" vm.
Proof.
  intros Hsp (op & Hop & Hcase). unfold dispatch. rewrite Hop.
  destruct Hcase as [-> | [-> | (-> & i & constant & Hi & Hc)]].
  - rewrite !byte_of_eqb. simpl. unfold bind.
    rewrite push_overflow by assumption. reflexivity.
  - rewrite !byte_of_eqb. simpl. unfold bind.
    rewrite push_overflow by assumption. reflexivity.
  - rewrite Z.eqb_refl, Hi, Hc. unfold bind.
    rewrite push_overflow by assumption. reflexivity.
Qed.

Lemma arithmetic_pushes opcode r l v u v' :
  (let* leftValue := asInteger l in
   let* rightValue := asInteger r in
   if opcode =? byte_of OpAdd then
     push (Integer (wrap64 (leftValue + rightValue)))
   else if opcode =? byte_of OpSub then
     push (Integer (wrap64 (leftValue - rightValue)))
   else if opcode =? byte_of OpMul then
     push (Integer (wrap64 (leftValue * rightValue)))
   else if opcode =? byte_of OpDiv then
     if rightValue =? 0 then panic
     else push (Integer (wrap64 (Z.quot leftValue rightValue)))
   else push (Integer 0)) v = Ok u v' ->
  exists o, push o v = Ok u v'.
Proof.
  intros E. bind_inv E as lv v1 P1. bind_inv E as rv v2 P2.
  apply asInteger_Ok in P1 as [_ ->]. apply asInteger_Ok in P2 as [_ ->].
  repeat match type of E with
         | (if ?b then _ else _) _ = _ => destruct b
         end; try discriminate E; eauto.
Qed.

Lemma comparison_pushes op r l v u v' :
  (let* rightType := typeOf r in
   let* leftType := typeOf l in
   if negb (bool_decide (rightType = leftType)) then
     fail ("both operands must have same type, had: "
           +:+ type_name leftType +:+ " and " +:+ type_name rightType)
   else if bool_decide (rightType = IntegerType) then
     executeIntegerComparison l r op
   else if bool_decide (rightType = BooleanType) then
     executeBooleanComparison l r op
   else
     fail ("unable to compare variables of type "
           +:+ type_name leftType +:+ " and " +:+ type_name rightType))
    v = Ok u v' ->
  exists o, push o v = Ok u v'.
Proof.
  intros E. bind_inv E as rt v1 P1. bind_inv E as lt v2 P2.
  apply typeOf_Ok in P1 as (? & _ & _ & ->).
  apply typeOf_Ok in P2 as (? & _ & _ & ->).
  repeat match type of E with
         | (if ?b then _ else _) _ = _ => destruct b
         end; try discriminate E.
  - unfold executeIntegerComparison in E.
    bind_inv E as lv v3 P3. bind_inv E as rv v4 P4.
    apply asInteger_Ok in P3 as [_ ->]. apply asInteger_Ok in P4 as [_ ->].
    repeat match type of E with
           | (if ?b then _ else _) _ = _ => destruct b
           end; try discriminate E; eauto.
  - unfold executeBooleanComparison in E.
    bind_inv E as lv v3 P3. bind_inv E as rv v4 P4.
    apply asBoolean_Ok in P3 as [_ ->]. apply asBoolean_Ok in P4 as [_ ->].
    repeat match type of E with
           | (if ?b then _ else _) _ = _ => destruct b
           end; try discriminate E; eauto.
Qed.

(** A binary operation or a comparison that succeeds replaces its two
    operands by one value. *)
Lemma binary_Ok (m : M VM unit) vm u vm' :
  (exists op, m = executeBinaryIntegerOperation op \/
              m = executeComparison op) ->
  m vm = Ok u vm' ->
  sp vm' = sp vm - 1 /\ 0 <= sp vm - 2 /\
  instructions vm' = instructions vm /\ constants vm' = constants vm /\
  exists o, index (stack vm') (sp vm - 2) = Some (Some o).
Proof.
  intros [op [-> | ->]] E.
  - apply pop_pop_push_Ok in E as (l & r & o & _ & _ & _ & Hsp & -> & Hi).
    + simpl. repeat split; eauto; lia.
    + intros. eapply arithmetic_pushes. eassumption.
  - apply pop_pop_push_Ok in E as (l & r & o & _ & _ & _ & Hsp & -> & Hi).
    + simpl. repeat split; eauto; lia.
    + intros. eapply comparison_pushes. eassumption.
Qed.

Lemma dispatch_instructions ip vm ip' vm' :
  dispatch ip vm = Ok ip' vm' ->
  instructions vm' = instructions vm /\ constants vm' = constants vm /\
  ip <= ip'.
Proof.
  assert (Hpush : forall o v u v', push o v = Ok u v' ->
            instructions v' = instructions v /\ constants v' = constants v).
  { intros o v u v' (_ & _ & -> & _)%push_Ok. auto. }
  unfold dispatch.
  destruct (index (instructions vm) ip) as [op|]; [|discriminate].
  repeat match goal with
         | |- context [if ?b then _ else _] => destruct b
         end.
  - destruct (Uint16 _); [|discriminate].
    destruct (index (constants vm) _); [|discriminate].
    intros E. bind_inv E as u v E1. injection E as <- <-.
    destruct (Hpush _ _ _ _ E1). repeat split; auto; lia.
  - intros E. bind_inv E as u v E1. injection E as <- <-.
    apply binary_Ok in E1 as (_ & _ & ? & ? & _); [|eauto].
    repeat split; auto; lia.
  - intros E. bind_inv E as u v E1. injection E as <- <-.
    apply binary_Ok in E1 as (_ & _ & ? & ? & _); [|eauto].
    repeat split; auto; lia.
  - intros E. bind_inv E as u v E1. injection E as <- <-.
    destruct (Hpush _ _ _ _ E1). repeat split; auto; lia.
  - intros E. bind_inv E as u v E1. injection E as <- <-.
    destruct (Hpush _ _ _ _ E1). repeat split; auto; lia.
  - intros E. bind_inv E as u v E1. injection E as <- <-.
    apply pop_Ok in E1 as [_ ->]. repeat split; auto; lia.
  - intros E. injection E as <- <-. repeat split; lia.
Qed.
(** The fuel [Run] gives the loop is enough: [Run] returns. *)
Lemma loop_total fuel ip vm :
  len (instructions vm) - ip <= Z.of_nat fuel ->
  exists r, loop fuel ip vm = Some r.
Proof.
  revert ip vm. induction fuel as [|fuel IH]; intros ip vm Hfuel.
  - exists (Ok tt vm). apply loop_end. lia.
  - destruct (Z.lt_ge_cases ip (len (instructions vm))) as [Hip|Hip].
    + rewrite loop_unfold by assumption.
      destruct (dispatch ip vm) as [ip' vm'| |] eqn:Hd; eauto.
      apply dispatch_instructions in Hd as (Hi & _ & Hle).
      apply IH. rewrite Hi. lia.
    + exists (Ok tt vm). apply loop_end. lia.
Qed.

Theorem Run_total vm : exists r, Run vm = Some r.
Proof. apply loop_total. unfold len. lia. Qed.

(** An error of the loop is the error of a turn at an implemented
    opcode. *)
Lemma loop_Err fuel ip vm msg vm' :
  loop fuel ip vm = Some (Err msg vm') ->
  exists ip1 vm1 op,
    index (instructions vm1) ip1 = Some op /\ implemented op /\
    dispatch ip1 vm1 = Err msg vm'.
Proof.
  revert ip vm. induction fuel as [|fuel IH]; intros ip vm; simpl.
  - destruct (ip <? len (instructions vm)); discriminate.
  - destruct (ip <? len (instructions vm)); [|discriminate].
    destruct (dispatch ip vm) as [ip' vm1| |] eqn:Hd.
    + apply IH.
    + intros E. injection E as <- <-.
      destruct (index (instructions vm) ip) as [op|] eqn:Hop.
      * exists ip, vm, op. repeat split; auto.
        destruct (decide (implemented op)) as [|Hn]; [assumption|].
        rewrite (dispatch_not_implemented _ _ _ Hop Hn) in Hd.
        discriminate Hd.
      * unfold dispatch in Hd. rewrite Hop in Hd. discriminate Hd.
    + discriminate.
Qed.

(** C9: a push with the stack pointer at the capacity of 2048 or above
    returns the error "stack overflow" and leaves the stack and the stack
    pointer as they were, and [Run] stops with that error, as it does with
    any error of a turn; with room left, the value is stored at [stack[sp]]
    and [sp] goes up by one. *)
Theorem C9_push_stack_overflow (vm : VM) (o : Object) :
  StackSize = 2048 /\
  (StackSize <= sp vm ->
   push o vm = Err "stack overflow" vm /\
   forall fuel ip,
     pushes_at vm ip ->
     loop (Datatypes.S fuel) ip vm = Some (Err "stack overflow" vm)) /\
  (0 <= sp vm < StackSize -> len (stack vm) = StackSize ->
   exists vm',
     push o vm = Ok tt vm' /\
     stack vm' = <[Z.to_nat (sp vm) := Some o]> (stack vm) /\
     index (stack vm') (sp vm) = Some (Some o) /\
     sp vm' = sp vm + 1 /\
     instructions vm' = instructions vm /\ constants vm' = constants vm) /\
  (forall fuel ip msg vm',
      ip < len (instructions vm) -> dispatch ip vm = Err msg vm' ->
      loop (Datatypes.S fuel) ip vm = Some (Err msg vm')).
Proof.
  split; [reflexivity|]. split; [|split].
  - intros Hsp. split; [apply push_overflow; assumption|].
    intros fuel ip Hpush.
    pose proof Hpush as (op & Hop & _).
    rewrite loop_unfold by (apply index_lt in Hop; lia).
    rewrite dispatch_push_overflow by assumption. reflexivity.
  - intros Hsp Hlen. eexists. split; [apply push_room; lia|].
    simpl. repeat split.
    apply index_Some. split; [lia|].
    apply list_lookup_insert_eq. unfold len in Hlen. lia.
  - intros fuel ip msg vm' Hip Hd.
    rewrite loop_unfold by assumption. rewrite Hd. reflexivity.
Qed.

(** C10: at an opcode byte other than Constant, Add, Sub, Mul, Div, Equal,
    NotEqual, GreaterThan, True, False and Pop, a turn of [Run] changes
    nothing and the loop goes on one byte further, whatever the byte is an
    operand of; and every error [Run] returns is raised by a turn at one
    of those eleven opcodes, never for an opcode it does not know. *)
Theorem C10_unimplemented_opcode_skipped (vm : VM) :
  (forall ip op fuel,
      index (instructions vm) ip = Some op -> ~ implemented op ->
      dispatch ip vm = Ok ip vm /\
      loop (Datatypes.S fuel) ip vm = loop fuel (ip + 1) vm) /\
  (forall msg vm',
      Run vm = Some (Err msg vm') ->
      exists ip1 vm1 op,
        index (instructions vm1) ip1 = Some op /\ implemented op /\
        dispatch ip1 vm1 = Err msg vm').
Proof.
  split.
  - intros ip op fuel Hop Hn.
    pose proof (dispatch_not_implemented _ _ _ Hop Hn) as Hd.
    split; [exact Hd|].
    rewrite loop_unfold by (apply index_lt in Hop; lia).
    rewrite Hd. reflexivity.
  - intros msg vm'. apply loop_Err.
Qed.
End RunFacts.

(** ** The machine: arithmetic and comparisons *)

(** What the four arithmetic opcodes compute on two [int64] values: Go's
    wrap-around arithmetic, with a quotient truncated toward zero. *)
Definition arithmetic (opcode : code.Opcode) (l r : Z) : Z :=
  match opcode with
  | code.OpAdd => wrap64 (l + r)
  | code.OpSub => wrap64 (l - r)
  | code.OpMul => wrap64 (l * r)
  | code.OpDiv => wrap64 (Z.quot l r)
  | _ => 0
  end.

(** The comparisons the machine defines: equality and its negation on two
    integers or two booleans, greater-than on two integers. *)
Definition comparison (opcode : code.Opcode) (l r : object.Object)
  : option bool :=
  match opcode, l, r with
  | code.OpEqual, object.Integer a, object.Integer b => Some (a =? b)
  | code.OpNotEqual, object.Integer a, object.Integer b => Some (negb (a =? b))
  | code.OpGreaterThan, object.Integer a, object.Integer b => Some (a >? b)
  | code.OpEqual, object.Boolean a, object.Boolean b => Some (Bool.eqb a b)
  | code.OpNotEqual, object.Boolean a, object.Boolean b =>
      Some (negb (Bool.eqb a b))
  | _, _, _ => None
  end.

Section BinaryFacts.
Import code object vm.
Context `{Numbering} `{Names}.

(** The machine after an operation has replaced the two topmost values by
    [result]. *)
Definition replaced_top2 (vm : VM) (result : Object) : VM :=
  set_stack vm (<[Z.to_nat (sp vm - 2) := Some result]> (stack vm))
    (sp vm - 1).

(** The machine after its two topmost values have been popped. *)
Definition popped2 (vm : VM) : VM := set_stack vm (stack vm) (sp vm - 2).

Lemma push_popped2 vm x o :
  len (stack vm) = StackSize ->
  index (stack vm) (sp vm - 2) = Some x ->
  push o (popped2 vm) = Ok tt (replaced_top2 vm o).
Proof.
  intros Hlen Hx. apply index_lt in Hx.
  rewrite push_room by (simpl; lia).
  unfold replaced_top2, popped2, set_stack. simpl. f_equal. f_equal. lia.
Qed.

(** C3 (amended): executing Add, Sub, Mul or Div on two Integers (for Div,
    with a divisor other than zero) pops both and pushes the Integer result
    of the operation in 64-bit wrap-around arithmetic, and the loop of
    [Run] goes on with the next instruction. *)
Theorem C3_integer_arithmetic (vm : VM) (opcode : Opcode) (l r : Z) :
  opcode ∈ [OpAdd; OpSub; OpMul; OpDiv] ->
  len (stack vm) = StackSize ->
  index (stack vm) (sp vm - 2) = Some (Some (Integer l)) ->
  index (stack vm) (sp vm - 1) = Some (Some (Integer r)) ->
  (opcode = OpDiv -> r <> 0) ->
  executeBinaryIntegerOperation (byte_of opcode) vm
  = Ok tt (replaced_top2 vm (Integer (arithmetic opcode l r))) /\
  forall ip,
    index (instructions vm) ip = Some (byte_of opcode) ->
    dispatch ip vm
    = Ok ip (replaced_top2 vm (Integer (arithmetic opcode l r))).
Proof.
  intros Hop Hlen Hl Hr Hdiv.
  assert (Hexec : executeBinaryIntegerOperation (byte_of opcode) vm
            = Ok tt (replaced_top2 vm (Integer (arithmetic opcode l r)))).
  { unfold executeBinaryIntegerOperation.
    rewrite (pop_pop vm _ _ Hl Hr). unfold asInteger, bind at 1, ret.
    unfold bind at 1. fold (popped2 vm).
    rewrite !byte_of_eqb.
    repeat (apply elem_of_cons in Hop as [-> | Hop]);
      [ | | | | apply elem_of_nil in Hop; contradiction ]; simpl.
    1-3: eapply push_popped2; eassumption.
    destruct (Z.eqb_spec r 0) as [E|_]; [destruct (Hdiv eq_refl E)|].
    eapply push_popped2; eassumption. }
  split; [exact Hexec|].
  intros ip Hip. unfold dispatch. rewrite Hip, !byte_of_eqb.
  repeat (apply elem_of_cons in Hop as [-> | Hop]);
    [ | | | | apply elem_of_nil in Hop; contradiction ]; simpl;
    unfold bind; rewrite Hexec; reflexivity.
Qed.

(** C4 (amended): executing Equal, NotEqual or GreaterThan pops both
    operands; operands of different types give the error "both operands
    must have same type, had: <l> and <r>"; two Integers, and for Equal and
    NotEqual two Booleans, give the Boolean result of the comparison;
    GreaterThan on two Booleans gives the error "unexpected operation:
    <opcode>", and two operands of one other type give the error "unable to
    compare variables of type <l> and <r>". *)
Theorem C4_comparison (vm : VM) (opcode : Opcode) (l r : Object) :
  opcode ∈ [OpEqual; OpNotEqual; OpGreaterThan] ->
  len (stack vm) = StackSize ->
  index (stack vm) (sp vm - 2) = Some (Some l) ->
  index (stack vm) (sp vm - 1) = Some (Some r) ->
  executeComparison (byte_of opcode) vm
  = if negb (bool_decide (Type_ l = Type_ r)) then
      Err ("both operands must have same type, had: "
           +:+ type_name (Type_ l) +:+ " and " +:+ type_name (Type_ r))
        (popped2 vm)
    else
      match comparison opcode l r with
      | Some result => Ok tt (replaced_top2 vm (Boolean result))
      | None =>
          if bool_decide (Type_ r = BooleanType) then
            Err ("unexpected operation: " +:+ decimal (byte_of opcode))
              (popped2 vm)
          else
            Err ("unable to compare variables of type "
                 +:+ type_name (Type_ l) +:+ " and " +:+ type_name (Type_ r))
              (popped2 vm)
      end.
Proof.
  intros Hop Hlen Hl Hr.
  pose proof (fun o => push_popped2 vm _ o Hlen Hl) as Hpush.
  unfold executeComparison.
  rewrite (pop_pop vm _ _ Hl Hr). unfold typeOf, bind at 1, ret.
  unfold bind at 1. fold (popped2 vm).
  assert (Hint : forall a b,
    executeIntegerComparison (Some (Integer a)) (Some (Integer b))
      (byte_of opcode) (popped2 vm)
    = match comparison opcode (Integer a) (Integer b) with
      | Some result => Ok tt (replaced_top2 vm (Boolean result))
      | None => Panic
      end).
  { intros a b. unfold executeIntegerComparison, asInteger, bind, ret.
    rewrite !byte_of_eqb.
    repeat (apply elem_of_cons in Hop as [-> | Hop]);
      [ | | | apply elem_of_nil in Hop; contradiction ]; simpl.
    - rewrite Hpush. destruct (a =? b); reflexivity.
    - rewrite Hpush. destruct (a =? b); reflexivity.
    - rewrite Hpush. destruct (a >? b); reflexivity. }
  assert (Hbool : forall a b,
    executeBooleanComparison (Some (Boolean a)) (Some (Boolean b))
      (byte_of opcode) (popped2 vm)
    = match comparison opcode (Boolean a) (Boolean b) with
      | Some result => Ok tt (replaced_top2 vm (Boolean result))
      | None =>
          Err ("unexpected operation: " +:+ decimal (byte_of opcode))
            (popped2 vm)
      end).
  { intros a b. unfold executeBooleanComparison, asBoolean, bind, ret.
    rewrite !byte_of_eqb.
    repeat (apply elem_of_cons in Hop as [-> | Hop]);
      [ | | | apply elem_of_nil in Hop; contradiction ]; simpl.
    - rewrite Hpush. destruct (Bool.eqb a b); reflexivity.
    - rewrite Hpush. destruct (Bool.eqb a b); reflexivity.
    - reflexivity. }
  destruct l, r; simpl; try reflexivity.
  - rewrite Hint.
    repeat (apply elem_of_cons in Hop as [-> | Hop]);
      [ | | | apply elem_of_nil in Hop; contradiction ]; reflexivity.
  - rewrite Hbool. reflexivity.
  - destruct opcode; reflexivity.
  - destruct opcode; reflexivity.
  - destruct opcode; reflexivity.
  - destruct opcode; reflexivity.
  - destruct opcode; reflexivity.
  - destruct opcode; reflexivity.
  - destruct opcode; reflexivity.
Qed.
End BinaryFacts.


(** ** The compiler: what an emission does *)

(** The text of the infix operators with the opcode each is compiled to;
    [<] is compiled apart. *)
Definition operator_table : list (string * code.Opcode) :=
  [("+", code.OpAdd); ("-", code.OpSub); ("*", code.OpMul); ("/", code.OpDiv);
   ("==", code.OpEqual); ("!=", code.OpNotEqual); (">", code.OpGreaterThan)]%string.

Section EmitFacts.
Import code symbols compiler.
Context `{Numbering} `{object.Names} `{ast.Printer}.

(** The current scope of [c], if [scopeIndex] points at one. *)
Definition current (c : Compiler) : option CompilationScope :=
  index (scopes c) (scopeIndex c).

(** [c] with its current scope replaced by [scope]. *)
Definition with_scope (c : Compiler) (scope : CompilationScope) : Compiler :=
  {| constants := constants c;
     symbolTable := symbolTable c;
     scopes := <[Z.to_nat (scopeIndex c) := scope]> (scopes c);
     scopeIndex := scopeIndex c |}.

(** [scope] after one more instruction has been emitted into it. *)
Definition extended (scope : CompilationScope) (op : code.Opcode)
    (operands : list Z) : CompilationScope :=
  {| instructions := instructions scope ++ Make op operands;
     lastInstruction :=
       {| Opcode := byte_of op; Position := len (instructions scope) |};
     previousInstruction := lastInstruction scope |}.

Lemma currentScope_Ok c scope c' :
  currentScope c = Ok scope c' <-> current c = Some scope /\ c' = c.
Proof.
  unfold currentScope, current. destruct (index _ _); split.
  - intros [= <- <-]. auto.
  - intros [[= <-] ->]. reflexivity.
  - discriminate.
  - intros [[=] _].
Qed.

Lemma setCurrentScope_Ok c scope u c' :
  setCurrentScope scope c = Ok u c' <->
  is_Some (current c) /\ c' = with_scope c scope.
Proof.
  unfold setCurrentScope, current, with_scope.
  destruct (assign _ _ _) as [l|] eqn:Ha; split.
  - intros E. injection E as _ <-. apply assign_Some in Ha as [Hi ->].
    split; [apply index_is_Some; assumption | reflexivity].
  - intros [_ ->]. apply assign_Some in Ha as [_ ->]. destruct u. reflexivity.
  - discriminate.
  - intros [[s Hs] _]. apply index_lt in Hs.
    assert (Hn : assign (scopes c) (scopeIndex c) scope <> None).
    { unfold assign.
      destruct (Z.leb_spec 0 (scopeIndex c)), (Z.ltb_spec (scopeIndex c) (len (scopes c)));
        simpl; (discriminate || lia). }
    contradiction.
Qed.

Lemma current_with_scope c scope :
  is_Some (current c) -> current (with_scope c scope) = Some scope.
Proof.
  unfold current, with_scope. simpl. intros [s Hs].
  pose proof (index_lt _ _ _ Hs) as Hi. apply index_Some.
  split; [lia|]. apply list_lookup_insert_eq. unfold len in Hi. lia.
Qed.

Lemma with_scope_with_scope c scope1 scope2 :
  with_scope (with_scope c scope1) scope2 = with_scope c scope2.
Proof.
  unfold with_scope. simpl. rewrite list_insert_insert_eq. reflexivity.
Qed.

Lemma emit_Ok c op operands pos c' :
  emit op operands c = Ok pos c' <->
  exists scope,
    current c = Some scope /\ pos = len (instructions scope) /\
    c' = with_scope c (extended scope op operands).
Proof.
  unfold emit. split.
  - intros E. bind_inv E as scope c1 E1.
    apply currentScope_Ok in E1 as [Hs ->].
    bind_inv E as u c2 E2. apply setCurrentScope_Ok in E2 as [_ ->].
    injection E as <- <-. exists scope. auto.
  - intros (scope & Hs & -> & ->).
    assert (E1 : currentScope c = Ok scope c) by (apply currentScope_Ok; auto).
    rewrite (bind_Ok_intro _ _ _ _ _ E1).
    assert (E2 : setCurrentScope (extended scope op operands) c
                 = Ok tt (with_scope c (extended scope op operands))).
    { apply setCurrentScope_Ok. split; [rewrite Hs; eauto | reflexivity]. }
    unfold extended in E2. rewrite (bind_Ok_intro _ _ _ _ _ E2). reflexivity.
Qed.

Lemma emit__Ok c op operands c' :
  emit_ op operands c = Ok tt c' <->
  exists scope,
    current c = Some scope /\ c' = with_scope c (extended scope op operands).
Proof.
  unfold emit_. split.
  - intros E. bind_inv E as pos c1 E1. injection E as <-.
    apply emit_Ok in E1 as (scope & ? & _ & ?). eauto.
  - intros (scope & Hs & ->).
    assert (E : emit op operands c
                = Ok (len (instructions scope))
                    (with_scope c (extended scope op operands))).
    { apply emit_Ok. eauto. }
    rewrite (bind_Ok_intro _ _ _ _ _ E). reflexivity.
Qed.

Lemma extended_no_operands scope op :
  OperandWidths op = [] ->
  instructions (extended scope op []) = instructions scope ++ [byte_of op].
Proof. intros Hw. unfold extended, Make. simpl. rewrite Hw. reflexivity. Qed.

Lemma infixOpcode_table operator op :
  infixOpcode operator = Some op <-> (operator, op) ∈ operator_table.
Proof.
  unfold infixOpcode, operator_table. split.
  - repeat match goal with
           | |- context [String.eqb ?a ?b] =>
               destruct (String.eqb_spec a b) as [->|]
           end; intros [= <-]; set_solver.
  - intros Hin.
    repeat (apply elem_of_cons in Hin as [[= -> ->] | Hin]; [reflexivity|]).
    apply elem_of_nil in Hin. contradiction.
Qed.

(** The scoped compiler compiles an expression statement as its expression
    followed by one [Pop]. *)
Theorem Compile_expression_statement e c c' :
  Compile (ast.Stmt (ast.ExpressionStatement e)) c = Ok tt c' <->
  exists c1 scope,
    Compile (ast.Expr e) c = Ok tt c1 /\ current c1 = Some scope /\
    c' = with_scope c1 (extended scope OpPop []) /\
    instructions (extended scope OpPop [])
    = instructions scope ++ [byte_of OpPop].
Proof.
  simpl. split.
  - intros E. bind_inv E as u c1 E1. destruct u.
    apply emit__Ok in E as (scope & Hs & ->).
    exists c1, scope. repeat split; auto.
  - intros (c1 & scope & E1 & Hs & -> & _).
    rewrite (bind_Ok_intro _ _ _ _ _ E1). apply emit__Ok. eauto.
Qed.

(** C6: an infix expression with operator [<] compiles exactly when its
    right operand and then its left operand compile, and its code is the
    code of the right operand, then the code of the left operand, then one
    [GreaterThan]; an infix expression with another operator compiles
    exactly when the operator is one of the seven of the table and the left
    operand and then the right operand compile, and its code is the code of
    the left operand, then the right one, then the opcode of its operator. *)
Theorem C6_infix_operand_order (l r : ast.Expression) (operator : string)
    (c c' : Compiler) :
  (operator = "<"%string ->
   Compile (ast.Expr (ast.InfixExpression l operator r)) c = Ok tt c' <->
   exists c1 c2 scope,
     Compile (ast.Expr r) c = Ok tt c1 /\
     Compile (ast.Expr l) c1 = Ok tt c2 /\
     current c2 = Some scope /\
     c' = with_scope c2 (extended scope OpGreaterThan []) /\
     instructions (extended scope OpGreaterThan [])
     = instructions scope ++ [byte_of OpGreaterThan]) /\
  (operator <> "<"%string ->
   Compile (ast.Expr (ast.InfixExpression l operator r)) c = Ok tt c' <->
   exists op c1 c2 scope,
     (operator, op) ∈ operator_table /\
     Compile (ast.Expr l) c = Ok tt c1 /\
     Compile (ast.Expr r) c1 = Ok tt c2 /\
     current c2 = Some scope /\
     c' = with_scope c2 (extended scope op []) /\
     instructions (extended scope op []) = instructions scope ++ [byte_of op]).
Proof.
  simpl. split.
  - intros ->. simpl. split.
    + intros E. bind_inv E as u1 c1 E1. bind_inv E as u2 c2 E2.
      destruct u1, u2. apply emit__Ok in E as (scope & Hs & ->).
      exists c1, c2, scope. repeat split; auto.
    + intros (c1 & c2 & scope & E1 & E2 & Hs & -> & _).
      rewrite (bind_Ok_intro _ _ _ _ _ E1), (bind_Ok_intro _ _ _ _ _ E2).
      apply emit__Ok. eauto.
  - intros Hne.
    destruct (String.eqb_spec operator "<") as [|_]; [contradiction|]. split.
    + intros E. bind_inv E as u1 c1 E1. bind_inv E as u2 c2 E2.
      destruct u1, u2.
      destruct (infixOpcode operator) as [op|] eqn:Hop; [|discriminate E].
      apply emit__Ok in E as (scope & Hs & ->).
      apply infixOpcode_table in Hop.
      exists op, c1, c2, scope. repeat split; auto.
      apply extended_no_operands.
      unfold operator_table in Hop.
      repeat (apply elem_of_cons in Hop as [[= -> ->] | Hop]; [reflexivity|]).
      apply elem_of_nil in Hop. contradiction.
    + intros (op & c1 & c2 & scope & Hop & E1 & E2 & Hs & -> & _).
      rewrite (bind_Ok_intro _ _ _ _ _ E1), (bind_Ok_intro _ _ _ _ _ E2).
      apply infixOpcode_table in Hop. rewrite Hop.
      apply emit__Ok. eauto.
Qed.
End EmitFacts.

(** ** The compiler: function literals *)

Section FunctionFacts.
Import code symbols compiler.
Context `{Numbering} `{object.Names} `{ast.Printer}.

(** The first part of the [FunctionExpression] case: a fresh scope is
    entered, the parameters are defined and the body is compiled. *)
Definition Compile_body (parameters : list string) (body : list ast.Statement)
  : M Compiler unit :=
  enterScope ;;;
  forEach (fun parameter => withTable (Define parameter) ;;; ret tt) parameters ;;;
  forEach Compile_statement body.

Definition is_opcode (i : EmittedInstruction) (op : code.Opcode) : bool :=
  Opcode i =? byte_of op.

(** [scope] with the byte at the position of its last instruction
    overwritten by [ReturnValue], and the bookkeeping saying so. *)
Definition pop_replaced (scope : CompilationScope) : CompilationScope :=
  {| instructions :=
       <[Z.to_nat (Position (lastInstruction scope)) := byte_of OpReturnValue]>
         (instructions scope);
     lastInstruction :=
       {| Opcode := byte_of OpReturnValue;
          Position := Position (lastInstruction scope) |};
     previousInstruction := previousInstruction scope |}.

(** "If the last instruction is [Pop], replace it by [ReturnValue]." *)
Definition after_pop_fix (scope : CompilationScope) : CompilationScope :=
  if is_opcode (lastInstruction scope) OpPop then pop_replaced scope else scope.

(** "If the last instruction is not [ReturnValue], emit [Return]." *)
Definition after_return_fix (scope : CompilationScope) : CompilationScope :=
  if is_opcode (lastInstruction scope) OpReturnValue then scope
  else extended scope OpReturn [].

(** The instruction of [loadSymbol]. *)
Definition load_instruction (symbol : Symbol) : list Z :=
  match SymbolScope symbol with
  | GlobalScope => Make OpGetGlobal [Index symbol]
  | BuiltinScope => Make OpGetBuiltin [Index symbol]
  | FreeScope => Make OpGetFreeVar [Index symbol]
  | _ => Make OpGetLocal [Index symbol]
  end.

Lemma bind_assoc {S A B C} (m : M S A) (k : A -> M S B) (k' : B -> M S C) s :
  bind (bind m k) k' s = bind m (fun a => bind (k a) k') s.
Proof. unfold bind. destruct (m s); reflexivity. Qed.

Lemma with_scope_current c scope :
  current c = Some scope -> with_scope c scope = c.
Proof.
  unfold current, with_scope. intros [_ Hs]%index_Some.
  rewrite list_insert_id by assumption. destruct c. reflexivity.
Qed.

Lemma lastInstructionIs_Ok op c b c' :
  lastInstructionIs op c = Ok b c' ->
  exists scope,
    current c = Some scope /\ b = is_opcode (lastInstruction scope) op /\ c' = c.
Proof.
  unfold lastInstructionIs. intros E. bind_inv E as scope c1 E1.
  apply currentScope_Ok in E1 as [Hs ->]. injection E as <- <-. eauto.
Qed.

Lemma replaceLastPopWithReturn_Ok c u c' :
  replaceLastPopWithReturn c = Ok u c' ->
  exists scope,
    current c = Some scope /\
    0 <= Position (lastInstruction scope) < len (instructions scope) /\
    c' = with_scope c (pop_replaced scope).
Proof.
  unfold replaceLastPopWithReturn. intros E. bind_inv E as scope c1 E1.
  apply currentScope_Ok in E1 as [Hs ->].
  bind_inv E as u1 c2 E2. unfold replaceInstruction in E2.
  bind_inv E2 as scope' c3 E3. apply currentScope_Ok in E3 as [Hs' ->].
  rewrite Hs in Hs'. injection Hs' as <-.
  unfold Make in E2. simpl in E2.
  destruct (assign _ _ _) as [l|] eqn:Ha; [|discriminate E2].
  apply setCurrentScope_Ok in E2 as [Hsome ->].
  apply assign_Some in Ha as [Hpos ->].
  bind_inv E as scope2 c4 E4. apply currentScope_Ok in E4 as [Hs2 ->].
  rewrite current_with_scope in Hs2 by assumption. injection Hs2 as <-.
  apply setCurrentScope_Ok in E as [_ ->].
  rewrite with_scope_with_scope. simpl.
  exists scope. repeat split; auto; lia.
Qed.

Lemma withTable_read {A} (f : SymbolTable -> A) c a c' :
  withTable (fun t => (f t, t)) c = Ok a c' ->
  exists table, symbolTable c = Some table /\ a = f table /\ c' = c.
Proof.
  unfold withTable. destruct (symbolTable c) as [table|] eqn:Ht; [|discriminate].
  intros E. injection E as <- <-. exists table. repeat split.
  destruct c. simpl in *. subst. reflexivity.
Qed.

Lemma leaveScope_Ok c instructions' c' :
  leaveScope c = Ok instructions' c' ->
  exists table scope,
    symbolTable c = Some table /\ current c = Some scope /\
    instructions' = instructions scope /\
    constants c' = constants c /\ symbolTable c' = Outer table /\
    scopeIndex c' = scopeIndex c - 1 /\
    scopes c' = take (Z.to_nat (len (scopes c) - 1)) (scopes c).
Proof.
  unfold leaveScope, current.
  destruct (symbolTable c) as [table|]; [|discriminate].
  destruct (index _ _) as [scope|]; [|discriminate].
  destruct (slice_to _ _) as [l|] eqn:Hl; [|discriminate].
  apply slice_to_Some in Hl as [_ ->].
  intros E. injection E as <- <-. exists table, scope. repeat split.
Qed.

(** What the loads of the captured symbols add to the current scope. *)
Lemma loads_Ok free c scope c' :
  current c = Some scope ->
  forEach loadSymbol free c = Ok tt c' ->
  exists scope',
    current c' = Some scope' /\
    instructions scope'
    = instructions scope ++ concat (map load_instruction free) /\
    constants c' = constants c /\ symbolTable c' = symbolTable c /\
    scopeIndex c' = scopeIndex c.
Proof.
  revert c scope. induction free as [|symbol free IH]; intros c scope Hs; simpl.
  - intros E. injection E as <-. exists scope. rewrite app_nil_r. auto.
  - intros E. bind_inv E as u c1 E1. destruct u.
    assert (E2 : exists op,
               load_instruction symbol = Make op [Index symbol] /\
               emit_ op [Index symbol] c = Ok tt c1).
    { unfold loadSymbol, load_instruction in *.
      destruct (SymbolScope symbol); eauto. }
    destruct E2 as (op & Hload & E2).
    apply emit__Ok in E2 as (scope0 & Hs0 & ->).
    rewrite Hs in Hs0. injection Hs0 as <-.
    destruct (IH _ _ (current_with_scope c _ ltac:(rewrite Hs; eauto)) E)
      as (scope' & Hs' & Hi & Hc & Ht & Hx).
    exists scope'. simpl in *. rewrite Hi, Hload, <- app_assoc.
    repeat split; auto.
Qed.

(** The second part of the [FunctionExpression] case, step by step. *)
Lemma Function_anatomy ps b c c' :
  Compile_expression (ast.FunctionExpression ps b) c = Ok tt c' ->
  exists cb scope table cL,
    let compiled := after_return_fix (after_pop_fix scope) in
    let function :=
      object.CompiledFunction (instructions compiled) (numDefinitions table)
        (len ps) in
    Compile_body ps b c = Ok tt cb /\
    current cb = Some scope /\ symbolTable cb = Some table /\
    (is_opcode (lastInstruction scope) OpPop = true ->
     0 <= Position (lastInstruction scope) < len (instructions scope)) /\
    leaveScope (with_scope cb compiled) = Ok (instructions compiled) cL /\
    (forEach loadSymbol (FreeSymbols table) ;;;
     (let* i := addConstant function in
      emit_ OpClosure [i; len (FreeSymbols table)])) cL = Ok tt c'.
Proof.
  intros E. simpl in E.
  bind_inv E as u0 cE E0. bind_inv E as u1 c1 E1. bind_inv E as u2 cb E2.
  destruct u0, u1, u2.
  assert (Hbody : Compile_body ps b c = Ok tt cb).
  { unfold Compile_body. rewrite (bind_Ok_intro _ _ _ _ _ E0).
    rewrite (bind_Ok_intro _ _ _ _ _ E1). exact E2. }
  bind_inv E as isPop c3 E3.
  apply lastInstructionIs_Ok in E3 as (scope & Hs & -> & ->).
  bind_inv E as u4 c4 E4.
  assert (Hfix : c4 = with_scope cb (after_pop_fix scope) /\
                 (is_opcode (lastInstruction scope) OpPop = true ->
                  0 <= Position (lastInstruction scope)
                  < len (instructions scope))).
  { unfold after_pop_fix.
    destruct (is_opcode (lastInstruction scope) OpPop).
    - apply replaceLastPopWithReturn_Ok in E4 as (scope' & Hs' & Hpos & ->).
      rewrite Hs in Hs'. injection Hs' as <-. auto.
    - injection E4 as _ <-. rewrite with_scope_current by assumption.
      split; [reflexivity | discriminate]. }
  destruct Hfix as [-> Hpos]. clear E4.
  assert (Hsome : is_Some (current cb)) by (rewrite Hs; eauto).
  bind_inv E as isReturnValue c5 E5.
  apply lastInstructionIs_Ok in E5 as (scope1 & Hs1 & -> & ->).
  rewrite current_with_scope in Hs1 by assumption. injection Hs1 as <-.
  bind_inv E as u6 c6 E6. destruct u6.
  assert (Hret : c6 = with_scope cb (after_return_fix (after_pop_fix scope))).
  { unfold after_return_fix.
    destruct (is_opcode (lastInstruction (after_pop_fix scope)) OpReturnValue).
    - injection E6 as <-. reflexivity.
    - apply emit__Ok in E6 as (scope2 & Hs2 & ->).
      rewrite current_with_scope in Hs2 by assumption. injection Hs2 as <-.
      apply with_scope_with_scope. }
  subst c6. clear E6.
  bind_inv E as freeSymbols c7 E7.
  apply withTable_read in E7 as (table & Ht & -> & ->).
  bind_inv E as localCount c8 E8.
  apply withTable_read in E8 as (table' & Ht' & -> & ->).
  rewrite Ht in Ht'. injection Ht' as <-.
  bind_inv E as instructions' cL EL.
  assert (Hi : instructions'
               = instructions (after_return_fix (after_pop_fix scope))).
  { apply leaveScope_Ok in EL as (? & scope3 & _ & Hs3 & -> & _).
    rewrite current_with_scope in Hs3 by assumption. injection Hs3 as <-.
    reflexivity. }
  subst instructions'.
  exists cb, scope, table, cL. simpl.
  split; [exact Hbody|]. split; [exact Hs|]. split; [exact Ht|].
  split; [exact Hpos|]. split; [exact EL | exact E].
Qed.
End FunctionFacts.

Section FunctionClaims.
Import code symbols compiler.
Context `{Numbering} `{object.Names} `{ast.Printer}.

(** C7: after the body of a function literal has been compiled, a last
    instruction that the scope has on record as [Pop] is overwritten in place
    by [ReturnValue] (same position, same length, and the record of the last
    instruction then reads [ReturnValue]); after that step a [Return] is
    appended exactly when the last instruction on record is not
    [ReturnValue]; the result is the code of the compiled function. *)
Theorem C7_function_body_return (ps : list string) (b : list ast.Statement)
    (c c' : Compiler) :
  Compile (ast.Expr (ast.FunctionExpression ps b)) c = Ok tt c' ->
  exists cb scope localCount,
    let position := Position (lastInstruction scope) in
    let fixed := after_pop_fix scope in
    Compile_body ps b c = Ok tt cb /\ current cb = Some scope /\
    last (constants c')
    = Some (object.CompiledFunction (instructions (after_return_fix fixed))
              localCount (len ps)) /\
    (is_opcode (lastInstruction scope) OpPop = true ->
     0 <= position < len (instructions scope) /\
     instructions fixed
     = <[Z.to_nat position := byte_of OpReturnValue]> (instructions scope) /\
     index (instructions fixed) position = Some (byte_of OpReturnValue) /\
     len (instructions fixed) = len (instructions scope) /\
     lastInstruction fixed
     = {| Opcode := byte_of OpReturnValue; Position := position |} /\
     is_opcode (lastInstruction fixed) OpReturnValue = true) /\
    (is_opcode (lastInstruction scope) OpPop = false -> fixed = scope) /\
    (is_opcode (lastInstruction fixed) OpReturnValue = true ->
     instructions (after_return_fix fixed) = instructions fixed) /\
    (is_opcode (lastInstruction fixed) OpReturnValue = false ->
     instructions (after_return_fix fixed)
     = instructions fixed ++ [byte_of OpReturn]).
Proof.
  intros E. simpl in E.
  apply Function_anatomy in E as (cb & scope & table & cL & E).
  simpl in E. destruct E as (Hbody & Hs & Ht & Hpos & EL & E).
  exists cb, scope, (numDefinitions table). simpl.
  split; [exact Hbody|]. split; [exact Hs|]. split.
  { apply leaveScope_Ok in EL as (_ & _ & _ & _ & _ & HcL & _).
    simpl in HcL. bind_inv E as u c1 E1. destruct u.
    assert (Hc1 : constants c1 = constants cL).
    { destruct (current cL) as [s|] eqn:HsL.
      - destruct (loads_Ok _ _ _ _ HsL E1) as (_ & _ & _ & Hc & _). exact Hc.
      - destruct (FreeSymbols table) as [|symbol free].
        + injection E1 as <-. reflexivity.
        + simpl in E1. bind_inv E1 as u c2 E2. destruct u.
          assert (E3 : exists op operands, emit_ op operands cL = Ok tt c2).
          { unfold loadSymbol in E2. destruct (SymbolScope symbol); eauto. }
          destruct E3 as (op & operands & E3).
          apply emit__Ok in E3 as (s & Hs3 & _). congruence. }
    bind_inv E as i c2 E2. injection E2 as <- <-.
    apply emit__Ok in E as (s & _ & ->). simpl.
    rewrite Hc1, HcL. apply last_snoc. }
  split.
  { intros Hpop. specialize (Hpos Hpop). unfold after_pop_fix.
    rewrite Hpop. simpl. split; [exact Hpos|]. split; [reflexivity|].
    split.
    { apply index_Some. split; [lia|]. apply list_lookup_insert_eq.
      unfold len in Hpos. lia. }
    split; [unfold len; rewrite length_insert; reflexivity|].
    split; [reflexivity|]. unfold is_opcode. simpl. apply Z.eqb_refl. }
  split.
  { intros Hpop. unfold after_pop_fix. rewrite Hpop. reflexivity. }
  split.
  - intros Hret. unfold after_return_fix. rewrite Hret. reflexivity.
  - intros Hret. unfold after_return_fix. rewrite Hret.
    apply extended_no_operands. reflexivity.
Qed.

(** C1 (the symbol table is modelled from the spec): for a function
    literal, the compiler appends to the enclosing scope one load per
    captured symbol, in the order of the captured list of the function's
    table, immediately followed by [Closure fn_idx free_count]; each load is
    the instruction of the captured symbol itself, with its own scope and
    index, and that symbol is the binding of its name in the enclosing
    table, which is neither global nor built-in. *)
Theorem C1_closure_loads_captured (ps : list string) (b : list ast.Statement)
    (c c' : Compiler) :
  consistent c ->
  Compile (ast.Expr (ast.FunctionExpression ps b)) c = Ok tt c' ->
  exists cb table enclosing enclosing',
    let free := FreeSymbols table in
    Compile_body ps b c = Ok tt cb /\ symbolTable cb = Some table /\
    current c = Some enclosing /\ current c' = Some enclosing' /\
    instructions enclosing'
    = instructions enclosing ++ concat (map load_instruction free)
      ++ Make OpClosure [len (constants cb); len free] /\
    (exists code locals,
        index (constants c') (len (constants cb))
        = Some (object.CompiledFunction code locals (len ps))) /\
    symbolTable c' = Outer table /\
    Forall (fun symbol =>
              exists outer, Outer table = Some outer /\ bound_in outer symbol)
      free.
Proof.
  intros Hc E. simpl in E.
  apply Function_anatomy in E as (cb & scope & table & cL & E).
  simpl in E. destruct E as (Hbody & Hs & Ht & _ & EL & E).
  (* the state after the body is consistent, above the scopes of [c] *)
  pose proof Hbody as Hb. unfold Compile_body in Hb.
  destruct (consistent_enterScope c Hc)
    as (cE & HE & HcE & HsE & HiE & HkE & HtE).
  rewrite (bind_Ok_intro _ _ _ _ _ HE) in Hb.
  bind_inv Hb as u1 c1 E1.
  assert (Hparams : stable (forEach
            (fun parameter => withTable (Define parameter) ;;; ret tt) ps)).
  { apply stable_forEach. apply Forall_forall. intros p _.
    apply stable_bind; [apply stable_Define | intros; apply stable_ret]. }
  destruct (Hparams _ _ _ HcE E1) as [Hc1 Hf1].
  assert (Hstmts : stable (forEach Compile_statement b)).
  { apply stable_forEach. apply Forall_forall. intros s _.
    apply stable_Compile. }
  destruct (Hstmts _ _ _ Hc1 Hb) as [Hcb Hfb].
  pose proof (same_frame_trans _ _ _ Hf1 Hfb) as Hf.
  set (compiled := after_return_fix (after_pop_fix scope)) in *.
  assert (Hset : setCurrentScope compiled cb = Ok tt (with_scope cb compiled)).
  { apply setCurrentScope_Ok. split; [rewrite Hs; eauto | reflexivity]. }
  destruct (stable_setCurrentScope _ _ _ _ Hcb Hset) as [Hcw Hfw].
  pose proof (same_frame_trans _ _ _ Hf Hfw) as Hf'.
  destruct (leaveScope_spec _ _ _ _ _ Hc HsE HiE Hcw Hf' EL)
    as (HcL & HfL & HscopesL & HconstL & table' & scope' & Ht' & HtL & _).
  simpl in Ht', HconstL. rewrite Ht in Ht'. injection Ht' as <-.
  assert (Hcur : current cL = current c).
  { unfold current. destruct HfL as (-> & _). rewrite HscopesL. reflexivity. }
  bind_inv E as u c2 E2. destruct u.
  bind_inv E as i c3 E3. injection E3 as <- <-.
  apply emit__Ok in E as (closureScope & Hs3 & ->).
  destruct (current c) as [enclosing|] eqn:Henc.
  2:{ exfalso. destruct (FreeSymbols table) as [|symbol free].
      - injection E2 as <-. unfold current in *. simpl in Hs3. congruence.
      - simpl in E2. bind_inv E2 as u c4 E4. destruct u.
        assert (E5 : exists op operands, emit_ op operands cL = Ok tt c4).
        { unfold loadSymbol in E4. destruct (SymbolScope symbol); eauto. }
        destruct E5 as (op & operands & E5).
        apply emit__Ok in E5 as (s & Hs5 & _). congruence. }
  destruct (loads_Ok _ _ _ _ Hcur E2)
    as (loaded & Hloaded & Hinstr & Hconst & Htable & Hidx).
  unfold current in Hs3. simpl in Hs3. fold (current c2) in Hs3.
  rewrite Hloaded in Hs3. injection Hs3 as <-.
  exists cb, table, enclosing, (extended loaded OpClosure
    [len (constants c2 ++ [object.CompiledFunction (instructions compiled)
                             (numDefinitions table) (len ps)]) - 1;
     len (FreeSymbols table)]).
  simpl. split; [exact Hbody|]. split; [exact Ht|]. split; [reflexivity|].
  assert (Hlen : len (constants c2 ++
                        [object.CompiledFunction (instructions compiled)
                           (numDefinitions table) (len ps)]) - 1
                 = len (constants cb)).
  { rewrite len_app, Hconst, HconstL. unfold len. simpl. lia. }
  split.
  { apply current_with_scope. unfold current. simpl. fold (current c2).
    rewrite Hloaded. eauto. }
  split.
  { rewrite Hinstr, Hlen, <- app_assoc. reflexivity. }
  split.
  { eexists _, _. rewrite Hconst, HconstL.
    rewrite index_app_r by lia.
    replace (len (constants cb) - len (constants cb)) with 0 by lia.
    reflexivity. }
  split; [rewrite Htable; exact HtL|].
  destruct Hcb as [_ Htab]. unfold tables_ok in Htab. rewrite Ht in Htab.
  apply table_ok_unfold in Htab as [_ Hfree].
  destruct (Outer table) as [outer|].
  - destruct Hfree as [Hfree _]. eapply Forall_impl; [exact Hfree|].
    intros symbol Hb'. eauto.
  - rewrite Hfree. constructor.
Qed.
End FunctionClaims.

(** ** Compiled operator expressions on the machine *)

(** Expressions built from literals with prefix and infix operators. *)
Fixpoint operators_only (e : ast.Expression) : bool :=
  match e with
  | ast.Integer _ | ast.String _ | ast.Boolean _ => true
  | ast.PrefixExpression _ r => operators_only r
  | ast.InfixExpression l _ r => operators_only l && operators_only r
  | _ => false
  end.

(** The number of instructions such an expression compiles to. *)
Fixpoint turns (e : ast.Expression) : nat :=
  match e with
  | ast.PrefixExpression _ r => Datatypes.S (turns r)
  | ast.InfixExpression l _ r => Datatypes.S (turns l + turns r)
  | _ => 1
  end.

Section StackDiscipline.
Import code.
Context `{Numbering} `{object.Names} `{ast.Printer}.

(** The instructions of [ins] from [a] to [b] run in [n] turns of the loop
    and push one value, unless the run ends there with an error or a
    panic. *)
Definition pushes_one (ins : list Z) (consts : list object.Object)
    (n : nat) (a b : Z) : Prop :=
  forall vm fuel,
    vm.instructions vm = ins -> vm.constants vm = consts ->
    (exists vm',
        vm.loop (n + fuel) a vm = vm.loop fuel b vm' /\
        vm.instructions vm' = ins /\ vm.constants vm' = consts /\
        vm.sp vm' = vm.sp vm + 1 /\ 0 <= vm.sp vm /\
        exists o, index (vm.stack vm') (vm.sp vm) = Some (Some o)) \/
    (exists r, vm.loop (n + fuel) a vm = Some r /\ is_ok r = false).

Lemma Uint16_big_endian i post :
  vm.Uint16 (big_endian 2 i ++ post) = Some (i mod 65536).
Proof.
  simpl. f_equal.
  change 65536 with (256 * 256). rewrite Z.rem_mul_r by lia. lia.
Qed.

Lemma index_middle {A} (pre : list A) x post :
  index (pre ++ x :: post) (len pre) = Some x.
Proof.
  apply index_Some. split; [apply len_nonneg|].
  unfold len. rewrite Nat2Z.id. apply list_lookup_middle. reflexivity.
Qed.

Lemma drop_middle {A} (pre : list A) x post :
  drop (Z.to_nat (len pre + 1)) (pre ++ x :: post) = post.
Proof.
  unfold len. replace (Z.to_nat (Z.of_nat (length pre) + 1))
    with (length (pre ++ [x])) by (rewrite length_app; simpl; lia).
  change (pre ++ x :: post) with (pre ++ [x] ++ post).
  rewrite app_assoc. apply drop_app_length.
Qed.

Lemma loop_failed fuel a vm (r : Result vm.VM Z) :
  a < len (vm.instructions vm) ->
  vm.dispatch a vm = r -> is_ok r = false ->
  exists r', vm.loop (Datatypes.S fuel) a vm = Some r' /\ is_ok r' = false.
Proof.
  intros Ha <- Hr. rewrite loop_unfold by assumption.
  destruct (vm.dispatch a vm); [discriminate Hr | eauto..].
Qed.

(** One turn at an instruction that pushes [o]. *)
Lemma push_turn o ins consts a width :
  (forall vm, vm.instructions vm = ins -> vm.constants vm = consts ->
              vm.dispatch a vm = (vm.push o ;;; ret (a + width)) vm) ->
  a < len ins ->
  pushes_one ins consts 1 a (a + width + 1).
Proof.
  intros Hd Ha vm fuel Hi Hc. specialize (Hd vm Hi Hc).
  destruct (vm.push o vm) as [[] vm'| |] eqn:Hp.
  - left. exists vm'. simpl plus. rewrite loop_unfold by (rewrite Hi; exact Ha).
    rewrite Hd. unfold bind. rewrite Hp. simpl.
    apply push_Ok in Hp as (Hsp & _ & -> & Hidx). simpl in *.
    repeat split; eauto; lia.
  - right. eapply loop_failed; [rewrite Hi; exact Ha | exact Hd |].
    unfold bind. rewrite Hp. reflexivity.
  - right. eapply loop_failed; [rewrite Hi; exact Ha | exact Hd |].
    unfold bind. rewrite Hp. reflexivity.
Qed.

Lemma constant_turn pre i post consts :
  0 <= i < len consts ->
  pushes_one (pre ++ Make OpConstant [i] ++ post) consts 1
    (len pre) (len (pre ++ Make OpConstant [i])).
Proof.
  intros Hi.
  assert (Hj : 0 <= i mod 65536 < len consts).
  { pose proof (Z.mod_pos_bound i 65536 ltac:(lia)).
    pose proof (Z.mod_le i 65536 ltac:(lia) ltac:(lia)). lia. }
  destruct (index_is_Some consts _ Hj) as [constant Hconstant].
  replace (len (pre ++ Make OpConstant [i])) with (len pre + 2 + 1)
    by (rewrite len_app; unfold len; simpl; lia).
  apply (push_turn constant).
  - intros vm Hins Hc. unfold vm.dispatch. rewrite Hins, Hc.
    unfold Make. simpl app. rewrite index_middle, Z.eqb_refl, drop_middle.
    change (?x :: ?y :: post) with (big_endian 2 i ++ post).
    rewrite Uint16_big_endian, Hconstant. reflexivity.
  - rewrite len_app. unfold len. simpl. lia.
Qed.

Lemma boolean_turn pre (value : bool) post consts :
  let op := if value then OpTrue else OpFalse in
  pushes_one (pre ++ Make op [] ++ post) consts 1
    (len pre) (len (pre ++ Make op [])).
Proof.
  intros op.
  replace (len (pre ++ Make op [])) with (len pre + 0 + 1)
    by (rewrite len_app; unfold len; destruct value; simpl; lia).
  apply (push_turn (vm.nativeBoolToBoolean value)).
  - intros vm Hins Hc. unfold vm.dispatch. rewrite Hins.
    subst op. destruct value; unfold Make; simpl app;
      rewrite index_middle, !byte_of_eqb; simpl;
      rewrite Z.add_0_r; reflexivity.
  - rewrite len_app. unfold len. destruct value; simpl; lia.
Qed.

(** An operator after the code of its operands. *)
Lemma skipped_turn (ins : list Z) a op :
  index ins a = Some (byte_of op) -> op ∈ [OpBang; OpMinus] ->
  forall vm fuel,
    vm.instructions vm = ins ->
    vm.loop (Datatypes.S fuel) a vm = vm.loop fuel (a + 1) vm.
Proof.
  intros Ha Hop vm fuel Hins.
  rewrite loop_unfold by (rewrite Hins; apply index_lt in Ha; lia).
  rewrite (dispatch_not_implemented a vm (byte_of op)).
  - reflexivity.
  - rewrite Hins. exact Ha.
  - unfold implemented. intros Hin.
    apply list_elem_of_fmap in Hin as (op' & Heq & Hin).
    apply byte_of_inj in Heq as <-.
    unfold implemented_opcodes in Hin.
    repeat (apply elem_of_cons in Hop as [-> | Hop]);
      [ | | apply elem_of_nil in Hop; contradiction ];
      repeat (apply elem_of_cons in Hin as [[=] | Hin]);
      apply elem_of_nil in Hin; contradiction.
Qed.

Lemma binary_dispatch a vm op :
  index (vm.instructions vm) a = Some (byte_of op) ->
  op ∈ [OpAdd; OpSub; OpMul; OpDiv; OpEqual; OpNotEqual; OpGreaterThan] ->
  exists m,
    (exists opcode, m = vm.executeBinaryIntegerOperation opcode \/
                    m = vm.executeComparison opcode) /\
    vm.dispatch a vm = (m ;;; ret a) vm.
Proof.
  intros Ha Hop. unfold vm.dispatch. rewrite Ha, !byte_of_eqb.
  repeat (apply elem_of_cons in Hop as [-> | Hop]);
    [ | | | | | | | apply elem_of_nil in Hop; contradiction ]; simpl;
    eexists; (split; [eexists; (left + right); reflexivity | reflexivity]).
Qed.

Lemma binary_turn ins consts a op vm fuel :
  index ins a = Some (byte_of op) ->
  op ∈ [OpAdd; OpSub; OpMul; OpDiv; OpEqual; OpNotEqual; OpGreaterThan] ->
  vm.instructions vm = ins -> vm.constants vm = consts ->
  (exists vm',
      vm.loop (Datatypes.S fuel) a vm = vm.loop fuel (a + 1) vm' /\
      vm.instructions vm' = ins /\ vm.constants vm' = consts /\
      vm.sp vm' = vm.sp vm - 1 /\ 0 <= vm.sp vm - 2 /\
      exists o, index (vm.stack vm') (vm.sp vm - 2) = Some (Some o)) \/
  (exists r, vm.loop (Datatypes.S fuel) a vm = Some r /\ is_ok r = false).
Proof.
  intros Ha Hop Hins Hc.
  assert (Hlt : a < len (vm.instructions vm))
    by (rewrite Hins; apply index_lt in Ha; lia).
  rewrite <- Hins in Ha.
  destruct (binary_dispatch a vm op Ha Hop) as (m & Hm & Hd).
  destruct (m vm) as [[] vm'| |] eqn:Hr.
  - left. exists vm'. rewrite loop_unfold by assumption. rewrite Hd.
    unfold bind. rewrite Hr. simpl.
    apply binary_Ok in Hr as (Hsp & Hge & Hi & Hk & Ho); [|exact Hm].
    repeat split; auto; congruence.
  - right. eapply loop_failed; [assumption | exact Hd |].
    unfold bind. rewrite Hr. reflexivity.
  - right. eapply loop_failed; [assumption | exact Hd |].
    unfold bind. rewrite Hr. reflexivity.
Qed.
End StackDiscipline.

Section StackDisciplineClaim.
Import code.
Context `{Numbering} `{object.Names} `{ast.Printer}.

Lemma prefix_sequence ins consts n a0 a1 op :
  pushes_one ins consts n a0 a1 ->
  index ins a1 = Some (byte_of op) -> op ∈ [OpBang; OpMinus] ->
  pushes_one ins consts (Datatypes.S n) a0 (a1 + 1).
Proof.
  intros Hoperand Ha Hop vm fuel Hins Hc.
  replace (Datatypes.S n + fuel)%nat with (n + Datatypes.S fuel)%nat by lia.
  destruct (Hoperand vm (Datatypes.S fuel) Hins Hc)
    as [(vm1 & -> & Hi1 & Hc1 & Hsp1 & Hge & Ho) | Hfail]; [|right; exact Hfail].
  left. exists vm1.
  rewrite (skipped_turn ins a1 op Ha Hop vm1 fuel Hi1). auto 10.
Qed.

Lemma infix_sequence ins consts n1 n2 a0 a1 a2 op :
  pushes_one ins consts n1 a0 a1 ->
  pushes_one ins consts n2 a1 a2 ->
  index ins a2 = Some (byte_of op) ->
  op ∈ [OpAdd; OpSub; OpMul; OpDiv; OpEqual; OpNotEqual; OpGreaterThan] ->
  pushes_one ins consts (Datatypes.S (n1 + n2)) a0 (a2 + 1).
Proof.
  intros Hfirst Hsecond Ha Hop vm fuel Hins Hc.
  replace (Datatypes.S (n1 + n2) + fuel)%nat
    with (n1 + (n2 + Datatypes.S fuel))%nat by lia.
  destruct (Hfirst vm (n2 + Datatypes.S fuel)%nat Hins Hc)
    as [(vm1 & -> & Hi1 & Hc1 & Hsp1 & Hge1 & _) | Hfail];
    [|right; exact Hfail].
  destruct (Hsecond vm1 (Datatypes.S fuel) Hi1 Hc1)
    as [(vm2 & -> & Hi2 & Hc2 & Hsp2 & _ & _) | Hfail];
    [|right; exact Hfail].
  destruct (binary_turn ins consts a2 op vm2 fuel Ha Hop Hi2 Hc2)
    as [(vm3 & -> & Hi3 & Hc3 & Hsp3 & _ & o & Ho) | Hfail];
    [|right; exact Hfail].
  left. exists vm3.
  replace (vm.sp vm2 - 2) with (vm.sp vm) in Ho by lia.
  repeat split; eauto; lia.
Qed.

(** The code of an expression is appended to the current scope, with its
    constants appended to the pool, and pushes one value when run. *)
Definition pushing (e : ast.Expression) : Prop :=
  forall c scope c',
    current c = Some scope ->
    compiler.Compile_expression e c = Ok tt c' ->
    exists scope' code ks,
      current c' = Some scope' /\
      compiler.instructions scope' = compiler.instructions scope ++ code /\
      compiler.constants c' = compiler.constants c ++ ks /\
      (turns e <= length code)%nat /\
      forall post kpost,
        pushes_one ((compiler.instructions scope ++ code) ++ post)
          ((compiler.constants c ++ ks) ++ kpost) (turns e)
          (len (compiler.instructions scope))
          (len (compiler.instructions scope ++ code)).

Lemma operators_only_compile e : operators_only e = true -> pushing e.
Proof.
  assert (Hliteral : forall (o : object.Object) c scope c',
    current c = Some scope ->
    (let* i := compiler.addConstant o in compiler.emit_ OpConstant [i]) c
    = Ok tt c' ->
    exists scope' code ks,
      current c' = Some scope' /\
      compiler.instructions scope' = compiler.instructions scope ++ code /\
      compiler.constants c' = compiler.constants c ++ ks /\
      (1 <= length code)%nat /\
      forall post kpost,
        pushes_one ((compiler.instructions scope ++ code) ++ post)
          ((compiler.constants c ++ ks) ++ kpost) 1
          (len (compiler.instructions scope))
          (len (compiler.instructions scope ++ code))).
  { intros o c scope c' Hs E. bind_inv E as i c1 E1.
    injection E1 as <- <-.
    apply emit__Ok in E as (scope1 & Hs1 & ->).
    unfold current in Hs1. simpl in Hs1. fold (current c) in Hs1.
    rewrite Hs in Hs1. injection Hs1 as <-.
    set (i := len (compiler.constants c ++ [o]) - 1).
    exists (extended scope OpConstant [i]), (Make OpConstant [i]), [o].
    split; [apply current_with_scope; unfold current; simpl;
            fold (current c); rewrite Hs; eauto|].
    split; [reflexivity|]. split; [reflexivity|].
    split; [simpl; lia|].
    intros post kpost. rewrite <- app_assoc. apply constant_turn.
    subst i. rewrite !len_app. unfold len. simpl. lia. }
  induction e; unfold pushing; simpl; try discriminate.
  - (* Integer *) intros _. apply Hliteral.
  - (* String *) intros _. apply Hliteral.
  - (* Boolean *)
    intros _ c scope c' Hs E.
    assert (E' : compiler.emit_ (if Value then OpTrue else OpFalse) [] c
                 = Ok tt c') by (destruct Value; exact E).
    apply emit__Ok in E' as (scope0 & Hs0 & ->).
    rewrite Hs in Hs0. injection Hs0 as <-.
    exists (extended scope (if Value then OpTrue else OpFalse) []),
      (Make (if Value then OpTrue else OpFalse) []), [].
    split; [apply current_with_scope; rewrite Hs; eauto|].
    split; [reflexivity|]. split; [rewrite app_nil_r; reflexivity|].
    split; [simpl; lia|].
    intros post kpost. rewrite <- app_assoc. apply boolean_turn.
  - (* Prefix *)
    intros He c scope c' Hs E. bind_inv E as u c1 E1. destruct u.
    destruct (IHe He _ _ _ Hs E1)
      as (scope1 & code1 & ks1 & Hs1 & Hi1 & Hk1 & Hn1 & Hrun1).
    destruct (compiler.prefixOpcode Operator) as [op|] eqn:Hop;
      [|discriminate E].
    apply emit__Ok in E as (scope0 & Hs0 & ->).
    rewrite Hs1 in Hs0. injection Hs0 as <-.
    assert (Hin : op ∈ [OpBang; OpMinus]).
    { unfold compiler.prefixOpcode in Hop.
      repeat match type of Hop with
             | (if ?b then _ else _) = _ => destruct b
             end; try discriminate Hop; injection Hop as <-; set_solver. }
    assert (Hw : Make op [] = [byte_of op]).
    { repeat (apply elem_of_cons in Hin as [-> | Hin]);
        [reflexivity | reflexivity | apply elem_of_nil in Hin; contradiction]. }
    exists (extended scope1 op []), (code1 ++ [byte_of op]), ks1.
    split; [apply current_with_scope; rewrite Hs1; eauto|].
    split; [simpl; rewrite Hi1, Hw, app_assoc; reflexivity|].
    split; [exact Hk1|].
    split; [rewrite length_app; simpl; lia|].
    intros post kpost.
    replace (len (compiler.instructions scope ++ code1 ++ [byte_of op]))
      with (len (compiler.instructions scope ++ code1) + 1)
      by (rewrite !len_app; unfold len; simpl; lia).
    eapply prefix_sequence; [| |exact Hin].
    + replace ((compiler.instructions scope ++ code1 ++ [byte_of op]) ++ post)
        with ((compiler.instructions scope ++ code1) ++ [byte_of op] ++ post)
        by (rewrite <- !app_assoc; reflexivity).
      apply Hrun1.
    + replace ((compiler.instructions scope ++ code1 ++ [byte_of op]) ++ post)
        with ((compiler.instructions scope ++ code1) ++ byte_of op :: post)
        by (rewrite <- !app_assoc; reflexivity).
      apply index_middle.
  - (* Infix *)
    intros [He1 He2]%andb_prop c scope c' Hs E.
    assert (Hboth : exists first second op c1 c2,
      (turns first + turns second = turns e1 + turns e2)%nat /\
      pushing first /\ pushing second /\
      compiler.Compile_expression first c = Ok tt c1 /\
      compiler.Compile_expression second c1 = Ok tt c2 /\
      compiler.emit_ op [] c2 = Ok tt c' /\
      op ∈ [OpAdd; OpSub; OpMul; OpDiv; OpEqual; OpNotEqual; OpGreaterThan]).
    { destruct (String.eqb Operator "<").
      - bind_inv E as u1 c1 E1. bind_inv E as u2 c2 E2. destruct u1, u2.
        exists e2, e1, OpGreaterThan, c1, c2.
        split; [lia|]. split; [exact (IHe2 He2)|]. split; [exact (IHe1 He1)|].
        repeat split; auto. repeat constructor.
      - bind_inv E as u1 c1 E1. bind_inv E as u2 c2 E2. destruct u1, u2.
        destruct (compiler.infixOpcode Operator) as [op|] eqn:Hop;
          [|discriminate E].
        exists e1, e2, op, c1, c2.
        split; [lia|]. split; [exact (IHe1 He1)|]. split; [exact (IHe2 He2)|].
        repeat split; auto.
        apply infixOpcode_table in Hop. unfold operator_table in Hop.
        repeat (apply elem_of_cons in Hop as [[= _ ->] | Hop];
                [repeat constructor|]).
        apply elem_of_nil in Hop. contradiction. }
    destruct Hboth
      as (first & second & op & c1 & c2 & Hturns & IH1 & IH2 & E1 & E2 & E3 & Hin).
    destruct (IH1 _ _ _ Hs E1)
      as (scope1 & code1 & ks1 & Hs1 & Hi1 & Hk1 & Hn1 & Hrun1).
    destruct (IH2 _ _ _ Hs1 E2)
      as (scope2 & code2 & ks2 & Hs2 & Hi2 & Hk2 & Hn2 & Hrun2).
    apply emit__Ok in E3 as (scope0 & Hs0 & ->).
    rewrite Hs2 in Hs0. injection Hs0 as <-.
    assert (Hw : Make op [] = [byte_of op]).
    { repeat (apply elem_of_cons in Hin as [-> | Hin]); try reflexivity.
      apply elem_of_nil in Hin. contradiction. }
    exists (extended scope2 op []), (code1 ++ code2 ++ [byte_of op]), (ks1 ++ ks2).
    split; [apply current_with_scope; rewrite Hs2; eauto|].
    split; [simpl; rewrite Hi2, Hi1, Hw, <- !app_assoc; reflexivity|].
    split; [simpl; rewrite Hk2, Hk1, <- app_assoc; reflexivity|].
    split; [rewrite !length_app; simpl; lia|].
    intros post kpost.
    replace (len (compiler.instructions scope ++ code1 ++ code2 ++ [byte_of op]))
      with (len ((compiler.instructions scope ++ code1) ++ code2) + 1)
      by (rewrite !len_app; unfold len; simpl; lia).
    rewrite <- Hturns.
    eapply infix_sequence; [| | |exact Hin].
    + replace ((compiler.instructions scope ++ code1 ++ code2 ++ [byte_of op])
               ++ post)
        with ((compiler.instructions scope ++ code1)
              ++ (code2 ++ [byte_of op] ++ post))
        by (rewrite <- !app_assoc; reflexivity).
      replace ((compiler.constants c ++ ks1 ++ ks2) ++ kpost)
        with ((compiler.constants c ++ ks1) ++ (ks2 ++ kpost))
        by (rewrite <- !app_assoc; reflexivity).
      apply Hrun1.
    + replace ((compiler.instructions scope ++ code1 ++ code2 ++ [byte_of op])
               ++ post)
        with ((compiler.instructions scope1 ++ code2) ++ ([byte_of op] ++ post))
        by (rewrite Hi1, <- !app_assoc; reflexivity).
      replace ((compiler.constants c ++ ks1 ++ ks2) ++ kpost)
        with ((compiler.constants c1 ++ ks2) ++ kpost)
        by (rewrite Hk1, <- !app_assoc; reflexivity).
      replace (len (compiler.instructions scope ++ code1))
        with (len (compiler.instructions scope1)) by (rewrite Hi1; reflexivity).
      replace (len ((compiler.instructions scope ++ code1) ++ code2))
        with (len (compiler.instructions scope1 ++ code2))
        by (rewrite Hi1; reflexivity).
      apply Hrun2.
    + replace ((compiler.instructions scope ++ code1 ++ code2 ++ [byte_of op])
               ++ post)
        with (((compiler.instructions scope ++ code1) ++ code2)
              ++ byte_of op :: post)
        by (rewrite <- !app_assoc; reflexivity).
      apply index_middle.
Qed.
End StackDisciplineClaim.

Section Programs.
Import code.
Context `{Numbering} `{object.Names} `{ast.Printer}.

(** A program of one expression statement, compiled by a new compiler. *)
Definition compile_program (e : ast.Expression) : Result compiler.Compiler compiler.Bytecode :=
  (compiler.Compile (ast.Program [ast.ExpressionStatement e]) ;;;
   compiler.GetBytecode) compiler.New.

(** A new machine for a bytecode, run. *)
Definition run_bytecode (bytecode : compiler.Bytecode) : option (Result vm.VM unit) :=
  vm.Run (vm.New (compiler.Instructions bytecode) (compiler.Constants bytecode)).

(** C5 (amended): for a program that is one expression statement whose
    expression is built from literals with prefix and infix operators, if it
    compiles and [Run] returns without error, then the stack pointer is 0
    and [LastPoppedStackElement] returns a value that is not nil. *)
Theorem C5_stack_discipline (e : ast.Expression) (bytecode : compiler.Bytecode)
    (c' : compiler.Compiler) (vm' : vm.VM) :
  operators_only e = true ->
  compile_program e = Ok bytecode c' ->
  run_bytecode bytecode = Some (Ok tt vm') ->
  vm.sp vm' = 0 /\
  exists o, vm.LastPoppedStackElement vm' = Some (Some o).
Proof.
  intros He Hcompile Hrun. unfold compile_program in Hcompile.
  bind_inv Hcompile as u c1 E1. destruct u. simpl in E1.
  bind_inv E1 as u c2 E2. destruct u. injection E1 as <-.
  bind_inv E2 as u c3 E3. destruct u.
  assert (Hnew : current compiler.New = Some compiler.emptyScope) by reflexivity.
  destruct (operators_only_compile e He _ _ _ Hnew E3)
    as (scope3 & code & ks & Hs3 & Hi3 & Hk3 & Hn & Hpush).
  simpl in Hi3, Hk3.
  apply emit__Ok in E2 as (scope0 & Hs0 & ->).
  rewrite Hs3 in Hs0. injection Hs0 as <-.
  unfold compiler.GetBytecode in Hcompile.
  bind_inv Hcompile as scope c4 E4. apply currentScope_Ok in E4 as [Hs ->].
  rewrite current_with_scope in Hs by (rewrite Hs3; eauto).
  injection Hs as <-. injection Hcompile as <- <-.
  unfold run_bytecode, vm.Run in Hrun. simpl in Hrun.
  rewrite Hi3, Hk3 in Hrun. unfold Make in Hrun. simpl in Hrun.
  set (ins := code ++ [byte_of OpPop]) in *.
  set (machine := vm.New ins ks) in *.
  replace (length ins) with (turns e + Datatypes.S (length code - turns e))%nat
    in Hrun by (subst ins; rewrite length_app; simpl; lia).
  specialize (Hpush [byte_of OpPop] []). simpl in Hpush.
  rewrite app_nil_r in Hpush. change (len (@nil Z)) with 0 in Hpush.
  destruct (Hpush machine (Datatypes.S (length code - turns e)) eq_refl eq_refl)
    as [(vm1 & Hloop & Hi1 & Hc1 & Hsp1 & _ & o & Ho) | (r & Hr & Hfail)].
  2:{ rewrite Hr in Hrun. injection Hrun as ->. discriminate Hfail. }
  rewrite Hloop in Hrun. clear Hloop.
  assert (Hat : index (vm.instructions vm1) (len code) = Some (byte_of OpPop)).
  { rewrite Hi1. subst ins. apply index_middle. }
  rewrite loop_unfold in Hrun
    by (rewrite Hi1; subst ins; rewrite len_app; unfold len; simpl; lia).
  assert (Hd : vm.dispatch (len code) vm1
               = Ok (len code) (vm.set_stack vm1 (vm.stack vm1) 0)).
  { unfold vm.dispatch. rewrite Hat, !byte_of_eqb. simpl.
    unfold bind, vm.pop. rewrite Hsp1. simpl.
    replace (0 + 1 - 1) with 0 by lia.
    change (vm.sp machine) with 0 in Ho. rewrite Ho. reflexivity. }
  rewrite Hd in Hrun.
  rewrite loop_end in Hrun
    by (simpl; rewrite Hi1; subst ins; rewrite len_app; unfold len; simpl; lia).
  injection Hrun as <-. simpl. split; [reflexivity|].
  exists o. exact Ho.
Qed.
End Programs.

(** ** Hash literals: the order of the pairs *)

Section StringOrder.

Lemma ascii_compare_refl a : Ascii.compare a a = Eq.
Proof. unfold Ascii.compare. apply N.compare_refl. Qed.

Lemma string_compare_trans s1 s2 s3 :
  String.compare s1 s2 = Lt -> String.compare s2 s3 = Lt ->
  String.compare s1 s3 = Lt.
Proof.
  revert s2 s3. induction s1 as [|a s1 IH]; intros [|b s2] [|c s3]; simpl;
    try congruence.
  destruct (Ascii.compare a b) eqn:Hab; try discriminate;
    destruct (Ascii.compare b c) eqn:Hbc; try discriminate; intros H1 H2.
  - apply Ascii.compare_eq_iff in Hab, Hbc. subst.
    rewrite ascii_compare_refl. eapply IH; eassumption.
  - apply Ascii.compare_eq_iff in Hab. subst. rewrite Hbc. reflexivity.
  - apply Ascii.compare_eq_iff in Hbc. subst. rewrite Hab. reflexivity.
  - unfold Ascii.compare in *. rewrite N.compare_lt_iff in Hab, Hbc.
    assert (Hac : (Ascii.N_of_ascii a ?= Ascii.N_of_ascii c)%N = Lt)
      by (apply N.compare_lt_iff; lia).
    rewrite Hac. reflexivity.
Qed.

Lemma string_ltb_asym s1 s2 :
  String.ltb s1 s2 = true -> String.ltb s2 s1 = false.
Proof.
  unfold String.ltb. rewrite (String.compare_antisym s2 s1).
  destruct (String.compare s1 s2); simpl; congruence.
Qed.

Lemma string_ltb_total s1 s2 :
  String.ltb s1 s2 = false -> String.ltb s2 s1 = false -> s1 = s2.
Proof.
  unfold String.ltb. rewrite (String.compare_antisym s2 s1).
  destruct (String.compare s1 s2) eqn:Hc; simpl; try congruence.
  intros _ _. apply String.compare_eq_iff. exact Hc.
Qed.

Lemma string_ltb_cotrans s1 s2 s3 :
  String.ltb s1 s3 = true ->
  String.ltb s1 s2 = true \/ String.ltb s2 s3 = true.
Proof.
  intros H13.
  destruct (String.ltb s1 s2) eqn:H12; [left; reflexivity|].
  destruct (String.ltb s2 s3) eqn:H23; [right; reflexivity|].
  exfalso. unfold String.ltb in *.
  destruct (String.compare s1 s3) eqn:C13; try discriminate H13.
  destruct (String.compare s1 s2) eqn:C12; try discriminate H12.
  - apply String.compare_eq_iff in C12. subst. rewrite C13 in H23.
    discriminate H23.
  - rewrite (String.compare_antisym s1 s2) in C12.
    destruct (String.compare s2 s1) eqn:C21; try discriminate C12.
    pose proof (string_compare_trans _ _ _ C21 C13) as C23.
    rewrite C23 in H23. discriminate H23.
Qed.
End StringOrder.

Section InsertionSort.
Context {A : Type} (less : A -> A -> bool).
Hypothesis less_asym : forall x y, less x y = true -> less y x = false.
Hypothesis less_cotrans :
  forall x y z, less x z = true -> less x y = true \/ less y z = true.

(** The order of the sorted prefix, read from its last element back. *)
Definition descending (x y : A) : Prop := less x y = false.

Definition sorted_prefix (l : list A) : list A :=
  fold_left (fun prefix_rev x => sort.sink less x prefix_rev) l [].

Lemma sink_descending x l :
  StronglySorted descending l -> StronglySorted descending (sort.sink less x l).
Proof.
  induction 1 as [|y l Hl IH Hy]; simpl.
  - repeat constructor.
  - destruct (less x y) eqn:Hxy.
    + constructor; [exact IH|].
      rewrite sink_Permutation. constructor; [|exact Hy].
      apply less_asym. exact Hxy.
    + constructor; [constructor; assumption|].
      constructor; [exact Hxy|].
      eapply Forall_impl; [exact Hy|]. intros z Hyz. unfold descending in *.
      destruct (less x z) eqn:Hxz; [|reflexivity].
      destruct (less_cotrans _ y _ Hxz); congruence.
Qed.

Lemma fold_sink_descending l acc :
  StronglySorted descending acc ->
  StronglySorted descending
    (fold_left (fun prefix_rev x => sort.sink less x prefix_rev) l acc).
Proof.
  revert acc. induction l as [|x l IH]; intros acc Hacc; simpl.
  - exact Hacc.
  - apply IH. apply sink_descending. exact Hacc.
Qed.

Lemma sorted_prefix_Permutation l : sorted_prefix l ≡ₚ l.
Proof.
  unfold sorted_prefix.
  assert (G : forall acc,
             fold_left (fun p x => sort.sink less x p) l acc ≡ₚ acc ++ l).
  { induction l as [|x l IH]; intros acc; simpl.
    - rewrite app_nil_r. reflexivity.
    - rewrite IH, sink_Permutation. simpl. apply Permutation_middle. }
  apply (G []).
Qed.

(** Where no two elements tie, [sort.Slice] gives one result for every
    order of the input. *)
Lemma Slice_unique l1 l2 :
  l1 ≡ₚ l2 ->
  (forall x y, x ∈ l1 -> y ∈ l1 -> less x y = false -> less y x = false ->
               x = y) ->
  sort.Slice less l1 = sort.Slice less l2.
Proof.
  intros Hperm Hties. unfold sort.Slice. f_equal.
  change (sorted_prefix l1 = sorted_prefix l2).
  apply (StronglySorted_unique_strong descending).
  - intros x y Hx Hy Hxy Hyx.
    rewrite sorted_prefix_Permutation in Hx, Hy. rewrite <- Hperm in Hy.
    apply Hties; assumption.
  - apply fold_sink_descending. constructor.
  - apply fold_sink_descending. constructor.
  - rewrite !sorted_prefix_Permutation. exact Hperm.
Qed.
End InsertionSort.

Section HashFacts.
Import code.
Context `{Numbering} `{object.Names} `{ast.Printer}.

(** What [Compile] does for one pair of a hash literal, filed under the text
    of its key. *)
Definition hash_entry (pair : ast.Expression * ast.Expression)
  : string * M compiler.Compiler unit :=
  (ast.String_ (fst pair),
   compiler.Compile_expression (fst pair) ;;;
   compiler.Compile_expression (snd pair)).

Lemma Compile_Hash pairs :
  compiler.Compile_expression (ast.Hash pairs)
  = (forEach snd (compiler.sortKeys (map hash_entry pairs)) ;;;
     compiler.emit_ OpHash [len pairs * 2]).
Proof.
  simpl. f_equal. f_equal. f_equal.
  induction pairs as [|[k v] l IH]; simpl; [reflexivity|].
  rewrite <- IH. reflexivity.
Qed.

Lemma NoDup_fmap_eq {A B} (f : A -> B) (l : list A) x y :
  NoDup (map f l) -> x ∈ l -> y ∈ l -> f x = f y -> x = y.
Proof.
  induction l as [|z l IH]; simpl; intros Hnd Hx Hy Hf.
  - apply elem_of_nil in Hx. contradiction.
  - apply NoDup_cons in Hnd as [Hz Hnd].
    apply elem_of_cons in Hx as [-> | Hx];
      apply elem_of_cons in Hy as [-> | Hy]; auto.
    + exfalso. apply Hz. rewrite Hf. apply list_elem_of_fmap. eauto.
    + exfalso. apply Hz. rewrite <- Hf. apply list_elem_of_fmap. eauto.
Qed.

(** A hash literal whose keys all print differently compiles the same way
    in whatever order its pairs are enumerated. *)
Theorem Hash_deterministic pairs pairs' c :
  pairs ≡ₚ pairs' ->
  NoDup (map (fun pair => ast.String_ (fst pair)) pairs) ->
  compiler.Compile (ast.Expr (ast.Hash pairs)) c
  = compiler.Compile (ast.Expr (ast.Hash pairs')) c.
Proof.
  intros Hperm Hkeys. unfold compiler.Compile.
  rewrite !Compile_Hash. unfold compiler.sortKeys.
  assert (Hlen : len pairs = len pairs').
  { unfold len. rewrite (Permutation_length Hperm). reflexivity. }
  rewrite Hlen.
  assert (Hsort :
    sort.Slice (fun x y : string * M compiler.Compiler unit =>
                  String.ltb (fst x) (fst y)) (map hash_entry pairs)
    = sort.Slice (fun x y => String.ltb (fst x) (fst y))
        (map hash_entry pairs')).
  { apply Slice_unique.
    - intros x y. apply string_ltb_asym.
    - intros x y z. apply string_ltb_cotrans.
    - apply Permutation_map. exact Hperm.
    - intros x y Hx Hy Hxy Hyx.
      apply list_elem_of_fmap in Hx as (p & -> & Hp).
      apply list_elem_of_fmap in Hy as (q & -> & Hq).
      simpl in Hxy, Hyx. f_equal.
      eapply (NoDup_fmap_eq (fun pair => ast.String_ (fst pair)));
        [exact Hkeys | exact Hp | exact Hq |].
      apply string_ltb_total; assumption. }
  rewrite Hsort. reflexivity.
Qed.
End HashFacts.

Section NewFacts.
Context `{code.Numbering} `{object.Names} `{ast.Printer}.

Lemma table_ok_defineBuiltins names i t :
  table_ok t -> table_ok (compiler.defineBuiltins i names t).
Proof.
  revert i t. induction names as [|name names IH]; intros i t Ht; simpl.
  - exact Ht.
  - apply IH. apply table_ok_DefineBuiltin. exact Ht.
Qed.

(** A new compiler is in a consistent state, and [Compile] keeps it so. *)
Lemma consistent_New : consistent compiler.New.
Proof.
  split; [reflexivity|]. unfold tables_ok, compiler.New.
  cbn [compiler.symbolTable]. apply table_ok_defineBuiltins.
  split; [|reflexivity].
  intros name symbol. unfold symbols.store, symbols.NewSymbolTable.
  rewrite lookup_empty. discriminate.
Qed.

Lemma consistent_Compile node c c' :
  consistent c -> compiler.Compile node c = Ok tt c' -> consistent c'.
Proof.
  intros Hc E. destruct node as [statements|statement|expression]; simpl in E.
  - assert (Hs : stable (forEach compiler.Compile_statement statements)).
    { apply stable_forEach. apply Forall_forall. intros s _.
      apply stable_Compile. }
    apply (Hs _ _ _ Hc E).
  - apply (proj2 stable_Compile statement _ _ _ Hc E).
  - apply (proj1 stable_Compile expression _ _ _ Hc E).
Qed.
End NewFacts.

(** * Examples, run with the concrete numbering, names and printer *)

Section Examples.
Import code.
#[local] Existing Instance table_order.
#[local] Existing Instance object.spike_names.
#[local] Existing Instance literal_printer.

(** The instructions a node compiles to, by each compiler. *)
Definition scoped_code (node : ast.Node) : option (list Z) :=
  match (compiler.Compile node ;;; compiler.GetBytecode) compiler.New with
  | Ok bytecode _ => Some (compiler.Instructions bytecode)
  | _ => None
  end.

Definition flat_code (node : ast.Node) : option (list Z) :=
  match flat_compiler.Compile node flat_compiler.New with
  | Ok _ c => Some (flat_compiler.Instructions (flat_compiler.GetBytecode c))
  | _ => None
  end.

(** C2: the compiler of [spike/compiler/compiler.go] compiles an expression
    statement exactly as its expression and emits no [Pop]: the statement
    [1;] gives [Constant 0] alone, where the compiler with scopes gives
    [Constant 0; Pop]. *)
Theorem C2_flat_compiler_emits_no_pop :
  (forall e c,
      flat_compiler.Compile (ast.Stmt (ast.ExpressionStatement e)) c
      = flat_compiler.Compile (ast.Expr e) c) /\
  flat_code (ast.Stmt (ast.ExpressionStatement (ast.Integer 1)))
  = Some (Make OpConstant [0]) /\
  scoped_code (ast.Stmt (ast.ExpressionStatement (ast.Integer 1)))
  = Some (Make OpConstant [0] ++ Make OpPop []).
Proof. split; [reflexivity|]. split; reflexivity. Qed.

(** A hash literal with two pairs whose keys print alike. *)
Definition duplicate_keys : list (ast.Expression * ast.Expression) :=
  [(ast.Integer 1, ast.Boolean true); (ast.Integer 1, ast.Boolean false)].

(** C8: a hash literal with two keys of the same text compiles to different
    bytecode under the two orders in which its pairs can be enumerated: the
    sort leaves tied keys in the order of the enumeration. *)
Theorem C8_duplicate_keys_follow_enumeration :
  duplicate_keys ≡ₚ rev duplicate_keys /\
  scoped_code (ast.Expr (ast.Hash duplicate_keys))
  = Some (Make OpConstant [0] ++ Make OpTrue []
          ++ Make OpConstant [1] ++ Make OpFalse [] ++ Make OpHash [4]) /\
  scoped_code (ast.Expr (ast.Hash (rev duplicate_keys)))
  = Some (Make OpConstant [0] ++ Make OpFalse []
          ++ Make OpConstant [1] ++ Make OpTrue [] ++ Make OpHash [4]) /\
  scoped_code (ast.Expr (ast.Hash duplicate_keys))
  <> scoped_code (ast.Expr (ast.Hash (rev duplicate_keys))).
Proof.
  split; [apply Permutation_swap|]. split; [reflexivity|].
  split; [reflexivity|]. vm_compute. discriminate.
Qed.

(** A machine with two values on its stack. *)
Definition two_values (l r : object.Object) : vm.VM :=
  vm.set_stack (vm.New [] [])
    (<[0%nat := Some l]> (<[1%nat := Some r]> (vm.stack (vm.New [] [])))) 2.

Lemma C3_witness :
  vm.executeBinaryIntegerOperation (byte_of OpMul)
    (two_values (object.Integer 6) (object.Integer 7))
  = Ok tt (replaced_top2 (two_values (object.Integer 6) (object.Integer 7))
             (object.Integer (arithmetic OpMul 6 7))) /\
  forall ip,
    index (vm.instructions (two_values (object.Integer 6) (object.Integer 7))) ip
    = Some (byte_of OpMul) ->
    vm.dispatch ip (two_values (object.Integer 6) (object.Integer 7))
    = Ok ip (replaced_top2 (two_values (object.Integer 6) (object.Integer 7))
               (object.Integer (arithmetic OpMul 6 7))).
Proof.
  apply (C3_integer_arithmetic
           (two_values (object.Integer 6) (object.Integer 7)) OpMul 6 7).
  - repeat constructor.
  - reflexivity.
  - reflexivity.
  - reflexivity.
  - discriminate.
Defined.

(** C3, as stated, fails on two Strings: [Add] does not push their
    concatenation, and it returns no error either; the type assertion
    panics.  So does the compiled program ["a" + "b"]. *)
Lemma C3_counterexample_string_add :
  vm.executeBinaryIntegerOperation (byte_of OpAdd)
    (two_values (object.String "a") (object.String "b")) = Panic /\
  (forall bytecode c',
      compile_program (ast.InfixExpression (ast.String "a") "+" (ast.String "b"))
      = Ok bytecode c' ->
      run_bytecode bytecode = Some Panic).
Proof.
  split; [reflexivity|]. intros bytecode c' E.
  vm_compute in E. injection E as <- _. vm_compute. reflexivity.
Qed.

Lemma C4_witness :
  vm.executeComparison (byte_of OpGreaterThan)
    (two_values (object.Integer 7) (object.Integer 6))
  = Ok tt (replaced_top2 (two_values (object.Integer 7) (object.Integer 6))
             (object.Boolean true)).
Proof.
  apply (C4_comparison (two_values (object.Integer 7) (object.Integer 6))
           OpGreaterThan (object.Integer 7) (object.Integer 6)).
  - repeat constructor.
  - reflexivity.
  - reflexivity.
  - reflexivity.
Defined.

(** C4, as stated, fails on two Strings: [Equal] pushes no Boolean but
    returns the error "unable to compare variables of type STRING and
    STRING". *)
Lemma C4_counterexample_string_equal :
  vm.executeComparison (byte_of OpEqual)
    (two_values (object.String "a") (object.String "a"))
  = Err "unable to compare variables of type STRING and STRING"
      (popped2 (two_values (object.String "a") (object.String "a"))).
Proof. reflexivity. Qed.
End Examples.

Section MoreExamples.
Import code.
#[local] Existing Instance table_order.
#[local] Existing Instance object.spike_names.
#[local] Existing Instance literal_printer.

(** The program [5 + 5 * 2;]. *)
Definition five_plus_ten : ast.Expression :=
  ast.InfixExpression (ast.Integer 5) "+"
    (ast.InfixExpression (ast.Integer 5) "*" (ast.Integer 2)).

Lemma C5_witness :
  exists bytecode c' vm',
    compile_program five_plus_ten = Ok bytecode c' /\
    run_bytecode bytecode = Some (Ok tt vm') /\
    vm.sp vm' = 0 /\
    exists o, vm.LastPoppedStackElement vm' = Some (Some o).
Proof.
  eexists _, _, _. split; [vm_compute; reflexivity|].
  split; [vm_compute; reflexivity|].
  eapply (C5_stack_discipline five_plus_ten).
  - reflexivity.
  - vm_compute. reflexivity.
  - vm_compute. reflexivity.
Defined.

(** C5, as stated, fails on the program [1[2];]: it compiles and [Run]
    returns without error, skipping the [Index] instruction, and the stack
    pointer is 1. *)
Lemma C5_counterexample_index :
  exists bytecode c' vm',
    compile_program (ast.IndexExpression (ast.Integer 1) (ast.Integer 2))
    = Ok bytecode c' /\
    compiler.Instructions bytecode
    = Make OpConstant [0] ++ Make OpConstant [1] ++ Make OpIndex []
      ++ Make OpPop [] /\
    run_bytecode bytecode = Some (Ok tt vm') /\
    vm.sp vm' = 1.
Proof.
  eexists _, _, _. split; [vm_compute; reflexivity|].
  split; [reflexivity|]. split; [vm_compute; reflexivity|]. reflexivity.
Qed.

Lemma C6_witness :
  exists c',
    compiler.Compile
      (ast.Expr (ast.InfixExpression (ast.Integer 1) "<" (ast.Integer 2)))
      compiler.New = Ok tt c' /\
    exists c1 c2 scope,
      compiler.Compile (ast.Expr (ast.Integer 2)) compiler.New = Ok tt c1 /\
      compiler.Compile (ast.Expr (ast.Integer 1)) c1 = Ok tt c2 /\
      current c2 = Some scope /\
      c' = with_scope c2 (extended scope OpGreaterThan []) /\
      compiler.instructions (extended scope OpGreaterThan [])
      = compiler.instructions scope ++ [byte_of OpGreaterThan].
Proof.
  eexists. split; [vm_compute; reflexivity|].
  eapply (C6_infix_operand_order (ast.Integer 1) (ast.Integer 2) "<"
            compiler.New).
  - reflexivity.
  - vm_compute. reflexivity.
Defined.

(** The function literal [fn() { 1 }]. *)
Definition constant_function : ast.Expression :=
  ast.FunctionExpression [] [ast.ExpressionStatement (ast.Integer 1)].

Lemma C7_witness :
  exists c',
    compiler.Compile (ast.Expr constant_function) compiler.New = Ok tt c' /\
    last (compiler.constants c')
    = Some (object.CompiledFunction
              (Make OpConstant [0] ++ Make OpReturnValue []) 0 0).
Proof.
  eexists. split; [vm_compute; reflexivity|].
  edestruct (C7_function_body_return [] [ast.ExpressionStatement (ast.Integer 1)]
               compiler.New) as (cb & scope & localCount & Hfacts).
  - vm_compute. reflexivity.
  - vm_compute. reflexivity.
Defined.

(** A compiler inside a function whose parameter is [x]. *)
Definition inside_function : compiler.Compiler :=
  match (compiler.enterScope ;;;
         compiler.withTable (symbols.Define "x")) compiler.New with
  | Ok _ c => c
  | _ => compiler.New
  end.

(** The function literal [fn(y) { x + y }]. *)
Definition adder : ast.Expression :=
  ast.FunctionExpression ["y"%string]
    [ast.ExpressionStatement
       (ast.InfixExpression (ast.Identifier "x") "+" (ast.Identifier "y"))].

Lemma consistent_inside_function : consistent inside_function.
Proof.
  destruct (consistent_enterScope compiler.New consistent_New)
    as (cE & HE & HcE & _).
  unfold inside_function. rewrite (bind_Ok_intro _ _ _ _ _ HE).
  destruct (compiler.withTable (symbols.Define "x") cE) as [symbol c| |] eqn:Hd.
  - eapply stable_Define; eassumption.
  - apply consistent_New.
  - apply consistent_New.
Qed.

Lemma C1_witness :
  exists c' enclosing',
    compiler.Compile (ast.Expr adder) inside_function = Ok tt c' /\
    current c' = Some enclosing' /\
    compiler.instructions enclosing'
    = Make OpGetLocal [0] ++ Make OpClosure [0; 1].
Proof.
  destruct (compiler.Compile (ast.Expr adder) inside_function)
    as [[] c'| |] eqn:E; [|vm_compute in E; discriminate E..].
  destruct (C1_closure_loads_captured ["y"%string]
              [ast.ExpressionStatement
                 (ast.InfixExpression (ast.Identifier "x") "+"
                    (ast.Identifier "y"))]
              inside_function c' consistent_inside_function E)
    as (cb & table & enclosing & enclosing' & _ & _ & _ & Hcurrent & _).
  exists c', enclosing'. split; [reflexivity|].
  split; [exact Hcurrent|].
  vm_compute in E. injection E as <-.
  vm_compute in Hcurrent. injection Hcurrent as <-. reflexivity.
Defined.

(** The function literal [fn(x) { fn(y) { x + y } }] compiles to two
    functions: the inner one reads [x] as its free variable 0, the outer one
    loads its local [x] and makes the closure. *)
Example adder_bytecode :
  let make_adder :=
    ast.FunctionExpression ["x"%string] [ast.ExpressionStatement adder] in
  match (compiler.Compile (ast.Expr make_adder) ;;; compiler.GetBytecode)
          compiler.New with
  | Ok bytecode _ =>
      compiler.Constants bytecode
      = [object.CompiledFunction
           (Make OpGetFreeVar [0] ++ Make OpGetLocal [0] ++ Make OpAdd []
            ++ Make OpReturnValue []) 1 1;
         object.CompiledFunction
           (Make OpGetLocal [0] ++ Make OpClosure [0; 1]
            ++ Make OpReturnValue []) 1 1] /\
      compiler.Instructions bytecode = Make OpClosure [1; 0]
  | _ => Logic.False
  end.
Proof. vm_compute. split; reflexivity. Qed.

(** A machine whose stack is full, about to run [True]. *)
Definition full_machine : vm.VM :=
  vm.set_stack (vm.New (Make OpTrue []) []) (vm.stack (vm.New [] [])) 2048.

Lemma C9_witness :
  vm.push (object.Integer 1) full_machine = Err "stack overflow" full_machine /\
  vm.Run full_machine = Some (Err "stack overflow" full_machine).
Proof.
  destruct (C9_push_stack_overflow full_machine (object.Integer 1))
    as (_ & Hfull & _).
  destruct Hfull as [Hpush Hrun]; [vm_compute; discriminate|].
  split; [exact Hpush|]. apply (Hrun 0%nat 0).
  exists (byte_of OpTrue). split; [reflexivity | left; reflexivity].
Defined.

(** The instruction [GetLocal 6] on the machine: the opcode is skipped and
    its operand byte, which is the byte of [True], is run as an opcode. *)
Lemma C10_witness :
  let machine := vm.New (Make OpGetLocal [6]) [] in
  vm.dispatch 0 machine = Ok 0 machine /\
  vm.loop 2 0 machine = vm.loop 1 1 machine /\
  exists vm', vm.Run machine = Some (Ok tt vm') /\ vm.sp vm' = 1.
Proof.
  intros machine.
  destruct (C10_unimplemented_opcode_skipped machine) as [Hskip _].
  destruct (Hskip 0 (byte_of OpGetLocal) 1%nat) as [Hd Hl].
  - reflexivity.
  - unfold implemented. simpl. intros Hin.
    repeat (apply elem_of_cons in Hin as [Hin|Hin]; [discriminate Hin|]).
    apply elem_of_nil in Hin. exact Hin.
  - split; [exact Hd|]. split; [exact Hl|].
    eexists. split; [vm_compute; reflexivity | reflexivity].
Defined.
End MoreExamples.

Lemma append_empty_r (s : string) : (s +:+ "")%string = s.
Proof.
  induction s as [|a s IH]; [reflexivity|].
  change (String a (s +:+ "") = String a s). rewrite IH. reflexivity.
Qed.

Section ArrayFacts.
Import object.
Context (Inspect_other : Object -> string)
        (Equal_other : Object -> Object -> bool).

(** Induction over the nesting of arrays. *)
Lemma Object_array_ind (P : Object -> Prop) :
  (forall elements, Forall P elements -> P (Array elements)) ->
  (forall o, (forall elements, o <> Array elements) -> P o) ->
  forall o, P o.
Proof.
  intros Harray Hother. fix IH 1.
  intros [v|v|v| |elements|pairs|ins locals params|fn free|i];
    try (apply Hother; discriminate).
  apply Harray. induction elements as [|x l IHl]; constructor.
  - apply IH.
  - exact IHl.
Qed.

(** The loop of [Inspect] from any index: the separator goes between
    elements. *)
Lemma Inspect_loop (n : Z) (l : list Object) :
  forall i, i + len l = n ->
  (fix each (i : Z) (l : list Object) : string :=
     match l with
     | [] => ""
     | element :: l' =>
         array.Inspect Inspect_other element +:+
         (if i <? n - 1 then ", " else "") +:+
         each (i + 1) l'
     end) i l
  = String.concat ", " (map (array.Inspect Inspect_other) l).
Proof.
  induction l as [|x l IH]; intros i Hi; [reflexivity|].
  rewrite IH by (unfold len in *; simpl in *; lia).
  unfold len in Hi. simpl in Hi. destruct l as [|y l].
  - destruct (Z.ltb_spec i (n - 1)); [simpl in *; lia|].
    simpl. change ("" +:+ "")%string with ""%string.
    apply append_empty_r.
  - destruct (Z.ltb_spec i (n - 1)); [|simpl in *; lia].
    reflexivity.
Qed.

(** X1: [Inspect] of an array is the texts of its elements, separated by a
    comma and a space, between brackets. *)
Theorem Inspect_Array (elements : list Object) :
  array.Inspect Inspect_other (Array elements)
  = ("[" +:+ String.concat ", " (map (array.Inspect Inspect_other) elements)
     +:+ "]")%string.
Proof.
  change (array.Inspect Inspect_other (Array elements)) with
    ("[" +:+
      (fix each (i : Z) (l : list Object) : string :=
         match l with
         | [] => ""
         | element :: l' =>
             array.Inspect Inspect_other element +:+
             (if i <? len elements - 1 then ", " else "") +:+
             each (i + 1) l'
         end) 0 elements +:+
      "]").
  rewrite (Inspect_loop (len elements)) by lia. reflexivity.
Qed.

(** The loop of [Equal] from any index: it reads the other array within
    its bounds and stops at the first pair that differs. *)
Lemma Equal_loop (l : list Object) :
  Forall (fun element => forall other,
            exists b, array.Equal Equal_other element other = Some b) l ->
  forall pre rest, length l = length rest ->
  exists b,
    (fix each (i : Z) (l : list Object) : option bool :=
       match l with
       | [] => Some true
       | element :: l' =>
           match index (pre ++ rest) i with
           | None => None
           | Some otherElement =>
               match array.Equal Equal_other element otherElement with
               | None => None
               | Some false => Some false
               | Some true => each (i + 1) l'
               end
           end
       end) (len pre) l = Some b /\
    (b = true <->
     Forall2 (fun e e' => array.Equal Equal_other e e' = Some true) l rest).
Proof.
  induction 1 as [|x l Hx Hl IH]; intros pre rest Hll.
  - destruct rest; [|discriminate Hll]. exists true. split; [reflexivity|].
    split; [constructor|reflexivity].
  - destruct rest as [|y rest]; [discriminate Hll|].
    rewrite index_middle. destruct (Hx y) as [[] Hb]; rewrite Hb.
    + destruct (IH (pre ++ [y]) rest) as (b & Eb & Hiff).
      { simpl in Hll. lia. }
      rewrite <- app_assoc, len_app in Eb. exists b. split; [exact Eb|].
      rewrite Hiff. split.
      * intros HF. constructor; assumption.
      * intros HF. inversion HF; subst. assumption.
    + exists false. split; [reflexivity|]. split; [discriminate|].
      intros HF. inversion HF; subst. congruence.
Qed.

Lemma Equal_returns o :
  forall other, exists b, array.Equal Equal_other o other = Some b.
Proof.
  induction o as [elements IH|o Ho] using Object_array_ind; intros other.
  - destruct other as [v|v|v| |otherElements|pairs|ins locals params|fn free|i];
      try (exists false; reflexivity).
    simpl. destruct (Z.eqb_spec (len elements) (len otherElements)) as [E|E];
      simpl; [|exists false; reflexivity].
    destruct (Equal_loop elements IH [] otherElements) as (b & Eb & _).
    { unfold len in E. lia. }
    exists b. exact Eb.
  - destruct o; try (eexists; reflexivity). destruct (Ho Elements eq_refl).
Qed.

(** X2: [Equal] on an array is true exactly for an array of the same length
    whose elements are [Equal] one by one, and it never reads the other
    array out of range. *)
Theorem Array_Equal (elements : list Object) (other : Object) :
  exists b,
    array.Equal Equal_other (Array elements) other = Some b /\
    (b = true <->
     exists otherElements,
       other = Array otherElements /\
       Forall2 (fun e e' => array.Equal Equal_other e e' = Some true)
         elements otherElements).
Proof.
  destruct other as [v|v|v| |otherElements|pairs|ins locals params|fn free|i];
    try (exists false; split; [reflexivity|];
         split; [discriminate | intros (? & [=] & _)]).
  simpl. destruct (Z.eqb_spec (len elements) (len otherElements)) as [E|E];
    simpl.
  - destruct (Equal_loop elements) with (pre := @nil Object)
      (rest := otherElements) as (b & Eb & Hiff).
    { apply Forall_forall. intros x _. apply Equal_returns. }
    { unfold len in E. lia. }
    exists b. split; [exact Eb|]. rewrite Hiff. split.
    + eauto.
    + intros (l' & [= <-] & HF). exact HF.
  - exists false. split; [reflexivity|]. split; [discriminate|].
    intros (l' & [= <-] & HF). apply Forall2_length in HF.
    unfold len in E. lia.
Qed.

(** X3: [Equal] is reflexive when that of the other variants is. *)
Theorem Equal_reflexive :
  (forall o, Equal_other o o = true) ->
  forall o, array.Equal Equal_other o o = Some true.
Proof.
  intros Hother o. induction o as [elements IH|o Ho] using Object_array_ind.
  - assert (HF : Forall2
                   (fun e e' => array.Equal Equal_other e e' = Some true)
                   elements elements)
      by (induction IH; constructor; assumption).
    destruct (Equal_loop elements) with (pre := @nil Object)
      (rest := elements) as (b & Eb & Hiff).
    { apply Forall_forall. intros x _. apply Equal_returns. }
    { reflexivity. }
    simpl. rewrite Z.eqb_refl. simpl.
    transitivity (Some b); [exact Eb|]. f_equal. apply Hiff. exact HF.
  - destruct o; simpl; try (f_equal; apply Hother).
    destruct (Ho Elements eq_refl).
Qed.

End ArrayFacts.

(** ** [spike/compiler/compiler.go]: what the compiler emits *)

(** The integer literals of an expression that [Compile] reaches, from
    left to right: it goes through infix expressions only. *)
Fixpoint reached_integers (e : ast.Expression) : list Z :=
  match e with
  | ast.Integer value => [value]
  | ast.InfixExpression lhs _ rhs =>
      reached_integers lhs ++ reached_integers rhs
  | _ => []
  end.

Definition statement_integers (s : ast.Statement) : list Z :=
  match s with
  | ast.ExpressionStatement e => reached_integers e
  | _ => []
  end.

Definition node_integers (node : ast.Node) : list Z :=
  match node with
  | ast.Program statements => concat (map statement_integers statements)
  | ast.Stmt s => statement_integers s
  | ast.Expr e => reached_integers e
  end.

Section FlatFacts.
Import code flat_compiler.
Context `{Numbering}.

(** One [Constant] instruction per index, from [first] on. *)
Fixpoint constant_loads (first : Z) (count : nat) : list Z :=
  match count with
  | O => []
  | S n => Make OpConstant [first] ++ constant_loads (first + 1) n
  end.

Definition loaded (c : Compiler) (values : list Z) : Compiler :=
  {| instructions :=
       instructions c ++ constant_loads (len (constants c)) (length values);
     constants := constants c ++ map object.Integer values |}.

Lemma constant_loads_app first n m :
  constant_loads first (n + m)
  = constant_loads first n ++ constant_loads (first + Z.of_nat n) m.
Proof.
  revert first. induction n as [|n IH]; intros first; simpl.
  - f_equal. lia.
  - rewrite IH.
    replace (first + Z.of_nat (S n)) with (first + 1 + Z.of_nat n) by lia.
    reflexivity.
Qed.

Lemma loaded_nil c : loaded c [] = c.
Proof.
  destruct c. unfold loaded. simpl. rewrite !app_nil_r. reflexivity.
Qed.

Lemma loaded_app c l1 l2 : loaded (loaded c l1) l2 = loaded c (l1 ++ l2).
Proof.
  unfold loaded. simpl. rewrite length_app, constant_loads_app.
  rewrite map_app, <- !app_assoc, len_app. repeat f_equal.
  unfold len. rewrite length_map. reflexivity.
Qed.

Lemma flat_Compile_expression e c :
  Compile_expression e c = Ok tt (loaded c (reached_integers e)).
Proof.
  revert c. induction e; intros c; simpl;
    try (rewrite loaded_nil; reflexivity).
  - unfold loaded. simpl. unfold bind, addConstant, emit. simpl.
    rewrite len_app. unfold ret.
    replace (len (constants c) + len [object.Integer Value] - 1)
      with (len (constants c)) by (unfold len; simpl; lia).
    reflexivity.
  - unfold bind. rewrite IHe1, IHe2, loaded_app. reflexivity.
Qed.

Lemma flat_Compile_statement s c :
  Compile_statement s c = Ok tt (loaded c (statement_integers s)).
Proof.
  destruct s; simpl; try (rewrite loaded_nil; reflexivity).
  apply flat_Compile_expression.
Qed.

(** X4: [Compile] never fails and never panics; it appends one [Constant]
    instruction and one constant for every integer literal it reaches,
    from left to right, and nothing for any operator or other node. *)
Theorem flat_Compile node c :
  Compile node c = Ok tt (loaded c (node_integers node)).
Proof.
  destruct node as [statements|s|e]; simpl.
  - revert c. induction statements as [|s l IH]; intros c; simpl.
    + rewrite loaded_nil. reflexivity.
    + unfold bind. rewrite flat_Compile_statement, IH, loaded_app.
      reflexivity.
  - apply flat_Compile_statement.
  - apply flat_Compile_expression.
Qed.

End FlatFacts.

(** ** The machine: what every turn keeps *)

Section MachineInvariant.
Import code object vm.
Context `{Numbering} `{Names}.

(** The stack has its [StackSize] slots, the stack pointer is within
    them, and every slot below the stack pointer holds a value. *)
Definition well_formed (vm : VM) : Prop :=
  len (stack vm) = StackSize /\
  0 <= sp vm <= StackSize /\
  forall i, 0 <= i < sp vm -> exists o, index (stack vm) i = Some (Some o).

(** Code that, unless it panics, leaves a well-formed machine with the
    same bytecode. *)
Definition keeps {A} (m : M VM A) : Prop :=
  forall vm,
    well_formed vm ->
    match m vm with
    | Ok _ vm' | Err _ vm' =>
        well_formed vm' /\
        instructions vm' = instructions vm /\ constants vm' = constants vm
    | Panic => Logic.True
    end.

Lemma well_formed_New ins consts : well_formed (New ins consts).
Proof.
  unfold well_formed, New, len. cbn [stack sp].
  rewrite length_replicate. unfold StackSize. repeat split; lia.
Qed.

Lemma keeps_ret {A} (a : A) : keeps (ret a).
Proof. intros vm Hvm. simpl. auto. Qed.

Lemma keeps_fail {A} msg : keeps (@fail VM A msg).
Proof. intros vm Hvm. simpl. auto. Qed.

Lemma keeps_panic {A} : keeps (@panic VM A).
Proof. intros vm Hvm. exact I. Qed.

Lemma keeps_bind {A B} (m : M VM A) (k : A -> M VM B) :
  keeps m -> (forall a, keeps (k a)) -> keeps (bind m k).
Proof.
  intros Hm Hk vm Hvm. unfold bind. specialize (Hm vm Hvm).
  destruct (m vm) as [a vm1|msg vm1|]; [|exact Hm|exact I].
  destruct Hm as (Hvm1 & Hi & Hc). specialize (Hk a vm1 Hvm1).
  destruct (k a vm1) as [b vm2|msg vm2|]; [| |exact I];
    (destruct Hk as (? & ? & ?); split; [assumption|split; congruence]).
Qed.

Lemma keeps_push o : keeps (push o).
Proof.
  intros vm (Hlen & Hsp & Hslots).
  destruct (push o vm) as [u vm'|msg vm'|] eqn:E; [| |exact I].
  - apply push_Ok in E as (Hsp' & _ & -> & Hi). simpl in *.
    unfold well_formed. cbn [set_stack stack sp instructions constants].
    split; [split; [|split; [lia|]] | split; reflexivity].
    + unfold len in *. rewrite length_insert. assumption.
    + intros i Hi'. destruct (decide (i = sp vm)) as [->|Hne].
      * eauto.
      * destruct (Hslots i) as [x Hx]; [lia|]. exists x. rewrite <- Hx.
        unfold index. destruct (Z.ltb_spec i 0); [reflexivity|].
        apply list_lookup_insert_ne. lia.
  - apply push_Err in E as (_ & -> & _).
    split; [exact (conj Hlen (conj Hsp Hslots)) | split; reflexivity].
Qed.

Lemma keeps_pop : keeps pop.
Proof.
  intros vm (Hlen & Hsp & Hslots).
  destruct (pop vm) as [x vm'|msg vm'|] eqn:E; [| |exact I].
  - apply pop_Ok in E as [Hx ->]. apply index_lt in Hx.
    unfold well_formed. cbn [set_stack stack sp instructions constants].
    split; [split; [assumption|split; [lia|]] | split; reflexivity].
    intros i Hi. apply Hslots. lia.
  - destruct (pop_not_Err _ _ _ E).
Qed.

Lemma keeps_asInteger x : keeps (asInteger x).
Proof. destruct x as [[]|]; (apply keeps_ret || apply keeps_panic). Qed.

Lemma keeps_asBoolean x : keeps (asBoolean x).
Proof. destruct x as [[]|]; (apply keeps_ret || apply keeps_panic). Qed.

Lemma keeps_typeOf x : keeps (typeOf x).
Proof. destruct x; (apply keeps_ret || apply keeps_panic). Qed.

Ltac keeps_step :=
  first
    [ apply keeps_ret | apply keeps_fail | apply keeps_panic
    | apply keeps_push | apply keeps_pop | apply keeps_asInteger
    | apply keeps_asBoolean | apply keeps_typeOf
    | apply keeps_bind; [|intros ?]
    | match goal with
      | |- keeps (if ?b then _ else _) => destruct b
      end ].

Lemma keeps_executeBinaryIntegerOperation op :
  keeps (executeBinaryIntegerOperation op).
Proof. unfold executeBinaryIntegerOperation. repeat keeps_step. Qed.

Lemma keeps_executeComparison op : keeps (executeComparison op).
Proof.
  unfold executeComparison, executeIntegerComparison,
    executeBooleanComparison.
  repeat keeps_step.
Qed.

Lemma keeps_dispatch ip : keeps (dispatch ip).
Proof.
  intros vm Hvm. unfold dispatch.
  destruct (index (instructions vm) ip) as [op|]; [|exact I].
  repeat match goal with
         | |- context [if ?b then _ else _] => destruct b
         end.
  - destruct (Uint16 _); [|exact I].
    destruct (index (constants vm) _); [|exact I].
    revert vm Hvm. change (keeps (push o ;;; ret (ip + 2))).
    repeat keeps_step.
  - revert vm Hvm.
    change (keeps (executeBinaryIntegerOperation op ;;; ret ip)).
    apply keeps_bind; [apply keeps_executeBinaryIntegerOperation|].
    intros; apply keeps_ret.
  - revert vm Hvm. change (keeps (executeComparison op ;;; ret ip)).
    apply keeps_bind; [apply keeps_executeComparison|].
    intros; apply keeps_ret.
  - revert vm Hvm. change (keeps (push True_ ;;; ret ip)).
    repeat keeps_step.
  - revert vm Hvm. change (keeps (push False_ ;;; ret ip)).
    repeat keeps_step.
  - revert vm Hvm. change (keeps (pop ;;; ret ip)). repeat keeps_step.
  - simpl. auto.
Qed.

Lemma keeps_loop fuel :
  forall ip vm,
    well_formed vm ->
    match loop fuel ip vm with
    | Some (Ok _ vm') | Some (Err _ vm') =>
        well_formed vm' /\
        instructions vm' = instructions vm /\ constants vm' = constants vm
    | _ => Logic.True
    end.
Proof.
  induction fuel as [|fuel IH]; intros ip vm Hvm; simpl.
  - destruct (ip <? len (instructions vm)); simpl; auto.
  - destruct (ip <? len (instructions vm)); simpl; auto.
    pose proof (keeps_dispatch ip vm Hvm) as Hd.
    destruct (dispatch ip vm) as [ip' vm1|msg vm1|]; [|exact Hd|exact I].
    destruct Hd as (Hvm1 & Hi & Hc). specialize (IH (ip' + 1) vm1 Hvm1).
    destruct (loop fuel (ip' + 1) vm1) as [[u vm2|msg vm2|]|]; auto;
      (destruct IH as (? & ? & ?); split; [assumption|split; congruence]).
Qed.

(** X5: [Run] on a machine made by [New] returns, and unless it panics the
    machine it leaves has its 2048 slots, a stack pointer between 0 and
    2048, a value in every slot below the stack pointer, and the bytecode
    it was given. *)
Theorem Run_keeps_machine (ins : list Z) (consts : list Object) :
  exists r,
    Run (New ins consts) = Some r /\
    match r with
    | Ok _ vm' | Err _ vm' =>
        well_formed vm' /\ instructions vm' = ins /\ constants vm' = consts
    | Panic => Logic.True
    end.
Proof.
  destruct (Run_total (New ins consts)) as [r Hr]. exists r.
  split; [exact Hr|].
  pose proof (keeps_loop (length ins) 0 (New ins consts)
                (well_formed_New ins consts)) as Hk.
  unfold Run in Hr. simpl in Hr. rewrite Hr in Hk. exact Hk.
Qed.

(** X6: A value pushed is the value popped next: the stack pointer is back
    where it was, the slot keeps the value, which is what
    [LastPoppedStackElement] then returns, and every other slot is
    untouched. *)
Theorem push_pop_round_trip (vm : VM) (o : Object) :
  well_formed vm -> sp vm < StackSize ->
  exists vm',
    (push o ;;; pop) vm = Ok (Some o) vm' /\
    sp vm' = sp vm /\
    LastPoppedStackElement vm' = Some (Some o) /\
    (forall i, i <> sp vm -> index (stack vm') i = index (stack vm) i) /\
    well_formed vm'.
Proof.
  intros (Hlen & Hsp & Hslots) Hroom.
  assert (Hi : index (<[Z.to_nat (sp vm) := Some o]> (stack vm)) (sp vm)
               = Some (Some o)).
  { apply index_Some. split; [lia|]. apply list_lookup_insert_eq.
    unfold len in Hlen. lia. }
  eexists. unfold bind. rewrite push_room by lia.
  unfold pop. simpl. replace (sp vm + 1 - 1) with (sp vm) by lia.
  rewrite Hi. split; [reflexivity|]. simpl.
  split; [reflexivity|]. split; [exact Hi|]. split.
  - intros i Hne. unfold index. destruct (Z.ltb_spec i 0); [reflexivity|].
    apply list_lookup_insert_ne. lia.
  - unfold well_formed. cbn [set_stack stack sp].
    split; [|split; [lia|]].
    + unfold len in *. rewrite length_insert. assumption.
    + intros i Hi'. destruct (Hslots i Hi') as [x Hx]. exists x.
      rewrite <- Hx. unfold index.
      destruct (Z.ltb_spec i 0); [reflexivity|].
      apply list_lookup_insert_ne. lia.
Qed.

(** *** When a turn panics *)

Definition arithmetic_opcodes : list Opcode := [OpAdd; OpSub; OpMul; OpDiv].

Definition comparison_opcodes : list Opcode :=
  [OpEqual; OpNotEqual; OpGreaterThan].

(** The two topmost values are integers, and the divisor of a division is
    not zero. *)
Definition integer_operands (vm : VM) (op : Z) : Prop :=
  exists l r,
    index (stack vm) (sp vm - 2) = Some (Some (Integer l)) /\
    index (stack vm) (sp vm - 1) = Some (Some (Integer r)) /\
    (op = byte_of OpDiv -> r <> 0).

(** The reasons for a panic of the turn at [ip]: no byte at [ip]; a
    [Constant] whose operand is cut short or is no index of a constant; an
    arithmetic opcode whose operands are not two integers, or a division
    by zero; a comparison with fewer than two values on the stack; a [Pop]
    on the empty stack. *)
Definition panics_at (vm : VM) (ip : Z) : Prop :=
  match index (instructions vm) ip with
  | None => Logic.True
  | Some op =>
      (op = byte_of OpConstant /\
       forall i, Uint16 (drop (Z.to_nat (ip + 1)) (instructions vm)) = Some i ->
                 index (constants vm) i = None) \/
      (op ∈ map byte_of arithmetic_opcodes /\ ~ integer_operands vm op) \/
      (op ∈ map byte_of comparison_opcodes /\ sp vm < 2) \/
      (op = byte_of OpPop /\ sp vm < 1)
  end.

Lemma byte_of_elem a l : byte_of a ∈ map byte_of l <-> a ∈ l.
Proof.
  rewrite list_elem_of_fmap. split.
  - intros (b & E & Hb). apply byte_of_inj in E. subst. assumption.
  - eauto.
Qed.

Lemma then_ret_Panic {A B} (m : M VM A) (b : B) vm :
  (m ;;; ret b) vm = Panic <-> m vm = Panic.
Proof. unfold bind, ret. destruct (m vm); split; congruence. Qed.

Lemma push_no_Panic o vm :
  0 <= sp vm -> len (stack vm) = StackSize -> push o vm <> Panic.
Proof.
  intros Hsp Hlen. unfold push, assign.
  destruct (Z.geb_spec (sp vm) StackSize); [discriminate|].
  destruct (Z.leb_spec 0 (sp vm)); [|lia].
  destruct (Z.ltb_spec (sp vm) (len (stack vm))); [discriminate|lia].
Qed.

Lemma pop_Panic vm : well_formed vm -> pop vm = Panic <-> sp vm < 1.
Proof.
  intros (Hlen & Hsp & Hslots). unfold pop. split.
  - intros E. destruct (Z.lt_ge_cases (sp vm) 1) as [|Hge]; [assumption|].
    destruct (Hslots (sp vm - 1)) as [o Ho]; [lia|].
    rewrite Ho in E. discriminate E.
  - intros Hlt. unfold index.
    destruct (Z.ltb_spec (sp vm - 1) 0); [reflexivity|lia].
Qed.

(** The two pops of a binary operation. *)
Lemma pop_pop_cases vm A (k : option Object -> option Object -> M VM A) :
  well_formed vm ->
  (sp vm < 2 /\
   (let* right := pop in let* left := pop in k right left) vm = Panic) \/
  (2 <= sp vm /\
   exists l r,
     index (stack vm) (sp vm - 2) = Some (Some l) /\
     index (stack vm) (sp vm - 1) = Some (Some r) /\
     (let* right := pop in let* left := pop in k right left) vm
     = k (Some r) (Some l) (set_stack vm (stack vm) (sp vm - 2))).
Proof.
  intros (Hlen & Hsp & Hslots).
  destruct (Z.lt_ge_cases (sp vm) 2) as [Hlt|Hge].
  - left. split; [assumption|]. unfold bind at 1. unfold pop at 1.
    destruct (index (stack vm) (sp vm - 1)) as [r|] eqn:Hr; [|reflexivity].
    unfold bind at 1. unfold pop at 1. simpl.
    unfold index. destruct (Z.ltb_spec (sp vm - 1 - 1) 0); [reflexivity|lia].
  - right. split; [assumption|].
    destruct (Hslots (sp vm - 2)) as [l Hl]; [lia|].
    destruct (Hslots (sp vm - 1)) as [r Hr]; [lia|].
    exists l, r. split; [assumption|]. split; [assumption|].
    apply pop_pop; assumption.
Qed.

Lemma arithmetic_Panic vm opcode :
  well_formed vm -> opcode ∈ arithmetic_opcodes ->
  executeBinaryIntegerOperation (byte_of opcode) vm = Panic <->
  ~ integer_operands vm (byte_of opcode).
Proof.
  intros Hvm Hop. unfold executeBinaryIntegerOperation.
  destruct (pop_pop_cases vm _
              (fun right left =>
                 let* leftValue := asInteger left in
                 let* rightValue := asInteger right in
                 if byte_of opcode =? byte_of OpAdd then
                   push (Integer (wrap64 (leftValue + rightValue)))
                 else if byte_of opcode =? byte_of OpSub then
                   push (Integer (wrap64 (leftValue - rightValue)))
                 else if byte_of opcode =? byte_of OpMul then
                   push (Integer (wrap64 (leftValue * rightValue)))
                 else if byte_of opcode =? byte_of OpDiv then
                   if rightValue =? 0 then panic
                   else push (Integer (wrap64 (Z.quot leftValue rightValue)))
                 else push (Integer 0)) Hvm)
    as [[Hlt ->]|(Hge & l & r & Hl & Hr & ->)].
  - split; [|reflexivity]. intros _ (l & r & Hl & _).
    apply index_lt in Hl. lia.
  - destruct Hvm as (Hlen & Hsp & _).
    assert (Hpush : forall o,
               push o (set_stack vm (stack vm) (sp vm - 2)) <> Panic).
    { intros o. apply push_no_Panic; simpl; [lia|assumption]. }
    unfold integer_operands. rewrite Hl, Hr.
    destruct l as [lv| | | | | | | |];
      try (split; [intros _ (? & ? & [=] & _)|reflexivity]).
    destruct r as [rv| | | | | | | |];
      try (split; [intros _ (? & ? & _ & [=] & _)|reflexivity]).
    unfold bind, asInteger, ret. rewrite !byte_of_eqb.
    unfold arithmetic_opcodes in Hop.
    repeat (apply elem_of_cons in Hop as [->|Hop]);
      [..|apply elem_of_nil in Hop; destruct Hop];
      repeat (case_bool_decide; try discriminate); try congruence;
      try (split; [intros E; destruct (Hpush _ E)|];
           intros Hn; exfalso; apply Hn; exists lv, rv;
           repeat split; auto; intros E%byte_of_inj; discriminate E).
    destruct (Z.eqb_spec rv 0) as [->|Hne].
    + split; [|reflexivity]. intros _ (? & ? & [= <-] & [= <-] & Hd).
      apply Hd; reflexivity.
    + split; [intros E; destruct (Hpush _ E)|].
      intros Hn. exfalso. apply Hn. exists lv, rv. repeat split; auto.
Qed.

Lemma comparison_Panic vm op :
  well_formed vm -> executeComparison op vm = Panic <-> sp vm < 2.
Proof.
  intros Hvm. unfold executeComparison.
  destruct (pop_pop_cases vm _
              (fun right left =>
                 let* rightType := typeOf right in
                 let* leftType := typeOf left in
                 if negb (bool_decide (rightType = leftType)) then
                   fail ("both operands must have same type, had: "
                         +:+ type_name leftType +:+ " and "
                         +:+ type_name rightType)
                 else if bool_decide (rightType = IntegerType) then
                   executeIntegerComparison left right op
                 else if bool_decide (rightType = BooleanType) then
                   executeBooleanComparison left right op
                 else
                   fail ("unable to compare variables of type "
                         +:+ type_name leftType +:+ " and "
                         +:+ type_name rightType)) Hvm)
    as [[Hlt ->]|(Hge & l & r & Hl & Hr & ->)].
  - split; auto.
  - split; [|lia]. intros E. exfalso.
    destruct Hvm as (Hlen & Hsp & _).
    assert (Hpush : forall o,
               push o (set_stack vm (stack vm) (sp vm - 2)) <> Panic).
    { intros o. apply push_no_Panic; simpl; [lia|assumption]. }
    unfold bind, typeOf, ret in E.
    destruct l, r; simpl in E; try discriminate E;
      unfold executeIntegerComparison, executeBooleanComparison,
        bind, asInteger, asBoolean, ret, fail in E;
      repeat match type of E with
             | (if ?b then _ else _) = _ => destruct b
             | (if ?b then _ else _) _ = _ => destruct b
             end; try discriminate E; destruct (Hpush _ E).
Qed.

Ltac not_elem Hx :=
  repeat (apply elem_of_cons in Hx as [Hx|Hx]; [discriminate Hx|]);
  apply elem_of_nil in Hx; destruct Hx.

Ltac is_elem := repeat first [apply list_elem_of_here | apply list_elem_of_further].

(** X7: A turn of [Run] on a well-formed machine panics in exactly these
    cases: there is no byte at [ip]; the operand of a [Constant] is cut
    short or is no index of a constant; the operands of an arithmetic
    opcode are not two integers on the stack, or the divisor is zero; a
    comparison finds fewer than two values; a [Pop] finds none. *)
Theorem dispatch_Panic (vm : VM) (ip : Z) :
  well_formed vm -> dispatch ip vm = Panic <-> panics_at vm ip.
Proof.
  intros Hvm. unfold panics_at, dispatch.
  destruct (index (instructions vm) ip) as [op|] eqn:Hop; [|tauto].
  destruct (decide (op ∈ map byte_of implemented_opcodes)) as [Hin|Hn].
  - apply list_elem_of_fmap in Hin as (opcode & -> & Hin).
    rewrite !byte_of_elem, !byte_of_eqb.
    assert (Hinj : forall a b, byte_of a = byte_of b <-> a = b).
    { intros a b. split; [apply byte_of_inj|congruence]. }
    rewrite !Hinj. clear Hinj.
    assert (Hpush : forall o (ip' : Z), (push o ;;; ret ip') vm <> Panic).
    { intros o ip' E. apply then_ret_Panic in E. destruct Hvm as (Hlen & Hsp & _).
      destruct (push_no_Panic o vm); [lia|assumption|assumption]. }
    unfold arithmetic_opcodes, comparison_opcodes.
    unfold implemented_opcodes in Hin.
    repeat (apply elem_of_cons in Hin as [->|Hin]);
      [..|apply elem_of_nil in Hin; destruct Hin];
      repeat (case_bool_decide; try discriminate); try congruence;
      simpl;
      try (rewrite then_ret_Panic, arithmetic_Panic
             by (assumption || (unfold arithmetic_opcodes; is_elem));
           split;
           [ intros Hn; right; left; split; [is_elem | exact Hn]
           | intros [[[=] _]|[[_ Hn]|[[Hx _]|[[=] _]]]];
             [exact Hn | not_elem Hx] ]);
      try (rewrite then_ret_Panic, comparison_Panic by assumption;
           split;
           [ intros Hn; right; right; left; split; [is_elem | exact Hn]
           | intros [[[=] _]|[[Hx _]|[[_ Hn]|[[=] _]]]];
             [not_elem Hx | exact Hn] ]);
      try (split;
           [ intros E; destruct (Hpush _ _ E)
           | intros [[[=] _]|[[Hx _]|[[Hx _]|[[=] _]]]]; not_elem Hx ]).
    + destruct (Uint16 _) as [i|].
      * destruct (index (constants vm) i) as [c|] eqn:Hc.
        -- split.
           ++ intros E. destruct (Hpush _ _ E).
           ++ intros [[_ Hnone]|[[Hx _]|[[Hx _]|[[=] _]]]].
              ** specialize (Hnone i eq_refl). congruence.
              ** not_elem Hx.
              ** not_elem Hx.
        -- split; [|reflexivity]. intros _. left. split; [reflexivity|].
           intros ? [= <-]. assumption.
      * split; [|reflexivity]. intros _. left. split; [reflexivity|].
        intros ? [=].
    + rewrite then_ret_Panic, pop_Panic by assumption. split.
      * intros Hlt. right; right; right. auto.
      * intros [[[=] _]|[[Hx _]|[[Hx _]|[_ Hlt]]]];
          [not_elem Hx | not_elem Hx | exact Hlt].
  - assert (Hd : dispatch ip vm = Ok ip vm)
      by (apply (dispatch_not_implemented ip vm op Hop); exact Hn).
    unfold dispatch in Hd. rewrite Hop in Hd. rewrite Hd.
    split; [discriminate|]. intros Hcase. exfalso. apply Hn.
    unfold implemented_opcodes, arithmetic_opcodes, comparison_opcodes
      in *.
    destruct Hcase as [[-> _]|[[Hx _]|[[Hx _]|[-> _]]]].
    + is_elem.
    + simpl in *. repeat (apply elem_of_cons in Hx as [->|Hx]);
        [..|apply elem_of_nil in Hx; destruct Hx]; is_elem.
    + simpl in *. repeat (apply elem_of_cons in Hx as [->|Hx]);
        [..|apply elem_of_nil in Hx; destruct Hx]; is_elem.
    + simpl. is_elem.
Qed.

End MachineInvariant.

(** ** The machine: the errors it returns *)

Section RunErrors.
Import code object vm.
Context `{Numbering} `{Names}.

(** The errors of [Run]: a push on the full stack; a comparison of two
    values of different types; a comparison of two values of a type that
    is neither integer nor boolean; [GreaterThan] on two booleans. *)
Definition run_error (msg : string) : Prop :=
  msg = "stack overflow"%string \/
  (exists leftType rightType,
      rightType <> leftType /\
      msg = ("both operands must have same type, had: "
             +:+ type_name leftType +:+ " and " +:+ type_name rightType)
              %string) \/
  (exists type,
      type <> IntegerType /\ type <> BooleanType /\
      msg = ("unable to compare variables of type "
             +:+ type_name type +:+ " and " +:+ type_name type)%string) \/
  msg = ("unexpected operation: " +:+ decimal (byte_of OpGreaterThan))%string.

Definition raises {A} (m : M VM A) : Prop :=
  forall vm msg vm', m vm = Err msg vm' -> run_error msg.

Lemma raises_ret {A} (a : A) : raises (ret a).
Proof. intros vm msg vm' E. discriminate E. Qed.

Lemma raises_panic {A} : raises (@panic VM A).
Proof. intros vm msg vm' E. discriminate E. Qed.

Lemma raises_bind {A B} (m : M VM A) (k : A -> M VM B) :
  raises m -> (forall a, raises (k a)) -> raises (bind m k).
Proof.
  intros Hm Hk vm msg vm' E. unfold bind in E.
  destruct (m vm) as [a vm1|msg1 vm1|] eqn:E1; [| |discriminate E].
  - exact (Hk a vm1 msg vm' E).
  - injection E as <- <-. exact (Hm vm msg1 vm1 E1).
Qed.

Lemma raises_push o : raises (push o).
Proof.
  intros vm msg vm'. unfold push. destruct (sp vm >=? StackSize).
  - intros [= <- _]. left. reflexivity.
  - destruct (assign _ _ _); discriminate.
Qed.

Lemma raises_pop : raises pop.
Proof. intros vm msg vm'. unfold pop. destruct (index _ _); discriminate. Qed.

Lemma raises_asInteger x : raises (asInteger x).
Proof. destruct x as [[]|]; first [apply raises_ret|apply raises_panic]. Qed.

Lemma raises_asBoolean x : raises (asBoolean x).
Proof. destruct x as [[]|]; first [apply raises_ret|apply raises_panic]. Qed.

Lemma raises_typeOf x : raises (typeOf x).
Proof. destruct x; first [apply raises_ret|apply raises_panic]. Qed.

Ltac raises_step :=
  first
    [ apply raises_ret | apply raises_panic | apply raises_push
    | apply raises_pop | apply raises_asInteger | apply raises_asBoolean
    | apply raises_typeOf
    | apply raises_bind; [|intros ?]
    | match goal with
      | |- raises (if ?b then _ else _) => destruct b
      end ].

Lemma raises_executeBinaryIntegerOperation op :
  raises (executeBinaryIntegerOperation op).
Proof. unfold executeBinaryIntegerOperation. repeat raises_step. Qed.

(** An integer comparison that [Run] starts has one of the three
    opcodes of the [switch]: the error after it is out of reach. *)
Lemma raises_executeIntegerComparison left right op :
  (op =? byte_of OpEqual) || (op =? byte_of OpNotEqual)
  || (op =? byte_of OpGreaterThan) = true ->
  raises (executeIntegerComparison left right op).
Proof.
  intros Hop. unfold executeIntegerComparison.
  apply raises_bind; [apply raises_asInteger|]. intros l.
  apply raises_bind; [apply raises_asInteger|]. intros r.
  destruct (op =? byte_of OpEqual); [apply raises_push|].
  destruct (op =? byte_of OpNotEqual); [apply raises_push|].
  destruct (op =? byte_of OpGreaterThan); [apply raises_push|].
  discriminate Hop.
Qed.

Lemma raises_executeBooleanComparison left right op :
  (op =? byte_of OpEqual) || (op =? byte_of OpNotEqual)
  || (op =? byte_of OpGreaterThan) = true ->
  raises (executeBooleanComparison left right op).
Proof.
  intros Hop. unfold executeBooleanComparison.
  apply raises_bind; [apply raises_asBoolean|]. intros l.
  apply raises_bind; [apply raises_asBoolean|]. intros r.
  destruct (op =? byte_of OpEqual); [apply raises_push|].
  destruct (op =? byte_of OpNotEqual); [apply raises_push|].
  destruct (Z.eqb_spec op (byte_of OpGreaterThan)) as [E|E];
    [|discriminate Hop].
  intros vm msg vm' [= <- _]. right. right. right. rewrite E. reflexivity.
Qed.

Lemma raises_executeComparison op :
  (op =? byte_of OpEqual) || (op =? byte_of OpNotEqual)
  || (op =? byte_of OpGreaterThan) = true ->
  raises (executeComparison op).
Proof.
  intros Hop. unfold executeComparison.
  apply raises_bind; [apply raises_pop|]. intros right.
  apply raises_bind; [apply raises_pop|]. intros left.
  apply raises_bind; [apply raises_typeOf|]. intros rightType.
  apply raises_bind; [apply raises_typeOf|]. intros leftType.
  destruct (decide (rightType = leftType)) as [<-|Hne].
  - rewrite bool_decide_eq_true_2 by reflexivity. simpl.
    destruct (decide (rightType = IntegerType)) as [->|Hi].
    + simpl. apply raises_executeIntegerComparison. exact Hop.
    + rewrite bool_decide_eq_false_2 by exact Hi.
      destruct (decide (rightType = BooleanType)) as [->|Hb].
      * simpl. apply raises_executeBooleanComparison. exact Hop.
      * rewrite bool_decide_eq_false_2 by exact Hb.
        intros vm msg vm' [= <- _]. right. right. left.
        exists rightType. auto.
  - rewrite bool_decide_eq_false_2 by exact Hne. simpl.
    intros vm msg vm' [= <- _]. right. left. exists leftType, rightType.
    auto.
Qed.

Lemma raises_dispatch ip : raises (dispatch ip).
Proof.
  intros vm msg vm'. unfold dispatch.
  destruct (index (instructions vm) ip) as [op|]; [|discriminate].
  destruct (op =? byte_of OpConstant).
  { destruct (Uint16 _) as [i|]; [|discriminate].
    destruct (index (constants vm) i) as [constant|]; [|discriminate].
    apply (raises_bind (push constant) (fun _ => ret (ip + 2)));
      [apply raises_push|intros; apply raises_ret]. }
  destruct ((op =? byte_of OpAdd) || (op =? byte_of OpSub)
            || (op =? byte_of OpMul) || (op =? byte_of OpDiv)).
  { apply (raises_bind (executeBinaryIntegerOperation op) (fun _ => ret ip));
      [apply raises_executeBinaryIntegerOperation|intros; apply raises_ret]. }
  destruct ((op =? byte_of OpEqual) || (op =? byte_of OpNotEqual)
            || (op =? byte_of OpGreaterThan)) eqn:Hop.
  { apply (raises_bind (executeComparison op) (fun _ => ret ip));
      [apply raises_executeComparison; exact Hop|intros; apply raises_ret]. }
  destruct (op =? byte_of OpTrue).
  { apply (raises_bind (push True_) (fun _ => ret ip));
      [apply raises_push|intros; apply raises_ret]. }
  destruct (op =? byte_of OpFalse).
  { apply (raises_bind (push False_) (fun _ => ret ip));
      [apply raises_push|intros; apply raises_ret]. }
  destruct (op =? byte_of OpPop).
  { apply (raises_bind pop (fun _ => ret ip));
      [apply raises_pop|intros; apply raises_ret]. }
  discriminate.
Qed.

(** X8: an error that [Run] returns is one of four: the stack overflow
    of a push, the comparison of two values of different types, the
    comparison of two values of a type other than integer and boolean,
    and [GreaterThan] on two booleans.  The error that ends
    [executeIntegerComparison] is never returned. *)
Theorem Run_errors (vm : VM) (msg : string) (vm' : VM) :
  Run vm = Some (Err msg vm') -> run_error msg.
Proof.
  unfold Run. generalize (length (instructions vm)) 0.
  intros fuel. revert vm.
  induction fuel as [|fuel IH]; intros vm ip; simpl;
    destruct (ip <? len (instructions vm)); try discriminate.
  destruct (dispatch ip vm) as [ip' vm1|msg1 vm1|] eqn:Ed.
  - apply IH.
  - intros [= <- _]. exact (raises_dispatch ip vm msg1 vm1 Ed).
  - discriminate.
Qed.

End RunErrors.

(** ** The compiler: the errors it returns *)

Section CompileErrors.
Import code symbols compiler.
Context `{Numbering} `{object.Names} `{ast.Printer}.

(** The three errors of [Compile]: an infix operator that has no opcode,
    a prefix operator that has none, a name that does not resolve. *)
Definition compile_error (msg : string) : Prop :=
  (exists operator,
      msg = ("unknown operator: " +:+ operator)%string /\
      infixOpcode operator = None /\ operator <> "<"%string) \/
  (exists operator,
      msg = ("invalid prefix operator: " +:+ operator)%string /\
      prefixOpcode operator = None) \/
  (exists name, msg = ("unable to resolve identifier: " +:+ name)%string).

Definition reports {A} (m : M Compiler A) : Prop :=
  forall c msg c', m c = Err msg c' -> compile_error msg.

Lemma reports_ret {A} (a : A) : reports (ret a).
Proof. intros c msg c' E. discriminate E. Qed.

Lemma reports_panic {A} : reports (@panic Compiler A).
Proof. intros c msg c' E. discriminate E. Qed.

Lemma reports_bind {A B} (m : M Compiler A) (k : A -> M Compiler B) :
  reports m -> (forall a, reports (k a)) -> reports (bind m k).
Proof.
  intros Hm Hk c msg c' E. unfold bind in E.
  destruct (m c) as [a c1|msg1 c1|] eqn:E1; [| |discriminate E].
  - exact (Hk a c1 msg c' E).
  - injection E as <- <-. exact (Hm c msg1 c1 E1).
Qed.

Lemma reports_forEach {A} (f : A -> M Compiler unit) l :
  Forall (fun x => reports (f x)) l -> reports (forEach f l).
Proof.
  induction 1 as [|x l Hx Hl IH]; simpl.
  - apply reports_ret.
  - apply reports_bind; auto.
Qed.

Lemma reports_currentScope : reports currentScope.
Proof.
  intros c msg c'. unfold currentScope. destruct (index _ _); discriminate.
Qed.

Lemma reports_setCurrentScope scope : reports (setCurrentScope scope).
Proof.
  intros c msg c'. unfold setCurrentScope.
  destruct (assign _ _ _); discriminate.
Qed.

Lemma reports_addConstant obj : reports (addConstant obj).
Proof. intros c msg c' E. discriminate E. Qed.

Lemma reports_withTable {A} (f : SymbolTable -> A * SymbolTable) :
  reports (withTable f).
Proof.
  intros c msg c'. unfold withTable.
  destruct (symbolTable c) as [t|]; [destruct (f t)|]; discriminate.
Qed.

Lemma reports_enterScope : reports enterScope.
Proof. intros c msg c' E. discriminate E. Qed.

Lemma reports_leaveScope : reports leaveScope.
Proof.
  intros c msg c'. unfold leaveScope.
  destruct (symbolTable c); [|discriminate].
  destruct (index _ _); [|discriminate].
  destruct (slice_to _ _); discriminate.
Qed.

Ltac reports_step :=
  first
    [ apply reports_ret | apply reports_panic
    | apply reports_currentScope | apply reports_setCurrentScope
    | apply reports_addConstant | apply reports_withTable
    | apply reports_enterScope | apply reports_leaveScope
    | assumption
    | apply reports_bind; [|intros ?]
    | match goal with
      | |- reports (match ?x with _ => _ end) => destruct x
      | |- reports (if ?b then _ else _) => destruct b
      end ].

Ltac reports_auto := repeat reports_step.

Lemma reports_emit op operands : reports (emit op operands).
Proof. unfold emit. reports_auto. Qed.

Lemma reports_emit_ op operands : reports (emit_ op operands).
Proof.
  unfold emit_. apply reports_bind; [apply reports_emit|].
  intros; apply reports_ret.
Qed.

Lemma reports_currentLength : reports currentLength.
Proof. unfold currentLength. reports_auto. Qed.

Lemma reports_replaceInstruction i instruction :
  reports (replaceInstruction i instruction).
Proof. unfold replaceInstruction. reports_auto. Qed.

Lemma reports_changeOperand i operand : reports (changeOperand i operand).
Proof.
  unfold changeOperand. apply reports_bind; [apply reports_currentScope|].
  intros scope. destruct (index _ _); [|apply reports_panic].
  apply reports_replaceInstruction.
Qed.

Lemma reports_lastInstructionIs op : reports (lastInstructionIs op).
Proof. unfold lastInstructionIs. reports_auto. Qed.

Lemma reports_removeLastPop : reports removeLastPop.
Proof.
  unfold removeLastPop, removeLastInstruction.
  apply reports_bind; [apply reports_lastInstructionIs|].
  intros []; reports_auto.
Qed.

Lemma reports_replaceLastPopWithReturn : reports replaceLastPopWithReturn.
Proof.
  unfold replaceLastPopWithReturn.
  apply reports_bind; [apply reports_currentScope|]. intros scope.
  apply reports_bind; [apply reports_replaceInstruction|]. intros _.
  reports_auto.
Qed.

Lemma reports_loadSymbol symbol : reports (loadSymbol symbol).
Proof. unfold loadSymbol. destruct (SymbolScope symbol); apply reports_emit_. Qed.

Lemma reports_Compile :
  (forall e, reports (Compile_expression e)) /\
  (forall s, reports (Compile_statement s)).
Proof.
  apply Ast_all.
  - (* Identifier *)
    intros v. simpl. apply reports_bind; [apply reports_withTable|].
    intros [symbol|]; [apply reports_loadSymbol|].
    intros c msg c' [= <- <-]. right; right. eauto.
  - intros v. simpl. apply reports_bind; [apply reports_addConstant|].
    intros i. apply reports_emit_.
  - intros v. simpl. apply reports_bind; [apply reports_addConstant|].
    intros i. apply reports_emit_.
  - intros []; simpl; apply reports_emit_.
  - (* Prefix *)
    intros op r IH. simpl. apply reports_bind; [exact IH|]. intros _.
    destruct (prefixOpcode op) eqn:Hop; [apply reports_emit_|].
    intros c msg c' [= <- <-]. right; left. eauto.
  - (* Infix *)
    intros l op r IHl IHr. simpl.
    destruct (String.eqb_spec op "<") as [->|Hne].
    + apply reports_bind; [exact IHr|]. intros _.
      apply reports_bind; [exact IHl|]. intros _. apply reports_emit_.
    + apply reports_bind; [exact IHl|]. intros _.
      apply reports_bind; [exact IHr|]. intros _.
      destruct (infixOpcode op) eqn:Hop; [apply reports_emit_|].
      intros c msg c' [= <- <-]. left. eauto.
  - (* If *)
    intros cond t e IHc IHt IHe. simpl.
    apply reports_bind; [exact IHc|]. intros _.
    apply reports_bind; [apply reports_emit|]. intros jumpNotTrueIndex.
    apply reports_bind; [apply reports_forEach; exact IHt|]. intros _.
    apply reports_bind; [apply reports_removeLastPop|]. intros _.
    destruct e as [elseStatements|].
    + apply reports_bind; [apply reports_emit|]. intros jumpIndex.
      apply reports_bind; [apply reports_currentLength|]. intros afterThen.
      apply reports_bind; [apply reports_changeOperand|]. intros _.
      apply reports_bind; [apply reports_forEach; exact IHe|]. intros _.
      apply reports_bind; [apply reports_removeLastPop|]. intros _.
      apply reports_bind; [apply reports_currentLength|]. intros afterElse.
      apply reports_changeOperand.
    + apply reports_bind; [apply reports_emit|]. intros jumpIndex.
      apply reports_bind; [apply reports_currentLength|]. intros afterJump.
      apply reports_bind; [apply reports_emit_|]. intros _.
      apply reports_bind; [apply reports_currentLength|]. intros afterNull.
      apply reports_bind; [apply reports_changeOperand|]. intros _.
      apply reports_changeOperand.
  - (* Function *)
    intros ps b IHb. simpl.
    apply reports_bind; [apply reports_enterScope|]. intros _.
    apply reports_bind.
    { apply reports_forEach. apply Forall_forall. intros p _.
      apply reports_bind; [apply reports_withTable|].
      intros; apply reports_ret. }
    intros _.
    apply reports_bind; [apply reports_forEach; exact IHb|]. intros _.
    apply reports_bind; [apply reports_lastInstructionIs|]. intros isPop.
    apply reports_bind.
    { destruct isPop;
        [apply reports_replaceLastPopWithReturn | apply reports_ret]. }
    intros _.
    apply reports_bind; [apply reports_lastInstructionIs|].
    intros isReturnValue.
    apply reports_bind.
    { destruct isReturnValue; [apply reports_ret | apply reports_emit_]. }
    intros _.
    apply reports_bind; [apply reports_withTable|]. intros freeSymbols.
    apply reports_bind; [apply reports_withTable|]. intros localCount.
    apply reports_bind; [apply reports_leaveScope|]. intros instructions'.
    apply reports_bind.
    { apply reports_forEach. apply Forall_forall. intros s _.
      apply reports_loadSymbol. }
    intros _.
    apply reports_bind; [apply reports_addConstant|]. intros i.
    apply reports_emit_.
  - (* Call *)
    intros f args IHf IHargs. simpl.
    apply reports_bind; [exact IHf|]. intros _.
    apply reports_bind; [apply reports_forEach; exact IHargs|]. intros _.
    apply reports_emit_.
  - (* Array *)
    intros els IH. simpl.
    apply reports_bind; [apply reports_forEach; exact IH|]. intros _.
    apply reports_emit_.
  - (* Hash *)
    intros pairs IH. simpl.
    apply reports_bind; [|intros _; apply reports_emit_].
    apply reports_forEach. unfold sortKeys.
    rewrite Slice_Permutation.
    induction IH as [|[k v] l [Hk Hv] Hl IHl]; constructor; [|exact IHl].
    simpl. apply reports_bind; [exact Hk | intros _; exact Hv].
  - (* Index *)
    intros a i IHa IHi. simpl.
    apply reports_bind; [exact IHa|]. intros _.
    apply reports_bind; [exact IHi|]. intros _. apply reports_emit_.
  - (* Let *)
    intros n v IH. simpl.
    apply reports_bind; [apply reports_withTable|]. intros symbol.
    apply reports_bind; [exact IH|]. intros _.
    destruct (decide _); apply reports_emit_.
  - intros r IH. simpl. apply reports_bind; [exact IH|]. intros _.
    apply reports_emit_.
  - intros e IH. simpl. apply reports_bind; [exact IH|]. intros _.
    apply reports_emit_.
  - intros l IH. simpl. apply reports_forEach. exact IH.
Qed.

(** X9: Every error [Compile] returns is one of three: "unknown operator"
    for an infix operator other than the eight it knows, "invalid prefix
    operator" for a prefix operator other than [!] and [-], or "unable to
    resolve identifier". *)
Theorem Compile_errors (node : ast.Node) (c c' : Compiler) (msg : string) :
  Compile node c = Err msg c' -> compile_error msg.
Proof.
  destruct reports_Compile as [He Hs].
  destruct node as [statements|s|e]; simpl.
  - apply reports_forEach. apply Forall_forall. intros s _. apply Hs.
  - apply Hs.
  - apply He.
Qed.

End CompileErrors.

(** ** The compiler: its state seen from the current scope *)

Section AtScope.
Import code symbols compiler.
Context `{Numbering} `{object.Names} `{ast.Printer}.

(** A compiler whose current scope is [scope], the last of its scopes,
    above the scopes [outer] of the enclosing functions. *)
Definition at_scope (consts : list object.Object)
    (table : option SymbolTable) (outer : list CompilationScope)
    (scope : CompilationScope) : Compiler :=
  {| constants := consts;
     symbolTable := table;
     scopes := outer ++ [scope];
     scopeIndex := len outer |}.

Lemma current_at_scope k t lo s : current (at_scope k t lo s) = Some s.
Proof. unfold current, at_scope. simpl. apply index_middle. Qed.

Lemma with_scope_at_scope k t lo s s' :
  with_scope (at_scope k t lo s) s' = at_scope k t lo s'.
Proof.
  unfold with_scope, at_scope, len. simpl. f_equal.
  rewrite Nat2Z.id. rewrite insert_app_r_alt by lia.
  rewrite Nat.sub_diag. reflexivity.
Qed.

Lemma currentScope_at k t lo s :
  currentScope (at_scope k t lo s) = Ok s (at_scope k t lo s).
Proof. apply currentScope_Ok. split; [apply current_at_scope|reflexivity]. Qed.

Lemma setCurrentScope_at k t lo s s' :
  setCurrentScope s' (at_scope k t lo s) = Ok tt (at_scope k t lo s').
Proof.
  apply setCurrentScope_Ok. rewrite current_at_scope, with_scope_at_scope.
  eauto.
Qed.

Lemma emit_at op operands k t lo s :
  emit op operands (at_scope k t lo s)
  = Ok (len (instructions s)) (at_scope k t lo (extended s op operands)).
Proof.
  apply emit_Ok. exists s. rewrite current_at_scope, with_scope_at_scope.
  auto.
Qed.

Lemma emit__at op operands k t lo s :
  emit_ op operands (at_scope k t lo s)
  = Ok tt (at_scope k t lo (extended s op operands)).
Proof. unfold emit_, bind. rewrite emit_at. reflexivity. Qed.

Lemma addConstant_at o k t lo s :
  addConstant o (at_scope k t lo s) = Ok (len k) (at_scope (k ++ [o]) t lo s).
Proof.
  unfold addConstant, at_scope. simpl. f_equal.
  rewrite len_app. unfold len. simpl. lia.
Qed.

Lemma currentLength_at k t lo s :
  currentLength (at_scope k t lo s)
  = Ok (len (instructions s)) (at_scope k t lo s).
Proof. unfold currentLength, bind. rewrite currentScope_at. reflexivity. Qed.

Lemma lastInstructionIs_at op k t lo s :
  lastInstructionIs op (at_scope k t lo s)
  = Ok (Opcode (lastInstruction s) =? byte_of op) (at_scope k t lo s).
Proof. unfold lastInstructionIs, bind. rewrite currentScope_at. reflexivity. Qed.

Lemma withTable_at {A} (f : SymbolTable -> A * SymbolTable) k t lo s :
  withTable f (at_scope k (Some t) lo s)
  = Ok (fst (f t)) (at_scope k (Some (snd (f t))) lo s).
Proof. unfold withTable, at_scope. simpl. destruct (f t). reflexivity. Qed.

Lemma New_at_scope :
  New = at_scope [] (Some (defineBuiltins 0 object.Builtins NewSymbolTable))
          [] emptyScope.
Proof. reflexivity. Qed.

Lemma NewWithState_at_scope table consts :
  NewWithState table consts = at_scope consts table [] emptyScope.
Proof. reflexivity. Qed.

Lemma GetBytecode_at k t lo s :
  GetBytecode (at_scope k t lo s)
  = Ok {| Instructions := instructions s; Constants := k |}
       (at_scope k t lo s).
Proof. unfold GetBytecode, bind. rewrite currentScope_at. reflexivity. Qed.

End AtScope.

(** ** Literals and infix operators, compiled and run *)

(** What the machine computes for an opcode on a left and a right
    operand; [None] where it stops with an error or a panic. *)
Definition binary_value (opcode : code.Opcode) (l r : object.Object)
  : option object.Object :=
  match opcode with
  | code.OpAdd | code.OpSub | code.OpMul | code.OpDiv =>
      match l, r with
      | object.Integer a, object.Integer b =>
          if bool_decide (opcode = code.OpDiv) && (b =? 0) then None
          else Some (object.Integer (arithmetic opcode a b))
      | _, _ => None
      end
  | _ => option_map object.Boolean (comparison opcode l r)
  end.

(** The value of an expression built from literals with infix operators:
    [l < r] is [r > l]. *)
Fixpoint value (e : ast.Expression) : option object.Object :=
  match e with
  | ast.Integer v => Some (object.Integer v)
  | ast.String v => Some (object.String v)
  | ast.Boolean v => Some (object.Boolean v)
  | ast.InfixExpression l operator r =>
      if String.eqb operator "<" then
        match value r, value l with
        | Some a, Some b => binary_value code.OpGreaterThan a b
        | _, _ => None
        end
      else
        match compiler.infixOpcode operator, value l, value r with
        | Some opcode, Some a, Some b => binary_value opcode a b
        | _, _, _ => None
        end
  | _ => None
  end.

(** The constants of such an expression, in the order in which its
    operands are compiled. *)
Fixpoint pool (e : ast.Expression) : list object.Object :=
  match e with
  | ast.Integer v => [object.Integer v]
  | ast.String v => [object.String v]
  | ast.InfixExpression l operator r =>
      if String.eqb operator "<" then pool r ++ pool l else pool l ++ pool r
  | _ => []
  end.

(** The stack slots the evaluation of such an expression takes. *)
Fixpoint slots (e : ast.Expression) : Z :=
  match e with
  | ast.InfixExpression l operator r =>
      if String.eqb operator "<" then Z.max (slots r) (1 + slots l)
      else Z.max (slots l) (1 + slots r)
  | _ => 1
  end.

Section Evaluation.
Import code.
Context `{Numbering} `{object.Names} `{ast.Printer}.

(** The instructions of [ins] from [a] to [b] run in [n] turns of the
    loop, within [room] more slots of the stack, and push [v] above a
    stack they leave alone. *)
Definition computes (ins : list Z) (consts : list object.Object)
    (n : nat) (a b : Z) (room : Z) (v : object.Object) : Prop :=
  forall vm fuel,
    vm.instructions vm = ins -> vm.constants vm = consts ->
    well_formed vm -> vm.sp vm + room <= vm.StackSize ->
    exists vm',
      vm.loop (n + fuel) a vm = vm.loop fuel b vm' /\
      vm.instructions vm' = ins /\ vm.constants vm' = consts /\
      well_formed vm' /\
      vm.sp vm' = vm.sp vm + 1 /\
      index (vm.stack vm') (vm.sp vm) = Some (Some v) /\
      forall i, 0 <= i < vm.sp vm ->
                index (vm.stack vm') i = index (vm.stack vm) i.

Lemma pushed_well_formed vm o :
  well_formed vm -> vm.sp vm < vm.StackSize ->
  let vm' := vm.set_stack vm (<[Z.to_nat (vm.sp vm) := Some o]> (vm.stack vm))
               (vm.sp vm + 1) in
  vm.push o vm = Ok tt vm' /\ well_formed vm' /\
  index (vm.stack vm') (vm.sp vm) = Some (Some o) /\
  forall i, i <> vm.sp vm -> index (vm.stack vm') i = index (vm.stack vm) i.
Proof.
  intros Hvm Hroom vm'. pose proof Hvm as (Hlen & Hsp & Hslots).
  assert (Hp : vm.push o vm = Ok tt vm') by (apply push_room; lia).
  split; [exact Hp|]. split.
  - pose proof (keeps_push o vm Hvm) as Hk. rewrite Hp in Hk. apply Hk.
  - split.
    + apply push_Ok in Hp as (_ & _ & _ & Hi). exact Hi.
    + intros i Hne. subst vm'. simpl. unfold index.
      destruct (Z.ltb_spec i 0); [reflexivity|].
      apply list_lookup_insert_ne. lia.
Qed.

(** One turn at an instruction that pushes [o]. *)
Lemma push_computes o ins consts a width room :
  (forall vm, vm.instructions vm = ins -> vm.constants vm = consts ->
              vm.dispatch a vm = (vm.push o ;;; ret (a + width)) vm) ->
  a < len ins -> 1 <= room ->
  computes ins consts 1 a (a + width + 1) room o.
Proof.
  intros Hd Ha Hroom vm fuel Hi Hc Hvm Hsp. specialize (Hd vm Hi Hc).
  destruct (pushed_well_formed vm o Hvm ltac:(lia)) as (Hp & Hvm' & Ho & Hrest).
  eexists. simpl plus. rewrite loop_unfold by (rewrite Hi; exact Ha).
  rewrite Hd. unfold bind. rewrite Hp. simpl.
  split; [reflexivity|]. simpl. repeat split; auto; try apply Hvm'.
  intros i Hlt. apply Hrest. lia.
Qed.

Lemma constant_computes pre i post consts o room :
  0 <= i < 65536 -> index consts i = Some o -> 1 <= room ->
  computes (pre ++ Make OpConstant [i] ++ post) consts 1
    (len pre) (len (pre ++ Make OpConstant [i])) room o.
Proof.
  intros Hi Ho Hroom.
  replace (len (pre ++ Make OpConstant [i])) with (len pre + 2 + 1)
    by (rewrite len_app; unfold len; simpl; lia).
  apply push_computes; [|rewrite len_app; unfold len; simpl; lia|exact Hroom].
  intros vm Hins Hc. unfold vm.dispatch. rewrite Hins, Hc.
  unfold Make. simpl app. rewrite index_middle, Z.eqb_refl, drop_middle.
  change (?x :: ?y :: post) with (big_endian 2 i ++ post).
  rewrite Uint16_big_endian, Z.mod_small by lia. rewrite Ho. reflexivity.
Qed.

Lemma boolean_computes pre (b : bool) post consts room :
  1 <= room ->
  computes (pre ++ Make (if b then OpTrue else OpFalse) [] ++ post) consts 1
    (len pre) (len (pre ++ Make (if b then OpTrue else OpFalse) []))
    room (object.Boolean b).
Proof.
  intros Hroom.
  replace (len (pre ++ Make (if b then OpTrue else OpFalse) []))
    with (len pre + 0 + 1)
    by (rewrite len_app; unfold len; destruct b; simpl; lia).
  apply push_computes;
    [|rewrite len_app; unfold len; destruct b; simpl; lia|exact Hroom].
  intros vm Hins Hc. unfold vm.dispatch. rewrite Hins.
  destruct b; unfold Make; simpl app;
    rewrite index_middle, !byte_of_eqb; simpl;
    rewrite Z.add_0_r; reflexivity.
Qed.

(** The turn of a binary opcode on two operands it has a value for. *)
Lemma binary_value_dispatch vm opcode l r v ip :
  binary_value opcode l r = Some v ->
  len (vm.stack vm) = vm.StackSize ->
  index (vm.stack vm) (vm.sp vm - 2) = Some (Some l) ->
  index (vm.stack vm) (vm.sp vm - 1) = Some (Some r) ->
  index (vm.instructions vm) ip = Some (byte_of opcode) ->
  vm.dispatch ip vm = Ok ip (replaced_top2 vm v).
Proof.
  intros Hv Hlen Hl Hr Hip.
  pose proof (fun o => push_popped2 vm _ o Hlen Hl) as Hpush.
  unfold vm.dispatch. rewrite Hip, !byte_of_eqb.
  destruct opcode; simpl in Hv; try discriminate Hv;
    destruct l; try discriminate Hv; destruct r; try discriminate Hv;
    simpl; unfold bind at 1;
    unfold vm.executeBinaryIntegerOperation, vm.executeComparison;
    rewrite (pop_pop vm _ _ Hl Hr);
    unfold vm.typeOf, vm.executeIntegerComparison,
      vm.executeBooleanComparison, vm.asInteger, vm.asBoolean, bind, ret;
    fold (popped2 vm); rewrite ?byte_of_eqb; simpl.
  all: try (rewrite Hpush; injection Hv as <-; reflexivity).
  - destruct (Value0 =? 0); [discriminate Hv|].
    rewrite Hpush. injection Hv as <-. reflexivity.
  - rewrite Hpush. injection Hv as <-. destruct (Value =? Value0); reflexivity.
  - rewrite Hpush. injection Hv as <-. destruct (eqb Value Value0); reflexivity.
  - rewrite Hpush. injection Hv as <-. destruct (Value =? Value0); reflexivity.
  - rewrite Hpush. injection Hv as <-. destruct (eqb Value Value0); reflexivity.
  - rewrite Hpush. injection Hv as <-. destruct (Value >? Value0); reflexivity.
Qed.

Lemma replaced_top2_well_formed vm v :
  well_formed vm -> 2 <= vm.sp vm ->
  well_formed (replaced_top2 vm v) /\
  index (vm.stack (replaced_top2 vm v)) (vm.sp vm - 2) = Some (Some v) /\
  forall i, i <> vm.sp vm - 2 ->
            index (vm.stack (replaced_top2 vm v)) i = index (vm.stack vm) i.
Proof.
  intros (Hlen & Hsp & Hslots) Hge. unfold replaced_top2, well_formed.
  cbn [vm.set_stack vm.stack vm.sp].
  assert (Hi : index (<[Z.to_nat (vm.sp vm - 2) := Some v]> (vm.stack vm))
                 (vm.sp vm - 2) = Some (Some v)).
  { apply index_Some. split; [lia|]. apply list_lookup_insert_eq.
    unfold len in Hlen. lia. }
  assert (Hrest : forall i, i <> vm.sp vm - 2 ->
            index (<[Z.to_nat (vm.sp vm - 2) := Some v]> (vm.stack vm)) i
            = index (vm.stack vm) i).
  { intros i Hne. unfold index. destruct (Z.ltb_spec i 0); [reflexivity|].
    apply list_lookup_insert_ne. lia. }
  split; [|split; assumption].
  split; [|split; [lia|]].
  - unfold len in *. rewrite length_insert. assumption.
  - intros i Hlt. destruct (decide (i = vm.sp vm - 2)) as [->|Hne].
    + eauto.
    + rewrite Hrest by assumption. apply Hslots. lia.
Qed.

(** The code of two operands followed by a binary opcode. *)
Lemma infix_computes ins consts n1 n2 a0 a1 a2 room1 room2 opcode v1 v2 v :
  computes ins consts n1 a0 a1 room1 v1 ->
  computes ins consts n2 a1 a2 room2 v2 ->
  index ins a2 = Some (byte_of opcode) ->
  binary_value opcode v1 v2 = Some v ->
  computes ins consts (Datatypes.S (n1 + n2)) a0 (a2 + 1)
    (Z.max room1 (1 + room2)) v.
Proof.
  intros Hfirst Hsecond Ha Hv vm fuel Hins Hc Hvm Hroom.
  replace (Datatypes.S (n1 + n2) + fuel)%nat
    with (n1 + (n2 + Datatypes.S fuel))%nat by lia.
  destruct (Hfirst vm (n2 + Datatypes.S fuel)%nat Hins Hc Hvm ltac:(lia))
    as (vm1 & -> & Hi1 & Hc1 & Hvm1 & Hsp1 & Ho1 & Hlow1).
  destruct (Hsecond vm1 (Datatypes.S fuel) Hi1 Hc1 Hvm1 ltac:(lia))
    as (vm2 & -> & Hi2 & Hc2 & Hvm2 & Hsp2 & Ho2 & Hlow2).
  pose proof Hvm as (_ & Hsp & _).
  assert (Hl : index (vm.stack vm2) (vm.sp vm2 - 2) = Some (Some v1)).
  { replace (vm.sp vm2 - 2) with (vm.sp vm) by lia.
    rewrite Hlow2 by lia. exact Ho1. }
  assert (Hr : index (vm.stack vm2) (vm.sp vm2 - 1) = Some (Some v2)).
  { replace (vm.sp vm2 - 1) with (vm.sp vm1) by lia. exact Ho2. }
  exists (replaced_top2 vm2 v).
  rewrite loop_unfold by (rewrite Hi2; apply index_lt in Ha; lia).
  rewrite (binary_value_dispatch vm2 opcode v1 v2 v a2 Hv);
    [|apply Hvm2|assumption|assumption|rewrite Hi2; assumption].
  destruct (replaced_top2_well_formed vm2 v Hvm2 ltac:(lia))
    as (Hvm3 & Ho3 & Hrest3).
  split; [reflexivity|]. split; [exact Hi2|]. split; [exact Hc2|].
  split; [exact Hvm3|]. split; [simpl; lia|]. split.
  - replace (vm.sp vm) with (vm.sp vm2 - 2) by lia. exact Ho3.
  - intros i Hlt. rewrite Hrest3 by lia. rewrite Hlow2 by lia.
    apply Hlow1. exact Hlt.
Qed.

(** The code of such an expression, with its constants from index
    [first] of the pool on. *)
Fixpoint code_of (e : ast.Expression) (first : Z) : list Z :=
  match e with
  | ast.Integer _ | ast.String _ => Make OpConstant [first]
  | ast.Boolean v => Make (if v then OpTrue else OpFalse) []
  | ast.InfixExpression l operator r =>
      if String.eqb operator "<" then
        code_of r first ++ code_of l (first + len (pool r))
        ++ Make OpGreaterThan []
      else
        match compiler.infixOpcode operator with
        | Some opcode =>
            code_of l first ++ code_of r (first + len (pool l))
            ++ Make opcode []
        | None => []
        end
  | _ => []
  end.

(** [Compile] on such an expression appends its code and its constants. *)
Lemma value_Compile e :
  forall v, value e = Some v ->
  forall k t lo s,
  exists s',
    compiler.Compile_expression e (at_scope k t lo s)
    = Ok tt (at_scope (k ++ pool e) t lo s') /\
    compiler.instructions s' = compiler.instructions s ++ code_of e (len k).
Proof.
  induction e; intros v Hv k t lo s; try discriminate Hv.
  - simpl. unfold bind. rewrite addConstant_at, emit__at.
    eexists. split; reflexivity.
  - simpl. unfold bind. rewrite addConstant_at, emit__at.
    eexists. split; reflexivity.
  - simpl. rewrite app_nil_r. destruct Value; rewrite emit__at;
      eexists; split; reflexivity.
  - simpl in *. destruct (String.eqb Operator "<").
    + destruct (value e2) as [a|] eqn:Ha; [|discriminate Hv].
      destruct (value e1) as [b|] eqn:Hb; [|discriminate Hv].
      destruct (IHe2 a eq_refl k t lo s) as (s1 & E1 & Hi1).
      destruct (IHe1 b eq_refl (k ++ pool e2) t lo s1) as (s2 & E2 & Hi2).
      unfold bind. rewrite E1, E2, emit__at.
      eexists. split; [rewrite app_assoc; reflexivity|].
      simpl. rewrite Hi2, Hi1, len_app, <- !app_assoc. reflexivity.
    + destruct (compiler.infixOpcode Operator) as [opcode|] eqn:Hop;
        [|discriminate Hv].
      destruct (value e1) as [a|] eqn:Ha; [|discriminate Hv].
      destruct (value e2) as [b|] eqn:Hb; [|discriminate Hv].
      destruct (IHe1 a eq_refl k t lo s) as (s1 & E1 & Hi1).
      destruct (IHe2 b eq_refl (k ++ pool e1) t lo s1) as (s2 & E2 & Hi2).
      unfold bind. rewrite E1, E2, emit__at.
      eexists. split; [rewrite app_assoc; reflexivity|].
      simpl. rewrite Hi2, Hi1, len_app, <- !app_assoc. reflexivity.
Qed.

Lemma infix_opcode_bytes operator opcode :
  compiler.infixOpcode operator = Some opcode ->
  Make opcode [] = [byte_of opcode].
Proof.
  intros Hop. apply infixOpcode_table in Hop. unfold operator_table in Hop.
  repeat (apply elem_of_cons in Hop as [[= _ ->] | Hop]; [reflexivity|]).
  apply elem_of_nil in Hop. contradiction.
Qed.

Lemma turns_code_of e first :
  forall v, value e = Some v -> (turns e <= length (code_of e first))%nat.
Proof.
  revert first. induction e; intros first v Hv; try discriminate Hv;
    try (simpl; lia).
  - simpl in *. destruct (String.eqb Operator "<").
    + destruct (value e2) as [a|] eqn:Ha; [|discriminate Hv].
      destruct (value e1) as [b|] eqn:Hb; [|discriminate Hv].
      specialize (IHe2 first a eq_refl).
      specialize (IHe1 (first + len (pool e2)) b eq_refl).
      rewrite !length_app. simpl. lia.
    + destruct (compiler.infixOpcode Operator) as [opcode|] eqn:Hop;
        [|discriminate Hv].
      destruct (value e1) as [a|] eqn:Ha; [|discriminate Hv].
      destruct (value e2) as [b|] eqn:Hb; [|discriminate Hv].
      specialize (IHe1 first a eq_refl).
      specialize (IHe2 (first + len (pool e1)) b eq_refl).
      rewrite (infix_opcode_bytes _ _ Hop), !length_app. simpl. lia.
Qed.

(** The code of such an expression, anywhere in the instructions and
    with its constants anywhere in the first 65536 of the pool, pushes
    the value of the expression. *)
Lemma value_computes e :
  forall v, value e = Some v ->
  forall pre post kpre kpost,
    len kpre + len (pool e) <= 65536 ->
    computes (pre ++ code_of e (len kpre) ++ post)
      (kpre ++ pool e ++ kpost) (turns e)
      (len pre) (len (pre ++ code_of e (len kpre))) (slots e) v.
Proof.
  assert (Hliteral : forall o pre post kpre kpost,
    len kpre + 1 <= 65536 ->
    computes (pre ++ Make OpConstant [len kpre] ++ post)
      (kpre ++ [o] ++ kpost) 1
      (len pre) (len (pre ++ Make OpConstant [len kpre])) 1 o).
  { intros o pre post kpre kpost Hk. apply constant_computes; [|
      apply index_middle|lia].
    pose proof (len_nonneg kpre). lia. }
  induction e; intros v Hv pre post kpre kpost Hk; try discriminate Hv.
  - injection Hv as <-. apply Hliteral. exact Hk.
  - injection Hv as <-. apply Hliteral. exact Hk.
  - injection Hv as <-. apply boolean_computes. simpl. lia.
  - simpl in *.
    assert (Hboth : exists first second opcode a b,
      value first = Some a /\ value second = Some b /\
      binary_value opcode a b = Some v /\
      Make opcode [] = [byte_of opcode] /\
      (forall a, value first = Some a ->
         forall pre post kpre kpost,
           len kpre + len (pool first) <= 65536 ->
           computes (pre ++ code_of first (len kpre) ++ post)
             (kpre ++ pool first ++ kpost) (turns first)
             (len pre) (len (pre ++ code_of first (len kpre)))
             (slots first) a) /\
      (forall a, value second = Some a ->
         forall pre post kpre kpost,
           len kpre + len (pool second) <= 65536 ->
           computes (pre ++ code_of second (len kpre) ++ post)
             (kpre ++ pool second ++ kpost) (turns second)
             (len pre) (len (pre ++ code_of second (len kpre)))
             (slots second) a) /\
      (if String.eqb Operator "<" then pool e2 ++ pool e1
       else pool e1 ++ pool e2) = pool first ++ pool second /\
      (if String.eqb Operator "<"
       then code_of e2 (len kpre) ++ code_of e1 (len kpre + len (pool e2))
            ++ Make OpGreaterThan []
       else match compiler.infixOpcode Operator with
            | Some opcode =>
                code_of e1 (len kpre) ++ code_of e2 (len kpre + len (pool e1))
                ++ Make opcode []
            | None => []
            end)
      = code_of first (len kpre) ++ code_of second (len kpre + len (pool first))
        ++ Make opcode [] /\
      (if String.eqb Operator "<" then Z.max (slots e2) (1 + slots e1)
       else Z.max (slots e1) (1 + slots e2))
      = Z.max (slots first) (1 + slots second) /\
      Datatypes.S (turns e1 + turns e2)
      = Datatypes.S (turns first + turns second)).
    { destruct (String.eqb Operator "<").
      - destruct (value e2) as [a|] eqn:Ha; [|discriminate Hv].
        destruct (value e1) as [b|] eqn:Hb; [|discriminate Hv].
        exists e2, e1, OpGreaterThan, a, b.
        repeat (split; [first [assumption|reflexivity|lia]|]).
        split; [intros a0 E; apply IHe2; congruence|].
        split; [intros a0 E; apply IHe1; congruence|].
        repeat (split; [reflexivity|]). lia.
      - destruct (compiler.infixOpcode Operator) as [opcode|] eqn:Hop;
          [|discriminate Hv].
        destruct (value e1) as [a|] eqn:Ha; [|discriminate Hv].
        destruct (value e2) as [b|] eqn:Hb; [|discriminate Hv].
        exists e1, e2, opcode, a, b.
        split; [assumption|]. split; [assumption|]. split; [assumption|].
        split; [exact (infix_opcode_bytes _ _ Hop)|].
        split; [intros a0 E; apply IHe1; congruence|].
        split; [intros a0 E; apply IHe2; congruence|].
        repeat split. }
    destruct Hboth as (first & second & opcode & a & b & Ha & Hb & Hbin & Hw
                       & IH1 & IH2 & Hpool & Hcode & Hslots & Hturns).
    clear IHe1 IHe2. rewrite Hpool in *. rewrite Hcode, Hslots, Hturns.
    clear Hpool Hcode Hslots Hturns. rewrite len_app in Hk.
    pose proof (len_nonneg (pool first)).
    pose proof (len_nonneg (pool second)).
    set (code1 := code_of first (len kpre)).
    set (code2 := code_of second (len kpre + len (pool first))).
    rewrite Hw.
    replace (len (pre ++ code1 ++ code2 ++ [byte_of opcode]))
      with (len ((pre ++ code1) ++ code2) + 1)
      by (rewrite !len_app; unfold len; simpl; lia).
    eapply infix_computes; [| | |exact Hbin].
    + replace (pre ++ (code1 ++ code2 ++ [byte_of opcode]) ++ post)
        with (pre ++ code1 ++ (code2 ++ [byte_of opcode] ++ post))
        by (rewrite <- !app_assoc; reflexivity).
      replace (kpre ++ (pool first ++ pool second) ++ kpost)
        with (kpre ++ pool first ++ (pool second ++ kpost))
        by (rewrite <- !app_assoc; reflexivity).
      apply (IH1 a Ha). lia.
    + replace (pre ++ (code1 ++ code2 ++ [byte_of opcode]) ++ post)
        with ((pre ++ code1) ++ code2 ++ ([byte_of opcode] ++ post))
        by (rewrite <- !app_assoc; reflexivity).
      replace (kpre ++ (pool first ++ pool second) ++ kpost)
        with ((kpre ++ pool first) ++ pool second ++ kpost)
        by (rewrite <- !app_assoc; reflexivity).
      subst code2. rewrite <- (len_app kpre (pool first)).
      apply (IH2 b Hb). rewrite len_app. lia.
    + replace (pre ++ (code1 ++ code2 ++ [byte_of opcode]) ++ post)
        with (((pre ++ code1) ++ code2) ++ byte_of opcode :: post)
        by (rewrite <- !app_assoc; reflexivity).
      apply index_middle.
Qed.

(** The machine on the code of such an expression followed by [Pop]. *)
Lemma value_Run e v :
  value e = Some v ->
  len (pool e) <= 65536 -> slots e <= vm.StackSize ->
  exists vm',
    vm.Run (vm.New (code_of e 0 ++ [byte_of OpPop]) (pool e))
    = Some (Ok tt vm') /\
    vm.sp vm' = 0 /\
    vm.LastPoppedStackElement vm' = Some (Some v).
Proof.
  intros Hv Hpool Hslots. unfold vm.Run.
  cbn [vm.New vm.instructions].
  set (code := code_of e 0). set (ins := code ++ [byte_of OpPop]).
  set (machine := vm.New ins (pool e)).
  pose proof (turns_code_of e 0 v Hv) as Hturns. fold code in Hturns.
  replace (length ins)
    with (turns e + Datatypes.S (length code - turns e))%nat
    by (subst ins; rewrite length_app; simpl; lia).
  pose proof (value_computes e v Hv [] [byte_of OpPop] [] [] ltac:(
                change (len (@nil object.Object)) with 0; lia)) as Hrun.
  simpl in Hrun. rewrite app_nil_r in Hrun.
  change (len (@nil object.Object)) with 0 in Hrun.
  change (len (@nil Z)) with 0 in Hrun. fold code in Hrun. fold ins in Hrun.
  destruct (Hrun machine (Datatypes.S (length code - turns e)) eq_refl eq_refl
              (well_formed_New ins (pool e)) ltac:(simpl; lia))
    as (vm1 & -> & Hins1 & Hc1 & Hvm1 & Hsp1 & Ho & _).
  change (vm.sp machine) with 0 in *.
  assert (Hat : index (vm.instructions vm1) (len code) = Some (byte_of OpPop)).
  { rewrite Hins1. subst ins. apply index_middle. }
  rewrite loop_unfold
    by (rewrite Hins1; subst ins; rewrite len_app; unfold len; simpl; lia).
  assert (Hd : vm.dispatch (len code) vm1
               = Ok (len code) (vm.set_stack vm1 (vm.stack vm1) 0)).
  { unfold vm.dispatch. rewrite Hat, !byte_of_eqb. simpl.
    unfold bind, vm.pop. rewrite Hsp1. simpl.
    replace (0 + 1 - 1) with 0 by lia. rewrite Ho. reflexivity. }
  rewrite Hd.
  rewrite loop_end
    by (simpl; rewrite Hins1; subst ins; rewrite len_app; unfold len;
        simpl; lia).
  eexists. split; [reflexivity|]. split; [reflexivity|]. exact Ho.
Qed.

(** X10: A program that is one expression statement, the expression built from
    literals with infix operators: when the expression has a value, at
    most 65536 constants and takes at most 2048 stack slots, the program
    compiles, [Run] on its bytecode returns without error with an empty
    stack, and [LastPoppedStackElement] is the value. *)
Theorem compiled_expression_value (e : ast.Expression) (v : object.Object) :
  value e = Some v ->
  len (pool e) <= 65536 -> slots e <= vm.StackSize ->
  exists bytecode c' vm',
    compile_program e = Ok bytecode c' /\
    run_bytecode bytecode = Some (Ok tt vm') /\
    vm.sp vm' = 0 /\
    vm.LastPoppedStackElement vm' = Some (Some v).
Proof.
  intros Hv Hpool Hslots.
  destruct (value_Run e v Hv Hpool Hslots) as (vm' & Hrun & Hsp & Hlast).
  unfold compile_program. rewrite New_at_scope.
  destruct (value_Compile e v Hv [] (Some
              (compiler.defineBuiltins 0 object.Builtins
                 symbols.NewSymbolTable)) [] compiler.emptyScope)
    as (s1 & E1 & Hi1).
  simpl in Hi1. change (len (@nil object.Object)) with 0 in Hi1.
  simpl app in E1.
  unfold bind. simpl compiler.Compile. unfold bind.
  rewrite E1, emit__at. simpl. rewrite GetBytecode_at.
  eexists _, _, vm'. split; [reflexivity|]. unfold run_bytecode.
  cbn [compiler.Instructions compiler.Constants compiler.instructions
       extended].
  rewrite Hi1. unfold Make at 1. simpl. auto.
Qed.

End Evaluation.

(** ** The compiler: the bookkeeping of the last instruction *)

(** The number of enclosing tables of a symbol table, itself included. *)
Fixpoint table_depth (t : symbols.SymbolTable) : nat :=
  match t with
  | symbols.Build_SymbolTable outer _ _ _ =>
      Datatypes.S (match outer with
                   | Some o => table_depth o
                   | None => 0
                   end)
  end.

Definition depth (t : option symbols.SymbolTable) : nat :=
  match t with
  | Some t => table_depth t
  | None => 0
  end.

Section Bookkeeping.
Import code symbols compiler.
Context `{Numbering} `{object.Names} `{ast.Printer}.

(** The length of the instructions of an opcode. *)
Definition width (op : code.Opcode) : Z := len (Make op []).

(** [i] records an instruction of [ins] with opcode [op] that ends at
    [stop]. *)
Definition describes (ins : list Z) (i : EmittedInstruction) (op : code.Opcode)
    (stop : Z) : Prop :=
  Opcode i = byte_of op /\ 0 <= Position i /\
  index ins (Position i) = Some (byte_of op) /\
  Position i + width op = stop.

(** [lastInstruction] records the instruction the code ends with, and
    when that is a [Pop], [previousInstruction] records the instruction
    before it, which is no [Pop]. *)
Definition tracked (s : CompilationScope) : Prop :=
  exists op,
    describes (instructions s) (lastInstruction s) op (len (instructions s)) /\
    (op = OpPop ->
     exists op',
       op' <> OpPop /\
       describes (instructions s) (previousInstruction s) op'
         (Position (lastInstruction s))).

(** [s'] is tracked, and its records are of instructions added to [s]. *)
Definition extends (s s' : CompilationScope) : Prop :=
  tracked s' /\
  len (instructions s) <= Position (lastInstruction s') /\
  (Opcode (lastInstruction s') = byte_of OpPop ->
   len (instructions s) <= Position (previousInstruction s')).

(** What a statement does to the current scope: code is added at the
    end, and either nothing has changed or the records are of that
    code. *)
Definition grows (s s' : CompilationScope) : Prop :=
  exists code,
    instructions s' = instructions s ++ code /\ (s' = s \/ extends s s').

(** What an expression does: the code it adds does not end with a
    [Pop]. *)
Definition grows_expr (s s' : CompilationScope) : Prop :=
  exists code,
    instructions s' = instructions s ++ code /\ extends s s' /\
    Opcode (lastInstruction s') <> byte_of OpPop.

Lemma length_big_endian w v : length (big_endian w v) = w.
Proof.
  revert v. induction w as [|w IH]; intros v; simpl; [reflexivity|].
  rewrite length_app, IH. simpl. lia.
Qed.

Lemma length_put_operands ws os os' :
  length (put_operands ws os) = length (put_operands ws os').
Proof.
  revert os os'. induction ws as [|w ws IH]; intros os os'; [reflexivity|].
  simpl. destruct os, os'; rewrite !length_app, !length_big_endian;
    f_equal; apply IH.
Qed.

Lemma len_Make op operands : len (Make op operands) = width op.
Proof.
  unfold width, len, Make. simpl.
  rewrite (length_put_operands _ operands []). reflexivity.
Qed.

Lemma length_Make op operands operands' :
  length (Make op operands) = length (Make op operands').
Proof.
  pose proof (len_Make op operands). pose proof (len_Make op operands').
  unfold len in *. lia.
Qed.

Lemma width_positive op : 1 <= width op.
Proof. unfold width, Make, len. simpl. lia. Qed.

Lemma Make_head op operands :
  exists rest, Make op operands = byte_of op :: rest.
Proof. unfold Make. eauto. Qed.

Lemma Lookup_byte_of op : Lookup (byte_of op) = Some op.
Proof.
  unfold Lookup, all_opcodes.
  destruct op; simpl; rewrite ?byte_of_eqb; reflexivity.
Qed.

Lemma overwrite_middle new :
  forall pre old post,
    length old = length new ->
    overwrite (pre ++ old ++ post) (len pre) new = Some (pre ++ new ++ post).
Proof.
  induction new as [|b new IH]; intros pre old post Hlen.
  - destruct old; [reflexivity|discriminate Hlen].
  - destruct old as [|o old]; [discriminate Hlen|]. simpl.
    assert (Ha : assign (pre ++ o :: old ++ post) (len pre) b
                 = Some ((pre ++ [b]) ++ old ++ post)).
    { apply assign_Some. split.
      - rewrite len_app. unfold len. simpl. lia.
      - unfold len. rewrite Nat2Z.id, insert_app_r_alt by lia.
        rewrite Nat.sub_diag, <- app_assoc. reflexivity. }
    rewrite Ha.
    replace (len pre + 1) with (len (pre ++ [b]))
      by (rewrite len_app; reflexivity).
    rewrite IH by (simpl in Hlen; lia).
    rewrite <- app_assoc. reflexivity.
Qed.

Lemma table_depth_positive t : (1 <= table_depth t)%nat.
Proof. destruct t. simpl. lia. Qed.

Lemma depth_Define name t :
  table_depth (snd (Define name t)) = table_depth t.
Proof. destruct t. reflexivity. Qed.

Lemma depth_Resolve name t :
  table_depth (snd (Resolve name t)) = table_depth t.
Proof.
  induction t as [outer st n free IH] using SymbolTable_chain_ind.
  simpl. destruct (st !! name); [reflexivity|].
  destruct outer as [o|]; [|reflexivity].
  specialize (IH o eq_refl).
  destruct (Resolve name o) as [[symbol|] o']; simpl in *.
  - destruct (SymbolScope symbol); simpl; rewrite IH; reflexivity.
  - rewrite IH. reflexivity.
Qed.

Lemma depth_Outer t :
  (2 <= table_depth t)%nat ->
  exists o, Outer t = Some o /\ table_depth t = Datatypes.S (table_depth o).
Proof.
  destruct t as [[o|] st n free]; simpl; [eauto|lia].
Qed.

(** *** The steps of [Compile] on the current scope *)

Lemma removeLastInstruction_at k t lo s :
  0 <= Position (lastInstruction s) <= len (instructions s) ->
  removeLastInstruction (at_scope k t lo s)
  = Ok tt (at_scope k t lo
             {| instructions :=
                  take (Z.to_nat (Position (lastInstruction s)))
                    (instructions s);
                lastInstruction := previousInstruction s;
                previousInstruction := previousInstruction s |}).
Proof.
  intros Hpos. unfold removeLastInstruction, bind.
  rewrite currentScope_at.
  assert (Hs : slice_to (instructions s) (Position (lastInstruction s))
               = Some (take (Z.to_nat (Position (lastInstruction s)))
                         (instructions s)))
    by (apply slice_to_Some; auto).
  rewrite Hs. apply setCurrentScope_at.
Qed.

Lemma replaceInstruction_at k t lo s pre old post new n :
  instructions s = pre ++ old ++ post -> length old = length new ->
  n = len pre ->
  replaceInstruction n new (at_scope k t lo s)
  = Ok tt (at_scope k t lo
             {| instructions := pre ++ new ++ post;
                lastInstruction := lastInstruction s;
                previousInstruction := previousInstruction s |}).
Proof.
  intros Hi Hlen ->. unfold replaceInstruction, bind.
  rewrite currentScope_at, Hi, (overwrite_middle new pre old post Hlen).
  apply setCurrentScope_at.
Qed.

Lemma changeOperand_at k t lo s pre op old post operand n :
  instructions s = pre ++ Make op old ++ post -> n = len pre ->
  changeOperand n operand (at_scope k t lo s)
  = Ok tt (at_scope k t lo
             {| instructions := pre ++ Make op [operand] ++ post;
                lastInstruction := lastInstruction s;
                previousInstruction := previousInstruction s |}).
Proof.
  intros Hi ->. unfold changeOperand, bind at 1. rewrite currentScope_at.
  assert (Hop : index (instructions s) (len pre) = Some (byte_of op)).
  { rewrite Hi. destruct (Make_head op old) as [rest ->]. apply index_middle. }
  rewrite Hop, Lookup_byte_of.
  apply (replaceInstruction_at k t lo s pre (Make op old) post);
    [exact Hi|apply length_Make|reflexivity].
Qed.

Lemma enterScope_at k t lo s :
  enterScope (at_scope k t lo s)
  = Ok tt (at_scope k (Some (NewEnclosedSymbolTable t)) (lo ++ [s])
             emptyScope).
Proof.
  unfold enterScope, at_scope. simpl. rewrite len_app. reflexivity.
Qed.

Lemma leaveScope_at k t lo s s' :
  leaveScope (at_scope k (Some t) (lo ++ [s]) s')
  = Ok (instructions s') (at_scope k (Outer t) lo s).
Proof.
  unfold leaveScope. cbn [symbolTable at_scope scopes scopeIndex constants].
  rewrite index_middle.
  assert (Hs : slice_to ((lo ++ [s]) ++ [s']) (len ((lo ++ [s]) ++ [s']) - 1)
               = Some (lo ++ [s])).
  { apply slice_to_Some. rewrite len_app. unfold len at 2. simpl.
    pose proof (len_nonneg (lo ++ [s])).
    split; [unfold len in *; simpl; lia|].
    replace (Z.to_nat (len (lo ++ [s]) + len [s'] - 1))
      with (length (lo ++ [s])) by (unfold len; simpl; lia).
    rewrite take_app_length. reflexivity. }
  rewrite Hs. unfold at_scope. rewrite len_app. f_equal. f_equal.
  unfold len. simpl. lia.
Qed.

(** *** How the records follow the code *)

Lemma describes_app ins code i op stop :
  describes ins i op stop -> stop <= len ins ->
  describes (ins ++ code) i op stop.
Proof.
  intros (Ho & Hp & Hi & Hs) Hstop. pose proof (width_positive op).
  repeat split; auto. rewrite index_app_l by lia. exact Hi.
Qed.

Lemma describes_take ins i op stop :
  describes ins i op stop -> 0 <= stop ->
  describes (take (Z.to_nat stop) ins) i op stop.
Proof.
  intros (Ho & Hp & Hi & Hs) Hstop. pose proof (width_positive op).
  repeat split; auto. apply index_Some in Hi as [_ Hi].
  apply index_Some. split; [assumption|].
  rewrite lookup_take_lt by lia. exact Hi.
Qed.

Lemma extended_describes s op operands :
  describes (instructions (extended s op operands))
    (lastInstruction (extended s op operands)) op
    (len (instructions (extended s op operands))).
Proof.
  unfold extended. simpl. repeat split; simpl.
  - apply len_nonneg.
  - destruct (Make_head op operands) as [rest ->]. apply index_middle.
  - rewrite len_app, len_Make. reflexivity.
Qed.

Lemma index_at {A} (pre : list A) x post n :
  n = len pre -> index (pre ++ x :: post) n = Some x.
Proof. intros ->. apply index_middle. Qed.

Lemma byte_of_neq a b : a <> b -> byte_of a <> byte_of b.
Proof. intros Hne E. apply Hne. apply byte_of_inj. exact E. Qed.

(** An instruction other than [Pop], emitted. *)
Lemma grows_expr_emit s op operands :
  op <> OpPop -> grows_expr s (extended s op operands).
Proof.
  intros Hop. exists (Make op operands). split; [reflexivity|].
  split; [split; [|split]|].
  - exists op. split; [apply extended_describes|]. intros ->. contradiction.
  - simpl. lia.
  - simpl. intros E. apply byte_of_inj in E. contradiction.
  - simpl. apply byte_of_neq. exact Hop.
Qed.

Lemma grows_refl s : grows s s.
Proof. exists []. rewrite app_nil_r. auto. Qed.

Lemma extends_trans s1 s2 s3 code :
  instructions s2 = instructions s1 ++ code ->
  extends s2 s3 -> extends s1 s3.
Proof.
  intros Hi (Ht & Hp & Hq). rewrite Hi, len_app in Hp, Hq.
  pose proof (len_nonneg code).
  split; [exact Ht|]. split; [lia|]. intros E. specialize (Hq E). lia.
Qed.

Lemma grows_trans s1 s2 s3 : grows s1 s2 -> grows s2 s3 -> grows s1 s3.
Proof.
  intros (code1 & Hi1 & G1) (code2 & Hi2 & G2).
  exists (code1 ++ code2). split; [rewrite Hi2, Hi1, app_assoc; reflexivity|].
  destruct G2 as [->|G2]; [exact G1|].
  right. eapply extends_trans; eassumption.
Qed.

Lemma grows_expr_grows s s' : grows_expr s s' -> grows s s'.
Proof. intros (code & Hi & He & _). exists code. auto. Qed.

Lemma grows_then_expr s1 s2 s3 :
  grows s1 s2 -> grows_expr s2 s3 -> grows_expr s1 s3.
Proof.
  intros (code1 & Hi1 & _) (code2 & Hi2 & He & Hn).
  exists (code1 ++ code2). split; [rewrite Hi2, Hi1, app_assoc; reflexivity|].
  split; [|exact Hn]. eapply extends_trans; eassumption.
Qed.

(** The [Pop] after the code of an expression. *)
Lemma grows_pop s1 s2 :
  grows_expr s1 s2 -> grows s1 (extended s2 OpPop []).
Proof.
  intros (code & Hi & ((op & Hd & _) & Hp & _) & Hn).
  exists (code ++ Make OpPop []).
  split; [simpl; rewrite Hi, app_assoc; reflexivity|]. right.
  assert (Hstart : len (instructions s1) <= len (instructions s2)).
  { rewrite Hi, len_app. pose proof (len_nonneg code). lia. }
  split; [|split].
  - exists OpPop. split; [apply extended_describes|]. intros _.
    exists op. split.
    + intros ->. apply Hn. apply Hd.
    + simpl. apply describes_app; [exact Hd|lia].
  - simpl. exact Hstart.
  - simpl. intros _. exact Hp.
Qed.

End Bookkeeping.

(** ** The compiler: every node adds code at the end of the current scope *)

Section CompileShape.
Import code symbols compiler.
Context `{Numbering} `{object.Names} `{ast.Printer}.

(** Whether a panic is let through: the lemmas of this section are used
    once with [Logic.True], for what a successful [Compile] returns, and
    once with [Logic.False], for the absence of panics; the only panic is
    that of a numbering in which [Pop] is opcode 0. *)
Variable panic_ok : Prop.
Hypothesis pop_zero : byte_of OpPop = 0 -> panic_ok.

Definition outcome {A} (r : Result Compiler A)
    (Q : A -> Compiler -> Prop) : Prop :=
  match r with
  | Ok a c => Q a c
  | Err _ _ => Logic.True
  | Panic => panic_ok
  end.

Lemma outcome_bind {A B} (m : M Compiler A) (f : A -> M Compiler B) c Q :
  outcome (m c) (fun a c1 => outcome (f a c1) Q) -> outcome (bind m f c) Q.
Proof. unfold bind, outcome. destruct (m c); auto. Qed.

Lemma outcome_mono {A} (r : Result Compiler A) (Q Q' : A -> Compiler -> Prop) :
  outcome r Q -> (forall a c, Q a c -> Q' a c) -> outcome r Q'.
Proof. unfold outcome. destruct r; auto. Qed.

(** The compiler after the step: constants are added at the end of the
    pool, the symbol table keeps its depth, the enclosing scopes are
    untouched, and the current scope has changed by [G]. *)
Definition post (G : CompilationScope -> CompilationScope -> Prop)
    (k : list object.Object) (t : option SymbolTable)
    (lo : list CompilationScope) (s : CompilationScope) (c' : Compiler)
  : Prop :=
  exists ks t' s',
    c' = at_scope (k ++ ks) t' lo s' /\ depth t' = depth t /\ G s s'.

Definition compiles (G : CompilationScope -> CompilationScope -> Prop)
    (m : M Compiler unit) : Prop :=
  forall k t lo s,
    (1 <= depth t)%nat ->
    outcome (m (at_scope k t lo s)) (fun _ c' => post G k t lo s c').

Lemma compiles_weaken (G G' : CompilationScope -> CompilationScope -> Prop) m :
  compiles G m -> (forall s s', G s s' -> G' s s') -> compiles G' m.
Proof.
  intros Hm HG k t lo s Ht. eapply outcome_mono; [apply Hm; exact Ht|].
  intros _ c' (ks & t' & s' & -> & Hd & Hs). exists ks, t', s'. auto.
Qed.

Lemma compiles_seq (G1 G2 G3 : CompilationScope -> CompilationScope -> Prop)
    m1 m2 :
  compiles G1 m1 -> compiles G2 m2 ->
  (forall s1 s2 s3, G1 s1 s2 -> G2 s2 s3 -> G3 s1 s3) ->
  compiles G3 (m1 ;;; m2).
Proof.
  intros Hm1 Hm2 HG k t lo s Ht. apply outcome_bind.
  eapply outcome_mono; [apply Hm1; exact Ht|].
  intros _ c1 (ks1 & t1 & s1 & -> & Hd1 & Hs1).
  eapply outcome_mono; [apply Hm2; lia|].
  intros _ c2 (ks2 & t2 & s2 & -> & Hd2 & Hs2).
  exists (ks1 ++ ks2), t2, s2. rewrite app_assoc.
  split; [reflexivity|]. split; [lia|]. eauto.
Qed.

Lemma compiles_fail G msg : compiles G (fail msg).
Proof. intros k t lo s Ht. exact I. Qed.

Lemma compiles_ret : compiles grows (ret tt).
Proof.
  intros k t lo s Ht. exists [], t, s. rewrite app_nil_r.
  split; [reflexivity|]. split; [reflexivity|]. apply grows_refl.
Qed.

Lemma compiles_emit op operands :
  op <> OpPop -> compiles grows_expr (emit_ op operands).
Proof.
  intros Hop k t lo s Ht. rewrite emit__at.
  exists [], t, (extended s op operands). rewrite app_nil_r.
  split; [reflexivity|]. split; [reflexivity|].
  apply grows_expr_emit. exact Hop.
Qed.

Lemma compiles_forEach {A} (f : A -> M Compiler unit) l :
  Forall (fun x => compiles grows (f x)) l -> compiles grows (forEach f l).
Proof.
  induction 1 as [|x l Hx Hl IH]; simpl.
  - apply compiles_ret.
  - eapply compiles_seq; [exact Hx|exact IH|apply grows_trans].
Qed.

Lemma compiles_expressions (f : ast.Expression -> M Compiler unit) l :
  Forall (fun x => compiles grows_expr (f x)) l -> compiles grows (forEach f l).
Proof.
  intros Hl. apply compiles_forEach. eapply Forall_impl; [exact Hl|].
  intros x Hx. eapply compiles_weaken; [exact Hx|apply grows_expr_grows].
Qed.

(** A step that changes the symbol table and keeps its depth. *)
Lemma compiles_table {A} G (f : SymbolTable -> A * SymbolTable)
    (m : A -> M Compiler unit) :
  (forall t, table_depth (snd (f t)) = table_depth t) ->
  (forall a, compiles G (m a)) ->
  compiles G (bind (withTable f) m).
Proof.
  intros Hf Hm k t lo s Ht. destruct t as [t|]; [|simpl in Ht; lia].
  apply outcome_bind. rewrite withTable_at. simpl outcome.
  eapply outcome_mono; [apply Hm; simpl; rewrite Hf; exact Ht|].
  intros _ c' (ks & t' & s' & -> & Hd & Hs). exists ks, t', s'.
  split; [reflexivity|]. split; [|exact Hs]. rewrite Hd. simpl. apply Hf.
Qed.

Lemma compiles_constant o op (operands : Z -> list Z) :
  op <> OpPop ->
  compiles grows_expr (let* i := addConstant o in emit_ op (operands i)).
Proof.
  intros Hop k t lo s Ht. unfold bind. rewrite addConstant_at, emit__at.
  exists [o], t, (extended s op (operands (len k))).
  split; [reflexivity|]. split; [reflexivity|].
  apply grows_expr_emit. exact Hop.
Qed.

Lemma compiles_loadSymbol symbol : compiles grows_expr (loadSymbol symbol).
Proof.
  unfold loadSymbol. destruct (SymbolScope symbol);
    apply compiles_emit; discriminate.
Qed.

Lemma expr_then_expr s1 s2 s3 :
  grows_expr s1 s2 -> grows_expr s2 s3 -> grows_expr s1 s3.
Proof. intros G1 G2. eapply grows_then_expr; [apply grows_expr_grows|]; eassumption. Qed.

(** *** The last [Pop] of a block *)

Definition settled (s : CompilationScope) : Prop :=
  tracked s /\ Opcode (lastInstruction s) <> byte_of OpPop.

(** The scope after [removeLastPop]. *)
Definition without_last_pop (s : CompilationScope) : CompilationScope :=
  if Opcode (lastInstruction s) =? byte_of OpPop then
    {| instructions :=
         take (Z.to_nat (Position (lastInstruction s))) (instructions s);
       lastInstruction := previousInstruction s;
       previousInstruction := previousInstruction s |}
  else s.

(** The [Pop] that [removeLastPop] takes off, if any. *)
Definition last_pop (s : CompilationScope) : list Z :=
  if Opcode (lastInstruction s) =? byte_of OpPop then Make OpPop [] else [].

Lemma width_Pop : width OpPop = 1.
Proof. reflexivity. Qed.

Lemma take_last {A} (l : list A) (q : Z) (x : A) :
  index l q = Some x -> q + 1 = len l -> l = take (Z.to_nat q) l ++ [x].
Proof.
  intros [Hq Hx]%index_Some Hlen.
  rewrite <- (take_drop (Z.to_nat q) l) at 1. f_equal.
  pose proof (lookup_drop l (Z.to_nat q) 0) as Hd.
  rewrite Nat.add_0_r, Hx in Hd.
  assert (Hl : length (drop (Z.to_nat q) l) = 1%nat)
    by (rewrite length_drop; unfold len in Hlen; lia).
  destruct (drop (Z.to_nat q) l) as [|y [|z r]]; try discriminate Hl.
  simpl in Hd. congruence.
Qed.

Lemma removeLastPop_at k t lo s0 s :
  settled s0 -> grows s0 s ->
  removeLastPop (at_scope k t lo s)
  = Ok tt (at_scope k t lo (without_last_pop s)) /\
  settled (without_last_pop s) /\
  (without_last_pop s = s0 \/
   len (instructions s0) <= Position (lastInstruction (without_last_pop s))) /\
  exists code,
    instructions (without_last_pop s) = instructions s0 ++ code /\
    instructions s = instructions s0 ++ code ++ last_pop s.
Proof.
  intros [Ht0 Hn0] (code & Hi & Hs).
  unfold removeLastPop, bind, without_last_pop, last_pop.
  rewrite lastInstructionIs_at.
  destruct (Z.eqb_spec (Opcode (lastInstruction s)) (byte_of OpPop))
    as [E|E].
  - destruct Hs as [->|((op & Hd & Hprev) & Hp & Hq)]; [contradiction|].
    assert (op = OpPop) as ->.
    { destruct Hd as (Ho & _). apply byte_of_inj. congruence. }
    destruct (Hprev eq_refl) as (op' & Hne & Hd').
    specialize (Hq E). pose proof Hd as (_ & Hpos & Hidx & Hstop).
    rewrite width_Pop in Hstop.
    set (q := Position (lastInstruction s)) in *.
    rewrite removeLastInstruction_at by (fold q; lia).
    split; [reflexivity|]. fold q. cbn [instructions lastInstruction].
    assert (Hlen : len (take (Z.to_nat q) (instructions s)) = q)
      by (unfold len in *; rewrite length_take; lia).
    split; [split|split].
    + exists op'. cbn [instructions lastInstruction previousInstruction].
      rewrite Hlen. split; [apply describes_take; [exact Hd'|lia]|].
      intros ->. contradiction.
    + cbn [lastInstruction]. destruct Hd' as (-> & _).
      apply byte_of_neq. exact Hne.
    + right. exact Hq.
    + exists (take (Z.to_nat q - length (instructions s0)) code).
      split.
      * rewrite Hi. apply take_app_ge. unfold len in Hp. lia.
      * rewrite app_assoc, <- take_app_ge by (unfold len in Hp; lia).
        rewrite <- Hi. apply take_last; [exact Hidx|lia].
  - split; [reflexivity|]. split; [|split].
    + split; [|exact E]. destruct Hs as [->|[Ht _]]; assumption.
    + destruct Hs as [->|(_ & Hp & _)]; auto.
    + exists code. rewrite app_nil_r. auto.
Qed.

(** *** Conditionals *)

(** What [Compile] has done on a conditional when it returns [c']: the
    condition is compiled, then a [JumpNotTrue], the consequence without
    its last [Pop], a [Jump], and the alternative without its last [Pop],
    or a [Null] when there is none; [JumpNotTrue] holds the position
    after the [Jump], and [Jump] the position after the alternative. *)
Definition conditional_shape (condition : ast.Expression)
    (thenBlock : list ast.Statement) (elseBlock : option (list ast.Statement))
    (k : list object.Object) (t : option SymbolTable)
    (lo : list CompilationScope) (s : CompilationScope) (c' : Compiler)
  : Prop :=
  exists k1 t1 s1 k3 t3 s3 code_t s',
    Compile_expression condition (at_scope k t lo s)
    = Ok tt (at_scope k1 t1 lo s1) /\
    forEach Compile_statement thenBlock
      (at_scope k1 t1 lo (extended s1 OpJumpNotTrue [-1]))
    = Ok tt (at_scope k3 t3 lo s3) /\
    instructions s3
    = instructions s1 ++ Make OpJumpNotTrue [-1] ++ code_t ++ last_pop s3 /\
    let after_then :=
      len (instructions s1 ++ Make OpJumpNotTrue [-1] ++ code_t
           ++ Make OpJump [-1]) in
    match elseBlock with
    | None =>
        c' = at_scope k3 t3 lo s' /\
        instructions s'
        = instructions s1 ++ Make OpJumpNotTrue [after_then] ++ code_t
          ++ Make OpJump [after_then + 1] ++ Make OpNull []
    | Some elseStatements =>
        exists s6 k7 t7 s7 code_e,
          instructions s6
          = instructions s1 ++ Make OpJumpNotTrue [after_then] ++ code_t
            ++ Make OpJump [-1] /\
          forEach Compile_statement elseStatements (at_scope k3 t3 lo s6)
          = Ok tt (at_scope k7 t7 lo s7) /\
          instructions s7 = instructions s6 ++ code_e ++ last_pop s7 /\
          c' = at_scope k7 t7 lo s' /\
          instructions s'
          = instructions s1 ++ Make OpJumpNotTrue [after_then] ++ code_t
            ++ Make OpJump [after_then + len code_e] ++ code_e
    end.

Lemma settled_extended s op operands :
  op <> OpPop -> settled (extended s op operands).
Proof.
  intros Hop. destruct (grows_expr_emit s op operands Hop)
    as (_ & _ & (Ht & _) & Hn).
  split; assumption.
Qed.

Lemma If_compiles condition thenBlock elseBlock :
  compiles grows_expr (Compile_expression condition) ->
  Forall (fun x => compiles grows (Compile_statement x)) thenBlock ->
  match elseBlock with
  | Some l => Forall (fun x => compiles grows (Compile_statement x)) l
  | None => Logic.True
  end ->
  forall k t lo s,
    (1 <= depth t)%nat ->
    outcome
      (Compile_expression (ast.IfExpression condition thenBlock elseBlock)
         (at_scope k t lo s))
      (fun _ c' =>
         post grows_expr k t lo s c' /\
         conditional_shape condition thenBlock elseBlock k t lo s c').
Proof.
  intros Hc Hthen Helse k t lo s Ht. simpl Compile_expression.
  (* the condition *)
  unfold bind at 1. pose proof (Hc k t lo s Ht) as H1'.
  destruct (Compile_expression condition (at_scope k t lo s))
    as [[] c1|msg c1|] eqn:E1; [|exact I|exact H1'].
  destruct H1' as (ks1 & t1 & s1 & -> & Hd1 & G1).
  (* JumpNotTrue *)
  unfold bind at 1. rewrite emit_at.
  set (s2 := extended s1 OpJumpNotTrue [-1]).
  assert (Hset2 : settled s2) by (apply settled_extended; discriminate).
  (* the consequence *)
  unfold bind at 1.
  pose proof (compiles_forEach _ _ Hthen (k ++ ks1) t1 lo s2 ltac:(lia))
    as H3'.
  destruct (forEach Compile_statement thenBlock (at_scope (k ++ ks1) t1 lo s2))
    as [[] c3|msg c3|] eqn:E3; [|exact I|exact H3'].
  destruct H3' as (ks3 & t3 & s3 & -> & Hd3 & G3).
  destruct (removeLastPop_at ((k ++ ks1) ++ ks3) t3 lo s2 s3 Hset2 G3)
    as (E4 & Hset4 & Hpos4 & code_t & Hi4 & Hi3).
  unfold bind at 1. rewrite E4.
  set (s4 := without_last_pop s3) in *.
  set (s5 := extended s4 OpJump [-1]).
  assert (Hi5 : instructions s5
                = instructions s1 ++ Make OpJumpNotTrue [-1] ++ code_t
                  ++ Make OpJump [-1]).
  { subst s5. simpl. rewrite Hi4. subst s2. simpl.
    rewrite <- !app_assoc. reflexivity. }
  assert (Hstart : len (instructions s) <= len (instructions s1)).
  { destruct G1 as (code_c & -> & _). rewrite len_app.
    pose proof (len_nonneg code_c). lia. }
  assert (Hlen4 : len (instructions s4)
                  = len (instructions s1) + width OpJumpNotTrue + len code_t).
  { rewrite Hi4. subst s2. cbn [instructions extended].
    rewrite !len_app, len_Make. reflexivity. }
  assert (Hlen5 : len (instructions s5)
                  = len (instructions s4) + width OpJump).
  { subst s5. cbn [instructions extended]. rewrite len_app, len_Make.
    reflexivity. }
  pose proof (width_positive OpJumpNotTrue) as Hwj.
  pose proof (width_positive OpJump) as Hwk.
  pose proof (len_nonneg code_t) as Hct.
  assert (Hshape3 : instructions s3
            = instructions s1 ++ Make OpJumpNotTrue [-1] ++ code_t
              ++ last_pop s3).
  { rewrite Hi3. subst s2. cbn [instructions extended].
    rewrite <- !app_assoc. reflexivity. }
  destruct elseBlock as [elseStatements|].
  - (* with an alternative *)
    unfold bind at 1. rewrite emit_at. fold s5.
    unfold bind at 1. rewrite currentLength_at.
    unfold bind at 1.
    rewrite (changeOperand_at _ _ _ s5 (instructions s1) OpJumpNotTrue [-1]
               (code_t ++ Make OpJump [-1])) by (exact Hi5 || reflexivity).
    set (s6 := {| instructions :=
                    instructions s1
                    ++ Make OpJumpNotTrue [len (instructions s5)]
                    ++ code_t ++ Make OpJump [-1];
                  lastInstruction := lastInstruction s5;
                  previousInstruction := previousInstruction s5 |}).
    assert (Hlen6 : len (instructions s6) = len (instructions s5)).
    { subst s6. cbn [instructions]. rewrite Hi5, !len_app, !len_Make.
      reflexivity. }
    assert (Hset6 : settled s6).
    { split; [|subst s6 s5; simpl; apply byte_of_neq; discriminate].
      exists OpJump. split; [|discriminate].
      subst s6 s5. cbn [instructions lastInstruction extended].
      repeat split; cbn [Opcode Position].
      - apply len_nonneg.
      - destruct (Make_head OpJump [-1]) as [rest ->].
        rewrite !app_assoc. apply index_at.
        rewrite !len_app, len_Make. lia.
      - rewrite !len_app, !len_Make. lia. }
    (* the alternative *)
    unfold bind at 1.
    pose proof (compiles_forEach _ _ Helse ((k ++ ks1) ++ ks3) t3 lo s6
                  ltac:(lia)) as H7'.
    destruct (forEach Compile_statement elseStatements
                (at_scope ((k ++ ks1) ++ ks3) t3 lo s6))
      as [[] c7|msg c7|] eqn:E7; [|exact I|exact H7'].
    destruct H7' as (ks7 & t7 & s7 & -> & Hd7 & G7).
    destruct (removeLastPop_at (((k ++ ks1) ++ ks3) ++ ks7) t7 lo s6 s7
                Hset6 G7)
      as (E8 & Hset8 & Hpos8 & code_e & Hi8 & Hi7).
    unfold bind at 1. rewrite E8.
    set (s8 := without_last_pop s7) in *.
    unfold bind at 1. rewrite currentLength_at.
    rewrite (changeOperand_at _ _ _ s8
               (instructions s1 ++ Make OpJumpNotTrue [len (instructions s5)]
                ++ code_t) OpJump [-1] code_e)
      by (first [ rewrite Hi8; subst s6; cbn [instructions];
                  rewrite <- !app_assoc; reflexivity
                | rewrite !len_app, len_Make; lia ]).
    cbn [outcome].
    set (s9 := {| instructions :=
                    (instructions s1
                     ++ Make OpJumpNotTrue [len (instructions s5)] ++ code_t)
                    ++ Make OpJump [len (instructions s8)] ++ code_e;
                  lastInstruction := lastInstruction s8;
                  previousInstruction := previousInstruction s8 |}).
    assert (Hlen8 : len (instructions s8)
                    = len (instructions s5) + len code_e).
    { rewrite Hi8, len_app. lia. }
    assert (Hlen9 : len (instructions s9) = len (instructions s8)).
    { subst s9. cbn [instructions]. rewrite !len_app, !len_Make.
      rewrite Hlen8, Hlen5, Hlen4. lia. }
    assert (Hset9 : settled s9 /\
              len (instructions s) <= Position (lastInstruction s9)).
    { destruct Hset8 as [(op & (Ho & Hp & Hidx & Hstop) & _) Hn8].
      assert (Hat : index (instructions s9) (Position (lastInstruction s8))
                    = Some (byte_of op) /\
                    len (instructions s) <= Position (lastInstruction s8)).
      { destruct Hpos8 as [E|Hge].
        - rewrite E in *. subst s6 s5.
          cbn [lastInstruction extended Opcode Position] in *.
          apply byte_of_inj in Ho as <-. split; [|lia].
          subst s9. cbn [instructions].
          destruct (Make_head OpJump [len (instructions s8)]) as [rest ->].
          apply index_at. rewrite !len_app, len_Make. lia.
        - split; [|lia]. subst s9. cbn [instructions].
          rewrite Hi8 in Hidx. subst s6. cbn [instructions] in *.
          rewrite !app_assoc in Hidx |- *.
          rewrite index_app_r in Hidx |- *
            by (rewrite ?len_app, ?len_Make in *; lia).
          rewrite <- Hidx. f_equal.
          rewrite !len_app, !len_Make. reflexivity. }
      destruct Hat as [Hat Hge]. split; [split|exact Hge].
      - exists op. split; [|intros ->; contradiction].
        change (lastInstruction s9) with (lastInstruction s8).
        repeat split; auto. lia.
      - exact Hn8. }
    destruct Hset9 as [[Ht9 Hn9] Hge9].
    split.
    + exists (ks1 ++ ks3 ++ ks7), t7, s9. rewrite !app_assoc.
      split; [reflexivity|]. split; [lia|].
      destruct G1 as (code_c & Hi1 & _).
      exists (code_c ++ Make OpJumpNotTrue [len (instructions s5)] ++ code_t
              ++ Make OpJump [len (instructions s8)] ++ code_e).
      split; [subst s9; cbn [instructions]; rewrite Hi1, <- !app_assoc;
              reflexivity|].
      split; [|exact Hn9]. split; [exact Ht9|]. split; [exact Hge9|].
      intros E. contradiction.
    + exists (k ++ ks1), t1, s1, ((k ++ ks1) ++ ks3), t3, s3, code_t, s9.
      split; [exact E1|]. split; [exact E3|]. split; [exact Hshape3|].
      cbn zeta. rewrite <- Hi5.
      exists s6, (((k ++ ks1) ++ ks3) ++ ks7), t7, s7, code_e.
      split; [reflexivity|]. split; [exact E7|]. split; [exact Hi7|].
      split; [reflexivity|]. subst s9. cbn [instructions].
      rewrite Hlen8, <- !app_assoc. reflexivity.
  - (* without *)
    unfold bind at 1. rewrite emit_at. fold s5.
    unfold bind at 1. rewrite currentLength_at.
    unfold bind at 1. rewrite emit__at.
    set (s6 := extended s5 OpNull []).
    unfold bind at 1. rewrite currentLength_at.
    unfold bind at 1.
    rewrite (changeOperand_at _ _ _ s6 (instructions s4) OpJump [-1]
               (Make OpNull []))
      by (first [ subst s6 s5; cbn [instructions extended];
                  rewrite <- !app_assoc; reflexivity
                | reflexivity ]).
    rewrite (changeOperand_at _ _ _ _ (instructions s1) OpJumpNotTrue [-1]
               (code_t ++ Make OpJump [len (instructions s6)]
                ++ Make OpNull []))
      by (first [ cbn [instructions]; rewrite Hi4; subst s2;
                  cbn [instructions extended];
                  rewrite <- !app_assoc; reflexivity
                | reflexivity ]).
    cbn [outcome instructions lastInstruction previousInstruction].
    set (s8 := {| instructions :=
                    instructions s1
                    ++ Make OpJumpNotTrue [len (instructions s5)]
                    ++ code_t ++ Make OpJump [len (instructions s6)]
                    ++ Make OpNull [];
                  lastInstruction := lastInstruction s6;
                  previousInstruction := previousInstruction s6 |}).
    assert (Hlen6 : len (instructions s6) = len (instructions s5) + 1).
    { subst s6. cbn [instructions extended]. rewrite len_app. reflexivity. }
    assert (Ht8 : tracked s8).
    { exists OpNull. split; [|discriminate].
      subst s8 s6. cbn [instructions lastInstruction extended].
      repeat split; cbn [Opcode Position].
      - apply len_nonneg.
      - change (Make OpNull []) with [byte_of OpNull].
        rewrite !app_assoc. apply index_at.
        rewrite !len_app, !len_Make. lia.
      - rewrite !len_app, !len_Make. change (width OpNull) with 1. lia. }
    split.
    + exists (ks1 ++ ks3), t3, s8. rewrite !app_assoc.
      split; [reflexivity|]. split; [lia|].
      destruct G1 as (code_c & Hi1 & _).
      exists (code_c ++ Make OpJumpNotTrue [len (instructions s5)] ++ code_t
              ++ Make OpJump [len (instructions s6)] ++ Make OpNull []).
      split; [subst s8; cbn [instructions]; rewrite Hi1, <- !app_assoc;
              reflexivity|].
      split; [|subst s8 s6; cbn [lastInstruction extended Opcode];
               apply byte_of_neq; discriminate].
      split; [exact Ht8|].
      split; [subst s8 s6; cbn [lastInstruction extended Position]; lia|].
      subst s8 s6. cbn [lastInstruction extended Opcode].
      intros E%byte_of_inj. discriminate E.
    + exists (k ++ ks1), t1, s1, ((k ++ ks1) ++ ks3), t3, s3, code_t, s8.
      split; [exact E1|]. split; [exact E3|]. split; [exact Hshape3|].
      cbn zeta. rewrite <- Hi5. split; [reflexivity|].
      subst s8. cbn [instructions]. rewrite Hlen6. reflexivity.
Qed.

(** *** Function literals *)

Lemma parameters_at ps :
  forall k t lo s,
  exists t',
    forEach (fun parameter => withTable (Define parameter) ;;; ret tt) ps
      (at_scope k (Some t) lo s)
    = Ok tt (at_scope k (Some t') lo s) /\
    table_depth t' = table_depth t.
Proof.
  induction ps as [|p ps IH]; intros k t lo s; simpl.
  - exists t. auto.
  - unfold bind at 1. unfold bind at 1. rewrite withTable_at.
    unfold ret at 1.
    destruct (IH k (snd (Define p t)) lo s) as (t' & E & Hd).
    exists t'. split; [exact E|]. rewrite Hd. apply depth_Define.
Qed.

Lemma replaceLastPopWithReturn_empty k t lo :
  replaceLastPopWithReturn (at_scope k t lo emptyScope) = Panic.
Proof.
  unfold replaceLastPopWithReturn, bind at 1. rewrite currentScope_at.
  unfold bind at 1, replaceInstruction, bind at 1.
  rewrite currentScope_at. reflexivity.
Qed.

Lemma replaceLastPopWithReturn_at k t lo s x :
  index (instructions s) (Position (lastInstruction s)) = Some x ->
  Position (lastInstruction s) + 1 = len (instructions s) ->
  replaceLastPopWithReturn (at_scope k t lo s)
  = Ok tt (at_scope k t lo
             {| instructions :=
                  take (Z.to_nat (Position (lastInstruction s)))
                    (instructions s) ++ Make OpReturnValue [] ++ [];
                lastInstruction :=
                  {| Opcode := byte_of OpReturnValue;
                     Position := Position (lastInstruction s) |};
                previousInstruction := previousInstruction s |}).
Proof.
  intros Hx Hlen. pose proof (index_lt _ _ _ Hx) as Hq.
  unfold replaceLastPopWithReturn, bind at 1. rewrite currentScope_at.
  unfold bind at 1.
  rewrite (replaceInstruction_at k t lo s
             (take (Z.to_nat (Position (lastInstruction s))) (instructions s))
             [x] [] (Make OpReturnValue []));
    [|apply take_last; assumption|reflexivity
     |unfold len in *; rewrite length_take; lia].
  unfold bind at 1. rewrite currentScope_at. apply setCurrentScope_at.
Qed.

Lemma compiles_loads free : compiles grows (forEach loadSymbol free).
Proof.
  apply compiles_forEach. apply Forall_forall. intros symbol _.
  eapply compiles_weaken; [apply compiles_loadSymbol|apply grows_expr_grows].
Qed.

(** From the check for a final [ReturnValue] to the [Closure]. *)
Lemma function_tail (ps : list string) K t2 lo s sr :
  (2 <= table_depth t2)%nat ->
  outcome
    ((let* isReturnValue := lastInstructionIs OpReturnValue in
      (if isReturnValue : bool then ret tt else emit_ OpReturn []) ;;;
      let* freeSymbols := withTable (fun t => (FreeSymbols t, t)) in
      let* localCount := withTable (fun t => (numDefinitions t, t)) in
      let* instructions := leaveScope in
      forEach loadSymbol freeSymbols ;;;
      let compiledFunction :=
        object.CompiledFunction instructions localCount (len ps) in
      let* i := addConstant compiledFunction in
      emit_ OpClosure [i; len freeSymbols])
       (at_scope K (Some t2) (lo ++ [s]) sr))
    (fun _ c' => post grows_expr K (Outer t2) lo s c').
Proof.
  intros Hd. destruct (depth_Outer t2 Hd) as (o & Ho & Hdo).
  unfold bind at 1. rewrite lastInstructionIs_at.
  assert (Hret : exists sr',
    (if Opcode (lastInstruction sr) =? byte_of OpReturnValue
     then ret tt else emit_ OpReturn [])
      (at_scope K (Some t2) (lo ++ [s]) sr)
    = Ok tt (at_scope K (Some t2) (lo ++ [s]) sr')).
  { destruct (Opcode (lastInstruction sr) =? byte_of OpReturnValue).
    - exists sr. reflexivity.
    - eexists. apply emit__at. }
  destruct Hret as (sr' & Hret).
  unfold bind at 1. rewrite Hret.
  unfold bind at 1. rewrite withTable_at. cbn [fst snd].
  unfold bind at 1. rewrite withTable_at. cbn [fst snd].
  unfold bind at 1. rewrite leaveScope_at.
  cbv zeta.
  assert (Htail : compiles grows_expr
            (forEach loadSymbol (FreeSymbols t2) ;;;
             (let* i := addConstant
                (object.CompiledFunction (instructions sr')
                   (numDefinitions t2) (len ps)) in
              emit_ OpClosure [i; len (FreeSymbols t2)]))).
  { eapply compiles_seq; [apply compiles_loads| |apply grows_then_expr].
    apply (compiles_constant _ OpClosure
             (fun i => [i; len (FreeSymbols t2)])).
    discriminate. }
  apply Htail. rewrite Ho. simpl. lia.
Qed.

Lemma Function_compiles ps body :
  Forall (fun x => compiles grows (Compile_statement x)) body ->
  compiles grows_expr
    (Compile_expression (ast.FunctionExpression ps body)).
Proof.
  intros Hb k t lo s Ht. simpl Compile_expression.
  unfold bind at 1. rewrite enterScope_at.
  destruct (parameters_at ps k (NewEnclosedSymbolTable t) (lo ++ [s])
              emptyScope) as (tP & EP & HdP).
  unfold bind at 1. rewrite EP.
  assert (HtP : table_depth tP = Datatypes.S (depth t)).
  { rewrite HdP. destruct t; reflexivity. }
  unfold bind at 1.
  pose proof (compiles_forEach _ _ Hb k (Some tP) (lo ++ [s]) emptyScope
                ltac:(simpl; lia)) as H2'.
  destruct (forEach Compile_statement body
              (at_scope k (Some tP) (lo ++ [s]) emptyScope))
    as [[] c2|msg c2|]; [|exact I|exact H2'].
  destruct H2' as (ks2 & t2 & sb & -> & Hd2 & G2).
  destruct t2 as [t2|]; [|simpl in Hd2; lia]. simpl in Hd2.
  assert (Hfinish : forall sr,
    outcome
      ((let* isReturnValue := lastInstructionIs OpReturnValue in
        (if isReturnValue : bool then ret tt else emit_ OpReturn []) ;;;
        let* freeSymbols := withTable (fun t => (FreeSymbols t, t)) in
        let* localCount := withTable (fun t => (numDefinitions t, t)) in
        let* instructions := leaveScope in
        forEach loadSymbol freeSymbols ;;;
        let compiledFunction :=
          object.CompiledFunction instructions localCount (len ps) in
        let* i := addConstant compiledFunction in
        emit_ OpClosure [i; len freeSymbols])
         (at_scope (k ++ ks2) (Some t2) (lo ++ [s]) sr))
      (fun _ c' => post grows_expr k t lo s c')).
  { intros sr. eapply outcome_mono; [apply function_tail; lia|].
    intros _ c' (ks & t' & s' & -> & Hd' & Hs').
    exists (ks2 ++ ks), t', s'. rewrite app_assoc.
    split; [reflexivity|]. split; [|exact Hs'].
    rewrite Hd'. destruct (depth_Outer t2 ltac:(lia)) as (o & -> & Hdo).
    simpl. lia. }
  unfold bind at 1. rewrite lastInstructionIs_at.
  destruct (Z.eqb_spec (Opcode (lastInstruction sb)) (byte_of OpPop))
    as [E|E].
  - destruct G2 as (code & Hi & [->|((op & Hdesc & _) & _)]).
    + unfold bind at 1. rewrite replaceLastPopWithReturn_empty.
      apply pop_zero. symmetry. exact E.
    + destruct Hdesc as (Ho & Hp & Hidx & Hstop).
      assert (op = OpPop) as -> by (apply byte_of_inj; congruence).
      rewrite width_Pop in Hstop.
      unfold bind at 1.
      rewrite (replaceLastPopWithReturn_at _ _ _ sb _ Hidx Hstop).
      apply Hfinish.
  - unfold bind at 1. unfold ret at 1. apply Hfinish.
Qed.

(** *** Every node *)

Lemma Compile_compiles :
  (forall e, compiles grows_expr (Compile_expression e)) /\
  (forall s, compiles grows (Compile_statement s)).
Proof.
  apply Ast_all.
  - (* Identifier *)
    intros v. simpl. apply compiles_table; [apply depth_Resolve|].
    intros [symbol|]; [apply compiles_loadSymbol|apply compiles_fail].
  - intros v. simpl.
    apply (compiles_constant _ OpConstant (fun i => [i])). discriminate.
  - intros v. simpl.
    apply (compiles_constant _ OpConstant (fun i => [i])). discriminate.
  - intros []; simpl; apply compiles_emit; discriminate.
  - (* Prefix *)
    intros op r IH. simpl.
    eapply compiles_seq; [exact IH| |apply expr_then_expr].
    unfold prefixOpcode.
    repeat match goal with
           | |- context [if ?b then _ else _] => destruct b
           end;
      [apply compiles_emit; discriminate..|apply compiles_fail].
  - (* Infix *)
    intros l op r IHl IHr. simpl. destruct (String.eqb op "<").
    + eapply compiles_seq; [exact IHr| |apply expr_then_expr].
      eapply compiles_seq; [exact IHl| |apply expr_then_expr].
      apply compiles_emit. discriminate.
    + eapply compiles_seq; [exact IHl| |apply expr_then_expr].
      eapply compiles_seq; [exact IHr| |apply expr_then_expr].
      unfold infixOpcode.
      repeat match goal with
             | |- context [if ?b then _ else _] => destruct b
             end;
        [apply compiles_emit; discriminate..|apply compiles_fail].
  - (* If *)
    intros cond t e IHc IHt IHe k t0 lo s Ht.
    eapply outcome_mono; [apply If_compiles; assumption|].
    intros _ c' [Hpost _]. exact Hpost.
  - (* Function *)
    intros ps b IHb. apply Function_compiles. exact IHb.
  - (* Call *)
    intros f args IHf IHargs. simpl.
    eapply compiles_seq; [exact IHf| |apply expr_then_expr].
    eapply compiles_seq;
      [apply compiles_expressions; exact IHargs| |apply grows_then_expr].
    apply compiles_emit. discriminate.
  - (* Array *)
    intros els IH. simpl.
    eapply compiles_seq;
      [apply compiles_expressions; exact IH| |apply grows_then_expr].
    apply compiles_emit. discriminate.
  - (* Hash *)
    intros pairs IH. simpl.
    eapply compiles_seq; [| |apply grows_then_expr];
      [|apply compiles_emit; discriminate].
    apply compiles_forEach. unfold sortKeys.
    rewrite Slice_Permutation.
    induction IH as [|[key val] l [Hk Hv] Hl IHl]; constructor; [|exact IHl].
    simpl. eapply compiles_weaken; [|apply grows_expr_grows].
    eapply compiles_seq; [exact Hk|exact Hv|apply expr_then_expr].
  - (* Index *)
    intros a i IHa IHi. simpl.
    eapply compiles_seq; [exact IHa| |apply expr_then_expr].
    eapply compiles_seq; [exact IHi| |apply expr_then_expr].
    apply compiles_emit. discriminate.
  - (* Let *)
    intros n v IH. simpl.
    eapply compiles_weaken; [|apply grows_expr_grows].
    apply compiles_table; [apply depth_Define|]. intros symbol.
    eapply compiles_seq; [exact IH| |apply expr_then_expr].
    destruct (decide _); apply compiles_emit; discriminate.
  - (* Return *)
    intros r IH. simpl.
    eapply compiles_weaken; [|apply grows_expr_grows].
    eapply compiles_seq; [exact IH| |apply expr_then_expr].
    apply compiles_emit. discriminate.
  - (* ExpressionStatement *)
    intros e IH k t lo s Ht. simpl. apply outcome_bind.
    eapply outcome_mono; [apply IH; exact Ht|].
    intros _ c1 (ks1 & t1 & s1 & -> & Hd1 & G1).
    rewrite emit__at. exists ks1, t1, (extended s1 OpPop []).
    split; [reflexivity|]. split; [exact Hd1|]. apply grows_pop. exact G1.
  - (* Block *)
    intros l IH. simpl. apply compiles_forEach. exact IH.
Qed.

Lemma Compile_node_compiles node : compiles grows (Compile node).
Proof.
  destruct Compile_compiles as [He Hs].
  destruct node as [statements|statement|expression]; simpl.
  - apply compiles_forEach. apply Forall_forall. intros x _. apply Hs.
  - apply Hs.
  - eapply compiles_weaken; [apply He|apply grows_expr_grows].
Qed.

End CompileShape.

(** *** What a compilation does to the compiler *)

Section CompileFacts.
Import code symbols compiler.
Context `{Numbering} `{object.Names} `{ast.Printer}.

Lemma no_panic_needed : byte_of OpPop = 0 -> Logic.True.
Proof. intros _. exact I. Qed.

(** X11: from a compiler that has a symbol table and is in the last of
    its scopes, [Compile] panics on no node exactly when the byte of
    [Pop] is not the zero byte: every index it then uses on the
    instructions and on the scopes is in range.  When [Pop] is the zero
    byte, the empty record of a fresh scope reads as a [Pop], and a
    function literal with an empty body panics. *)
Theorem Compile_never_panics k t lo s :
  (1 <= depth t)%nat ->
  byte_of OpPop <> 0 <->
  forall node, Compile node (at_scope k t lo s) <> Panic.
Proof.
  intros Ht. split.
  - intros Hpop node E.
    pose proof (Compile_node_compiles Logic.False Hpop node k t lo s Ht)
      as Ho.
    rewrite E in Ho. exact Ho.
  - intros Hall Hpop.
    apply (Hall (ast.Expr (ast.FunctionExpression [] []))).
    simpl. unfold bind at 1. rewrite enterScope_at.
    unfold bind at 1. simpl forEach. unfold ret at 1.
    unfold bind at 1. unfold ret at 1.
    unfold bind at 1. unfold bind at 1.
    rewrite lastInstructionIs_at. simpl Opcode. rewrite Hpop. simpl.
    rewrite replaceLastPopWithReturn_empty. reflexivity.
Qed.

(** X12: a [Compile] that returns no error has only added: constants at
    the end of the pool and instructions at the end of the current
    scope; the enclosing scopes and the scope index are as before, and
    the symbol table has as many enclosing tables as before. *)
Theorem Compile_appends node k t lo s c' :
  (1 <= depth t)%nat ->
  Compile node (at_scope k t lo s) = Ok tt c' ->
  exists ks t' s' code,
    c' = at_scope (k ++ ks) t' lo s' /\
    depth t' = depth t /\
    instructions s' = instructions s ++ code.
Proof.
  intros Ht E.
  pose proof (Compile_node_compiles Logic.True no_panic_needed
                node k t lo s Ht) as Ho.
  rewrite E in Ho. destruct Ho as (ks & t' & s' & -> & Hd & code & Hi & _).
  exists ks, t', s', code. auto.
Qed.

(** X13: after a [Compile] that returns no error, the current scope is
    unchanged or its [lastInstruction] records the instruction its code
    ends with, an instruction that this [Compile] added. *)
Theorem Compile_tracks node k t lo s c' :
  (1 <= depth t)%nat ->
  Compile node (at_scope k t lo s) = Ok tt c' ->
  exists s',
    current c' = Some s' /\
    (s' = s \/
     exists op,
       describes (instructions s') (lastInstruction s') op
         (len (instructions s')) /\
       len (instructions s) <= Position (lastInstruction s')).
Proof.
  intros Ht E.
  pose proof (Compile_node_compiles Logic.True no_panic_needed
                node k t lo s Ht) as Ho.
  rewrite E in Ho. destruct Ho as (ks & t' & s' & -> & Hd & code & Hi & Hs).
  exists s'. split; [apply current_at_scope|].
  destruct Hs as [->|((op & Hdesc & _) & Hp & _)]; [left; reflexivity|].
  right. exists op. auto.
Qed.

(** X14: the code a compiled expression adds is not empty and does not
    end with a [Pop]: [lastInstruction] records its last instruction. *)
Theorem Compile_expression_ends e k t lo s c' :
  (1 <= depth t)%nat ->
  Compile_expression e (at_scope k t lo s) = Ok tt c' ->
  exists s' code op,
    current c' = Some s' /\
    instructions s' = instructions s ++ code /\ code <> [] /\
    op <> OpPop /\
    describes (instructions s') (lastInstruction s') op
      (len (instructions s')).
Proof.
  intros Ht E.
  destruct (Compile_compiles Logic.True no_panic_needed) as [He _].
  pose proof (He e k t lo s Ht) as Ho.
  rewrite E in Ho.
  destruct Ho as (ks & t' & s' & -> & Hd & code & Hi & Hs & Hn).
  destruct Hs as ((op & Hdesc & _) & Hp & _).
  exists s', code, op. split; [apply current_at_scope|].
  split; [exact Hi|]. split; [|split; [|exact Hdesc]].
  - intros ->. rewrite app_nil_r in Hi.
    destruct Hdesc as (_ & _ & _ & Hstop).
    pose proof (width_positive op). rewrite Hi in Hstop. lia.
  - intros ->. destruct Hdesc as (Ho & _). contradiction.
Qed.

(** X15: the code of a conditional that compiles: the condition, a
    [JumpNotTrue] to the position after the [Jump], the consequence
    without its last [Pop], a [Jump] to the position after the
    alternative, and the alternative without its last [Pop], a [Null]
    when there is none. *)
Theorem If_jump_targets condition thenBlock elseBlock k t lo s c' :
  (1 <= depth t)%nat ->
  Compile_expression (ast.IfExpression condition thenBlock elseBlock)
    (at_scope k t lo s) = Ok tt c' ->
  conditional_shape condition thenBlock elseBlock k t lo s c'.
Proof.
  intros Ht E.
  destruct (Compile_compiles Logic.True no_panic_needed) as [He Hs].
  assert (Hall : forall l,
             Forall (fun x => compiles Logic.True grows (Compile_statement x)) l)
    by (intros l; apply Forall_forall; intros x _; apply Hs).
  pose proof (If_compiles Logic.True
                condition thenBlock elseBlock (He condition)
                (Hall thenBlock)
                (match elseBlock with
                 | Some l => Hall l
                 | None => I
                 end) k t lo s Ht) as Ho.
  rewrite E in Ho. destruct Ho as [_ Hshape]. exact Hshape.
Qed.

(** X16: a node compiled between [enterScope] and [leaveScope] leaves
    the scope it was entered from exactly as it was: [leaveScope]
    returns the instructions the node has put in the fresh scope, and
    the compiler is back in the former scope, with constants added at
    the end of the pool and a symbol table of the former depth. *)
Theorem scope_round_trip node k t lo s code c' :
  (enterScope ;;; Compile node ;;; leaveScope) (at_scope k t lo s)
  = Ok code c' ->
  exists ks t' inner s',
    Compile node
      (at_scope k (Some (NewEnclosedSymbolTable t)) (lo ++ [s]) emptyScope)
    = Ok tt (at_scope (k ++ ks) (Some inner) (lo ++ [s]) s') /\
    code = instructions s' /\
    c' = at_scope (k ++ ks) t' lo s /\
    depth t' = depth t.
Proof.
  unfold bind. rewrite enterScope_at.
  assert (Ht : (1 <= depth (Some (NewEnclosedSymbolTable t)))%nat)
    by (simpl; lia).
  pose proof (Compile_node_compiles Logic.True no_panic_needed node k
                (Some (NewEnclosedSymbolTable t)) (lo ++ [s]) emptyScope Ht)
    as Ho.
  destruct (Compile node _) as [[] c1|msg c1|]; [|discriminate..].
  destruct Ho as (ks & t1 & s1 & -> & Hd & _).
  destruct t1 as [inner|]; [|discriminate Hd].
  rewrite leaveScope_at. intros E. injection E as <- <-.
  exists ks, (Outer inner), inner, s1.
  split; [reflexivity|]. split; [reflexivity|]. split; [reflexivity|].
  simpl in Hd. destruct inner as [[o|] st n free], t as [t|];
    simpl in *; lia.
Qed.

End CompileFacts.

(** ** The further facts on concrete programs *)

(** An [Equal] for the values that are no arrays: two values are equal
    when they are of the same type. *)
Definition same_type (o other : object.Object) : bool :=
  bool_decide (object.Type_ o = object.Type_ other).

Lemma Equal_reflexive_witness :
  array.Equal same_type
    (object.Array [object.Integer 1; object.Array [object.Boolean true]])
    (object.Array [object.Integer 1; object.Array [object.Boolean true]])
  = Some true.
Proof.
  apply (Equal_reflexive same_type).
  intros o. unfold same_type. apply bool_decide_eq_true. reflexivity.
Defined.

Section FurtherExamples.
Import code.
#[local] Existing Instance table_order.
#[local] Existing Instance object.spike_names.
#[local] Existing Instance literal_printer.

Lemma push_pop_round_trip_witness :
  exists vm',
    (vm.push (object.Integer 7) ;;; vm.pop) (vm.New [] [])
    = Ok (Some (object.Integer 7)) vm' /\
    vm.sp vm' = 0 /\
    vm.LastPoppedStackElement vm' = Some (Some (object.Integer 7)).
Proof.
  destruct (push_pop_round_trip (vm.New [] []) (object.Integer 7))
    as (vm' & Hrun & Hsp & Hlast & _).
  - apply well_formed_New.
  - vm_compute. reflexivity.
  - exists vm'. split; [exact Hrun|]. split; [exact Hsp|exact Hlast].
Defined.

(** [Add] on the empty stack. *)
Lemma dispatch_Panic_witness :
  vm.dispatch 0 (vm.New (Make OpAdd []) []) = Panic.
Proof.
  apply (dispatch_Panic (vm.New (Make OpAdd []) []) 0).
  - apply well_formed_New.
  - unfold panics_at. simpl. right. left. split.
    + apply list_elem_of_here.
    + intros (l & r & Hl & _). vm_compute in Hl. discriminate Hl.
Defined.

(** The expression [?1]. *)
Lemma Compile_errors_witness :
  exists msg c',
    compiler.Compile
      (ast.Expr (ast.PrefixExpression "?" (ast.Integer 1))) compiler.New
    = Err msg c' /\
    compile_error msg.
Proof.
  eexists _, _. split; [vm_compute; reflexivity|].
  eapply (Compile_errors
            (ast.Expr (ast.PrefixExpression "?" (ast.Integer 1)))
            compiler.New).
  vm_compute. reflexivity.
Defined.

(** The program [(1 + 2) * 3 < 10;]. *)
Definition nine_below_ten : ast.Expression :=
  ast.InfixExpression
    (ast.InfixExpression
       (ast.InfixExpression (ast.Integer 1) "+" (ast.Integer 2)) "*"
       (ast.Integer 3))
    "<" (ast.Integer 10).

Lemma compiled_expression_value_witness :
  exists bytecode c' vm',
    compile_program nine_below_ten = Ok bytecode c' /\
    run_bytecode bytecode = Some (Ok tt vm') /\
    vm.sp vm' = 0 /\
    vm.LastPoppedStackElement vm' = Some (Some (object.Boolean true)).
Proof.
  apply (compiled_expression_value nine_below_ten (object.Boolean true)).
  - reflexivity.
  - vm_compute. discriminate.
  - vm_compute. discriminate.
Defined.

(** The function literal [fn() { }], and [if (true) { 1 } else { 2 }]. *)
Definition empty_function : ast.Node :=
  ast.Expr (ast.FunctionExpression [] []).

Definition one_or_two : ast.Expression :=
  ast.IfExpression (ast.Boolean true)
    [ast.ExpressionStatement (ast.Integer 1)]
    (Some [ast.ExpressionStatement (ast.Integer 2)]).

Lemma Compile_never_panics_witness :
  byte_of OpPop <> 0 /\
  compiler.Compile empty_function compiler.New <> Panic.
Proof.
  assert (Hpop : byte_of OpPop <> 0) by (vm_compute; discriminate).
  split; [exact Hpop|].
  apply (Compile_never_panics []
           (Some (compiler.defineBuiltins 0 object.Builtins
                    symbols.NewSymbolTable)) [] compiler.emptyScope).
  - simpl. lia.
  - exact Hpop.
Defined.

Lemma Compile_appends_witness :
  exists c' ks t' s' code,
    compiler.Compile (ast.Expr one_or_two) compiler.New = Ok tt c' /\
    c' = at_scope ([] ++ ks) t' [] s' /\
    compiler.instructions s' = [] ++ code.
Proof.
  assert (E : exists c',
             compiler.Compile (ast.Expr one_or_two) compiler.New = Ok tt c')
    by (eexists; vm_compute; reflexivity).
  destruct E as [c' E].
  destruct (Compile_appends (ast.Expr one_or_two) []
              (Some (compiler.defineBuiltins 0 object.Builtins
                       symbols.NewSymbolTable)) [] compiler.emptyScope c')
    as (ks & t' & s' & code & Hc & _ & Hi).
  - simpl. lia.
  - exact E.
  - exists c', ks, t', s', code. auto.
Defined.

Lemma Compile_tracks_witness :
  exists c' s',
    compiler.Compile (ast.Expr one_or_two) compiler.New = Ok tt c' /\
    current c' = Some s' /\
    (s' = compiler.emptyScope \/
     exists op,
       describes (compiler.instructions s') (compiler.lastInstruction s') op
         (len (compiler.instructions s')) /\
       len (compiler.instructions compiler.emptyScope)
       <= compiler.Position (compiler.lastInstruction s')).
Proof.
  assert (E : exists c',
             compiler.Compile (ast.Expr one_or_two) compiler.New = Ok tt c')
    by (eexists; vm_compute; reflexivity).
  destruct E as [c' E].
  destruct (Compile_tracks (ast.Expr one_or_two) []
              (Some (compiler.defineBuiltins 0 object.Builtins
                       symbols.NewSymbolTable)) [] compiler.emptyScope c')
    as (s' & Hc & Hs).
  - simpl. lia.
  - exact E.
  - exists c', s'. auto.
Defined.

Lemma Compile_expression_ends_witness :
  exists c' s' code op,
    compiler.Compile_expression one_or_two compiler.New = Ok tt c' /\
    current c' = Some s' /\
    compiler.instructions s' = [] ++ code /\ code <> [] /\ op <> OpPop /\
    describes (compiler.instructions s') (compiler.lastInstruction s') op
      (len (compiler.instructions s')).
Proof.
  assert (E : exists c',
             compiler.Compile_expression one_or_two compiler.New = Ok tt c')
    by (eexists; vm_compute; reflexivity).
  destruct E as [c' E].
  destruct (Compile_expression_ends one_or_two []
              (Some (compiler.defineBuiltins 0 object.Builtins
                       symbols.NewSymbolTable)) [] compiler.emptyScope c')
    as (s' & code & op & Hfacts).
  - simpl. lia.
  - exact E.
  - exists c', s', code, op. split; [exact E|exact Hfacts].
Defined.

Lemma If_jump_targets_witness :
  exists c',
    compiler.Compile_expression one_or_two compiler.New = Ok tt c' /\
    conditional_shape (ast.Boolean true)
      [ast.ExpressionStatement (ast.Integer 1)]
      (Some [ast.ExpressionStatement (ast.Integer 2)])
      [] (Some (compiler.defineBuiltins 0 object.Builtins
                  symbols.NewSymbolTable)) [] compiler.emptyScope c'.
Proof.
  assert (E : exists c',
             compiler.Compile_expression one_or_two compiler.New = Ok tt c')
    by (eexists; vm_compute; reflexivity).
  destruct E as [c' E]. exists c'. split; [exact E|].
  apply (If_jump_targets (ast.Boolean true)
           [ast.ExpressionStatement (ast.Integer 1)]
           (Some [ast.ExpressionStatement (ast.Integer 2)])).
  - simpl. lia.
  - exact E.
Defined.

Lemma scope_round_trip_witness :
  exists code c' ks t',
    (compiler.enterScope ;;; compiler.Compile (ast.Expr one_or_two) ;;;
     compiler.leaveScope) compiler.New = Ok code c' /\
    c' = at_scope ([] ++ ks) t' [] compiler.emptyScope.
Proof.
  assert (E : exists code c',
             (compiler.enterScope ;;;
              compiler.Compile (ast.Expr one_or_two) ;;;
              compiler.leaveScope) compiler.New = Ok code c')
    by (eexists _, _; vm_compute; reflexivity).
  destruct E as (code & c' & E).
  destruct (scope_round_trip (ast.Expr one_or_two) []
              (Some (compiler.defineBuiltins 0 object.Builtins
                       symbols.NewSymbolTable)) [] compiler.emptyScope
              code c' E)
    as (ks & t' & inner & s' & _ & _ & Hc & _).
  exists code, c', ks, t'. auto.
Defined.

(** The code of [true < true], which is [true > true]. *)
Lemma Run_errors_witness :
  exists msg vm',
    vm.Run (vm.New (Make OpTrue [] ++ Make OpTrue []
                    ++ Make OpGreaterThan []) [])
    = Some (Err msg vm') /\
    run_error msg.
Proof.
  eexists _, _. split; [vm_compute; reflexivity|].
  eapply (Run_errors (vm.New (Make OpTrue [] ++ Make OpTrue []
                              ++ Make OpGreaterThan []) [])).
  vm_compute. reflexivity.
Defined.

End FurtherExamples.
